(** * Open-addressing hash table of [src/ht.h] and its near-duplicate
    [src/unnamed/part_000]: shallow embedding and verified properties.

  Conventions of the embedding.
  - [size_t] / [HASH_INDEX_T] values are integers in [Z]; arithmetic that
    the C++ performs on [size_t] is written with its 64-bit wrap-around
    ([add64], [mul64], [sub64], [to_size_t]).
  - [std::vector<HashItem*>] is a [list (option HashItem)]: [None] is the
    null pointer, [Some hi] an allocated item with its [deleted] flag.
  - C++ exceptions are explicit: every operation of the table returns
    either [Ret a t] (normal return with the table left in state [t]) or
    [Throw e t] (exception [e] propagates, the object is left in state [t]).
  - The template parameters [K], [V], [Prober], [Hash], [KEqual] are
    section variables.
  - [resizeAlpha_] is a [double] in the source.  The only use of it is the
    comparison [double(n) / table_.size() >= resizeAlpha_].  The embedding
    carries the threshold as the rational it stands for, and computes the
    left-hand side as the machine does: the two conversions and the
    division each round to the nearest [double] ([round_double]).  The
    quotient is a [double], so a threshold that is no [double] compares
    like the next [double] above it.  An infinite threshold or a NaN has
    no rational: on a table it makes the test constant, as a rational
    above 2^64 or below 0 does. *)

From Stdlib Require Import ZArith QArith Qpower Qround SpecFloat Lia Lqa Sorted Ascii.
From stdpp Require Import gmap list strings.

Local Open Scope Z_scope.

(** ** Machine integers *)

Definition SIZE_T_MODULUS : Z := 2 ^ 64.

Definition to_size_t (x : Z) : Z := x mod SIZE_T_MODULUS.
Definition add64 (a b : Z) : Z := to_size_t (a + b).
Definition mul64 (a b : Z) : Z := to_size_t (a * b).
Definition sub64 (a b : Z) : Z := to_size_t (a - b).

(** [static const HASH_INDEX_T npos = (HASH_INDEX_T)-1;] *)
Definition npos : Z := to_size_t (-1).

(** ** Doubles

    A finite [double] is the rational it stands for.  Conversions and
    arithmetic round to the nearest [double], the one with the even
    significand of two equally near (IEEE 754 binary64 in its default
    rounding mode).  The operands of the load-factor test are [size_t]
    values and their quotients lie between 2^-64 and 2^64, inside the
    range of the normal numbers, where a [double] has 53 significant
    bits. *)

(** The integer nearest to [y], the even one of two equally near. *)
Definition nearest_even (y : Q) : Z :=
  let f := Qfloor y in
  match (y - inject_Z f ?= 1 # 2)%Q with
  | Lt => f
  | Eq => if Z.even f then f else f + 1
  | Gt => f + 1
  end.

(** The exponent [e] with [2^e <= x < 2^(e+1)], for [x > 0]: the difference
    of the bit lengths of numerator and denominator, or one less. *)
Definition binade (x : Q) : Z :=
  let e := Z.log2 (Qnum x) - Z.log2 (Z.pos (Qden x)) in
  if Qle_bool (2 ^ e) x then e else e - 1.

(** The [double] nearest to [x], for [x >= 0]: [x] scaled to 53 bits before
    the point, rounded to an integer, and scaled back. *)
Definition round_double (x : Q) : Q :=
  if Qeq_bool x 0 then 0
  else
    let e := binade x in
    (inject_Z (nearest_even (x * 2 ^ (52 - e))) * 2 ^ (e - 52))%Q.

(** [double(n) / size >= alpha] for [size_t] values [n] and [size] and a
    finite [alpha]: both operands are converted to [double], and the
    quotient is rounded.  A positive number divided by zero is the
    infinity, which is above every threshold; 0.0 / 0.0 is a NaN, for
    which no comparison holds. *)
Definition load_reached (n size : Z) (alpha : Q) : bool :=
  let x := round_double (inject_Z n) in
  let y := round_double (inject_Z size) in
  if Qeq_bool y 0 then negb (Qeq_bool x 0)
  else Qle_bool alpha (round_double (x / y)).

(** The same test by [SpecFloat], the Standard Library's executable
    specification of IEEE 754 arithmetic, at the parameters of binary64:
    [binary_normalize] is the conversion of an integer, [SFdiv] the
    division.  [load_reached] is compared with it on [rounding_samples]
    below. *)
Definition ieee_quotient (n size : Z) : spec_float :=
  SFdiv 53 1024 (binary_normalize 53 1024 n 0 false)
                (binary_normalize 53 1024 size 0 false).

Definition ieee_load_reached (n size : Z) (alpha : Q) : bool :=
  match ieee_quotient n size with
  | S754_zero _ => Qle_bool alpha 0
  | S754_finite false m e => Qle_bool alpha (inject_Z (Z.pos m) * 2 ^ e)
  | S754_infinity false => true
  | _ => false
  end.

(** The thresholds that tell a quotient from its neighbours: the exact
    ratio, the quotient [SpecFloat] computes, and a number just above
    it. *)
Definition telling_thresholds (n size : Z) : list Q :=
  (n # Z.to_pos size) ::
  match ieee_quotient n size with
  | S754_finite false m e =>
    [inject_Z (Z.pos m) * 2 ^ e; inject_Z (Z.pos m) * 2 ^ e * (1 + 2 ^ (-60))]%Q
  | _ => [0%Q; 1%Q]
  end.

(** Operands to compare the two on: the loads of the first rungs, zero
    divisors, the last rung, operands around 2^53 and 2^64, and 200
    pairs of pseudo-random numbers of up to 64 bits. *)
Fixpoint pseudo_random (k : nat) (seed : Z) : list Z :=
  match k with
  | O => []
  | S k' =>
    let seed' := (seed * 6364136223846793005 + 1442695040888963407) mod 2 ^ 64 in
    seed' :: pseudo_random k' seed'
  end.

Definition rounding_samples : list (Z * Z) :=
  (n ← Z.of_nat <$> seq 0 25;
   size ← [0; 1; 3; 11; 23; 47; 97; 1685759167]; [(n, size)])
  ++ [(9007199254740993, 1); (9007199254740995, 3); (18014398509481983, 2);
      (18446744073709551615, 1); (18446744073709551615, 18446744073709551615);
      (1, 18446744073709551615); (4611686018427387905, 4611686018427387903)]
  ++ ((λ r, (1 + (r / 2 ^ 20) mod 2 ^ (1 + r mod 64),
             1 + (r / 2 ^ 7) mod 2 ^ (1 + (r / 64) mod 64)))
      <$> pseudo_random 200 12345).

(** ** Exceptions *)

Inductive Error : Type :=
| ProberMisuse        (* std::logic_error thrown by Prober::next *)
| TableFull           (* std::logic_error "HashTable full" thrown by insert *)
| CapacityExhausted   (* std::logic_error "No more (prime) capacities" thrown by resize *)
| KeyNotFound         (* std::out_of_range thrown by at *)
| OutOfRange          (* vector subscript outside [0, size): undefined behaviour *)
| OutOfFuel.          (* artefact of the embedding: recursion bound reached *)

Inductive result (A : Type) : Type :=
| Returns (a : A)
| Throws (e : Error).
Arguments Returns {A} a.
Arguments Throws {A} e.

(** ** Probers (identical text in both headers up to the modulus table) *)

(** The fields of [struct Prober] together with the one field
  [DoubleHashProber] adds ([dhstep_] in ht.h, [step_] in part_000). *)
Record ProberState : Type := mkProberState {
start_ : Z;       (* h1(k) *)
m_ : Z;           (* table size *)
numProbes_ : Z;   (* how many calls to next() *)
dhstep_ : Z
}.

Section Probers.
Context {KeyType : Type}.

(** The three classes a table can be instantiated with. *)
Inductive ProberKind : Type :=
| BaseProber
| LinearProber
| DoubleHashProber (h2_ : KeyType → Z).

(** [Prober<KeyType>::init] *)
Definition Prober_init (start m : Z) (key : KeyType) : ProberState :=
  {| start_ := start; m_ := m; numProbes_ := 0; dhstep_ := 0 |}.

(** The loop of [DoubleHashProber::init]:
    [for (i = 0; i < SIZE && VALUES[i] < m; ++i) mod = VALUES[i];] *)
Fixpoint pick_mod (vals : list Z) (m : Z) (cur : Z) : Z :=
  match vals with
  | [] => cur
  | v :: vals' => if v <? m then pick_mod vals' m v else cur
  end.

(** [DoubleHashProber::init] over the static table [vals]. *)
Definition DoubleHashProber_init (vals : list Z) (h2 : KeyType → Z)
    (start m : Z) (key : KeyType) : ProberState :=
  let base := Prober_init start m key in
  let modulus := pick_mod vals m (nth 0 vals 0) in
  {| start_ := start_ base; m_ := m_ base; numProbes_ := numProbes_ base;
     dhstep_ := sub64 modulus (to_size_t (h2 key) mod modulus) |}.

Definition init (vals : list Z) (P : ProberKind) (start m : Z) (key : KeyType)
    : ProberState :=
  match P with
  | BaseProber | LinearProber => Prober_init start m key
  | DoubleHashProber h2 => DoubleHashProber_init vals h2 start m key
  end.

Definition bump (st : ProberState) : ProberState :=
  {| start_ := start_ st; m_ := m_ st;
     numProbes_ := add64 (numProbes_ st) 1; dhstep_ := dhstep_ st |}.

(** [LinearProber::next] *)
Definition LinearProber_next (st : ProberState) : Z * ProberState :=
  if m_ st <=? numProbes_ st then (npos, st)
  else (add64 (start_ st) (numProbes_ st) mod m_ st, bump st).

(** [DoubleHashProber::next] *)
Definition DoubleHashProber_next (st : ProberState) : Z * ProberState :=
  if m_ st <=? numProbes_ st then (npos, st)
  else (add64 (start_ st) (mul64 (numProbes_ st) (dhstep_ st)) mod m_ st, bump st).

(** [next], dispatched on the static type; [Prober::next] throws. *)
Definition next (P : ProberKind) (st : ProberState) : result (Z * ProberState) :=
  match P with
  | BaseProber => Throws ProberMisuse
  | LinearProber => Returns (LinearProber_next st)
  | DoubleHashProber _ => Returns (DoubleHashProber_next st)
  end.

(** [n] successive calls of [next]; the returned indices, in order. *)
Fixpoint next_n (P : ProberKind) (n : nat) (st : ProberState) : list (result Z) :=
  match n with
  | O => []
  | S n' =>
    match next P st with
    | Throws e => [Throws e]
    | Returns (loc, st') => Returns loc :: next_n P n' st'
    end
  end.
End Probers.

Arguments ProberKind : clear implicits.

(** ** Data shared by the two headers *)

Section TableTypes.
Context {K V : Type}.

(** [struct HashItem { ItemType item; bool deleted; }]; the constructor
    [HashItem(p)] is [mkHashItem p false]. *)
Record HashItem : Type := mkHashItem {
  item : K * V;
  deleted : bool
}.

(** The data members of [class HashTable], under their names in ht.h
    (part_000 calls [resizeAlpha_] and [mIndex_] [alpha_] and [index_]).
    [prober_], [hash_] and [kequal_] are fixed at construction and are
    section variables below; the working state of [prober_] is
    re-initialised by every [probe] and is local to it. *)
Record HashTable : Type := mkHashTable {
  table_ : list (option HashItem);
  resizeAlpha_ : Q;
  totalProbes_ : Z;
  mIndex_ : Z;
  count_ : Z;   (* active (non-deleted) items *)
  used_ : Z     (* total non-null (incl. deleted) *)
}.

(** Outcome of a member function: normal return or exception, each with
    the state the object is left in. *)
Inductive Res (A : Type) : Type :=
| Ret (a : A) (t : HashTable)
| Throw (e : Error) (t : HashTable).

Definition set_totalProbes (n : Z) (t : HashTable) : HashTable :=
  {| table_ := table_ t; resizeAlpha_ := resizeAlpha_ t; totalProbes_ := n;
     mIndex_ := mIndex_ t; count_ := count_ t; used_ := used_ t |}.

(** [table_[loc] = new HashItem(p); ++count_; ++used_;] *)
Definition store_new (loc : Z) (p : K * V) (t : HashTable) : HashTable :=
  {| table_ := <[Z.to_nat loc := Some (mkHashItem p false)]> (table_ t);
     resizeAlpha_ := resizeAlpha_ t; totalProbes_ := totalProbes_ t;
     mIndex_ := mIndex_ t;
     count_ := add64 (count_ t) 1; used_ := add64 (used_ t) 1 |}.

(** [table_[loc]->item.second = v;] on the item [hi] found at [loc] *)
Definition overwrite (loc : Z) (hi : HashItem) (v : V) (t : HashTable) : HashTable :=
  {| table_ := <[Z.to_nat loc := Some (mkHashItem (fst (item hi), v) (deleted hi))]> (table_ t);
     resizeAlpha_ := resizeAlpha_ t; totalProbes_ := totalProbes_ t;
     mIndex_ := mIndex_ t; count_ := count_ t; used_ := used_ t |}.

(** [p->deleted = true; --count_;] on the item [hi] found at [loc] *)
Definition mark_deleted (loc : Z) (hi : HashItem) (t : HashTable) : HashTable :=
  {| table_ := <[Z.to_nat loc := Some (mkHashItem (item hi) true)]> (table_ t);
     resizeAlpha_ := resizeAlpha_ t; totalProbes_ := totalProbes_ t;
     mIndex_ := mIndex_ t; count_ := sub64 (count_ t) 1; used_ := used_ t |}.

(** [++mIndex_; table_.assign(cap, nullptr); count_ = 0; used_ = 0;] *)
Definition fresh_table (cap : Z) (t : HashTable) : HashTable :=
  {| table_ := replicate (Z.to_nat cap) None;
     resizeAlpha_ := resizeAlpha_ t; totalProbes_ := totalProbes_ t;
     mIndex_ := add64 (mIndex_ t) 1; count_ := 0; used_ := 0 |}.

(** The rehash loop of [resize], over the copy [oldTab] of the old vector:
    [for (auto pItem : oldTab) { if (pItem && !pItem->deleted) insert(pItem->item); delete pItem; }]
    An exception of [insert] leaves the loop. *)
Fixpoint rehash (ins : K * V → HashTable → Res unit)
    (oldTab : list (option HashItem)) (t : HashTable) : Res unit :=
  match oldTab with
  | [] => Ret unit tt t
  | pItem :: rest =>
    match pItem with
    | Some hi =>
      if negb (deleted hi) then
        match ins (item hi) t with
        | Ret _ _ t' => rehash ins rest t'
        | Throw _ e t' => Throw unit e t'
        end
      else rehash ins rest t
    | None => rehash ins rest t
    end
  end.

(** The entries of [ps] inserted one after the other with [ins]; the first
    exception ends the run. *)
Fixpoint insert_all (ins : K * V → HashTable → Res unit)
    (ps : list (K * V)) (t : HashTable) : Res unit :=
  match ps with
  | [] => Ret unit tt t
  | p :: ps' =>
    match ins p t with
    | Ret _ _ t' => insert_all ins ps' t'
    | Throw _ e t' => Throw unit e t'
    end
  end.

(** The state an operation leaves the object in, however it ends. *)
Definition state_of {A : Type} (r : Res A) : HashTable :=
  match r with
  | Ret _ _ t => t
  | Throw _ _ t => t
  end.
End TableTypes.

Arguments HashItem : clear implicits.
Arguments HashTable : clear implicits.
Arguments Res : clear implicits.
Arguments Ret {K V A} a t.
Arguments Throw {K V A} e t.
Arguments state_of {K V A} r.

(** ** src/unnamed/part_000 *)

Module Part000.

(** [DoubleHashProber::modVals] *)
Definition modVals : list Z :=
  [7; 19; 43; 89; 193; 389; 787; 1583; 3191; 6397; 12841; 25703;
   51431; 102871; 205721; 411503; 823051; 1646221; 3292463; 6584957;
   13169963; 26339921; 52679927; 105359939; 210719881; 421439783;
   842879563; 1685759113].

(** [HashTable::sizes] *)
Definition sizes : list Z :=
  [11; 23; 47; 97; 197; 397; 797; 1597;
   3203; 6421; 12853; 25717; 51437; 102877;
   205759; 411527; 823117; 1646237; 3292489;
   6584983; 13169977; 26339969; 52679969;
   105359969; 210719881; 421439783;
   842879579; 1685759167].

(** [sizeof(sizes)/sizeof(HASH_INDEX_T)] *)
Definition sizesCount : Z := Z.of_nat (length sizes).

(** [sizes[i]] *)
Definition sizes_at (i : Z) : Z := nth (Z.to_nat i) sizes 0.

Section HashTable.
Context {K V : Type}.
Variable hash_ : K → Z.
Variable eq_ : K → K → bool.
Variable prober_ : ProberKind K.

(** The constructor, with [alpha] for the threshold. *)
Definition HashTable_new (alpha : Q) : HashTable K V :=
  {| table_ := replicate (Z.to_nat (sizes_at 0)) None;
     resizeAlpha_ := alpha; totalProbes_ := 0;
     mIndex_ := 0; count_ := 0; used_ := 0 |}.

Definition empty (t : HashTable K V) : bool := count_ t =? 0.
Definition size (t : HashTable K V) : Z := count_ t.

(** The loop of [probe]:
    [for (size_t i = 0; i < sizes[index_]; ++i) { loc = prober_.next(); ++totalProbes_;
       if (loc == npos) return npos;
       auto pi = table_[loc];
       if (!pi || (!pi->deleted && eq_(pi->item.first, key))) return loc; }
     return npos;]
    with [n] the iterations left. *)
Fixpoint probe_loop (n : nat) (tbl : list (option (HashItem K V))) (key : K)
    (st : ProberState) (total : Z) : result Z * Z :=
  match n with
  | O => (Returns npos, total)
  | S n' =>
    match next prober_ st with
    | Throws e => (Throws e, total)
    | Returns (loc, st') =>
      let total' := add64 total 1 in
      if loc =? npos then (Returns npos, total')
      else
        match tbl !! Z.to_nat loc with
        | None => (Throws OutOfRange, total')
        | Some None => (Returns loc, total')
        | Some (Some pi) =>
          if negb (deleted pi) && eq_ (fst (item pi)) key then (Returns loc, total')
          else probe_loop n' tbl key st' total'
        end
    end
  end.

Definition probe (key : K) (t : HashTable K V) : Res K V Z :=
  let h0 := to_size_t (hash_ key) mod sizes_at (mIndex_ t) in
  let st := init modVals prober_ h0 (sizes_at (mIndex_ t)) key in
  let '(r, total) :=
    probe_loop (Z.to_nat (sizes_at (mIndex_ t))) (table_ t) key st (totalProbes_ t) in
  match r with
  | Returns loc => Ret loc (set_totalProbes total t)
  | Throws e => Throw e (set_totalProbes total t)
  end.

(** [internalFind]: the returned [HashItem*] is the index of its slot. *)
Definition internalFind (key : K) (t : HashTable K V) : Res K V (option Z) :=
  match probe key t with
  | Throw e t' => Throw e t'
  | Ret loc t' =>
    if loc =? npos then Ret None t'
    else
      match table_ t' !! Z.to_nat loc with
      | None => Throw OutOfRange t'
      | Some None => Ret None t'
      | Some (Some p) => if negb (deleted p) then Ret (Some loc) t' else Ret None t'
      end
  end.

(** The slot a pointer returned by [internalFind] points to. *)
Definition deref (loc : Z) (t : HashTable K V) : option (HashItem K V) :=
  match table_ t !! Z.to_nat loc with
  | Some (Some hi) => Some hi
  | _ => None
  end.

(** [find]: the pointee of the returned [ItemType*], [None] for [nullptr]. *)
Definition find (key : K) (t : HashTable K V) : Res K V (option (K * V)) :=
  match internalFind key t with
  | Throw e t' => Throw e t'
  | Ret None t' => Ret None t'
  | Ret (Some loc) t' => Ret (item <$> deref loc t') t'
  end.

Definition at_ (key : K) (t : HashTable K V) : Res K V V :=
  match internalFind key t with
  | Throw e t' => Throw e t'
  | Ret None t' => Throw KeyNotFound t'
  | Ret (Some loc) t' =>
    match deref loc t' with
    | Some hi => Ret (snd (item hi)) t'
    | None => Throw OutOfRange t'
    end
  end.

Definition remove (key : K) (t : HashTable K V) : Res K V unit :=
  match internalFind key t with
  | Throw e t' => Throw e t'
  | Ret None t' => Ret tt t'
  | Ret (Some loc) t' =>
    match deref loc t' with
    | Some p => if negb (deleted p) then Ret tt (mark_deleted loc p t') else Ret tt t'
    | None => Ret tt t'
    end
  end.

(** [resize], with [ins] for the recursive call of [insert]. *)
Definition resize_with (ins : K * V → HashTable K V → Res K V unit)
    (t : HashTable K V) : Res K V unit :=
  if sizesCount <=? add64 (mIndex_ t) 1 then Throw CapacityExhausted t
  else
    let old := table_ t in
    rehash ins old (fresh_table (sizes_at (add64 (mIndex_ t) 1)) t).

(** [insert] (lines 121-133; the stray second [else] block of lines
    134-136 lies outside the function body and is not part of it).
    [insert] and [resize] call each other; [fuel] bounds the nesting. *)
Fixpoint insert_fuel (fuel : nat) (p : K * V) (t : HashTable K V) : Res K V unit :=
  match fuel with
  | O => Throw OutOfFuel t
  | S fuel' =>
    let resized :=
      if load_reached (used_ t) (Z.of_nat (length (table_ t))) (resizeAlpha_ t)
      then resize_with (insert_fuel fuel') t
      else Ret tt t in
    match resized with
    | Throw e t1 => Throw e t1
    | Ret _ t1 =>
      match probe (fst p) t1 with
      | Throw e t2 => Throw e t2
      | Ret loc t2 =>
        if loc =? npos then Throw TableFull t2
        else
          match table_ t2 !! Z.to_nat loc with
          | None => Throw OutOfRange t2
          | Some None => Ret tt (store_new loc p t2)
          | Some (Some hi) => Ret tt (overwrite loc hi (snd p) t2)
          end
      end
    end
  end.

(** Every nested [resize] advances [index_], so the nesting is at most the
    length of the ladder. *)
Definition insert (p : K * V) (t : HashTable K V) : Res K V unit :=
  insert_fuel (S (length sizes)) p t.

(** [reportAll]: the lines written to [out], as (bucket, key, value). *)
Definition reportAll (t : HashTable K V) : list (Z * K * V) :=
  omap id
    (imap (λ (i : nat) (slot : option (HashItem K V)),
             match slot with
             | Some hi =>
               if negb (deleted hi)
               then Some (Z.of_nat i, fst (item hi), snd (item hi))
               else None
             | None => None
             end) (table_ t)).

Definition clearTotalProbes (t : HashTable K V) : HashTable K V := set_totalProbes 0 t.
Definition totalProbes (t : HashTable K V) : Z := totalProbes_ t.
End HashTable.
End Part000.

(** ** src/ht.h *)

Module Ht.

(** [DoubleHashProber::DOUBLE_HASH_MOD_VALUES] *)
Definition DOUBLE_HASH_MOD_VALUES : list Z :=
  [7; 19; 43; 89; 193; 389; 787; 1583; 3191; 6397;
   12841; 25703; 51431; 102871; 205721; 411503;
   823051; 1646221; 3292463; 6584957; 13169963;
   26339921; 52679927; 105359939; 210719881;
   421439749; 842879563; 1685759113].

(** [HashTable::CAPACITIES] *)
Definition CAPACITIES : list Z :=
  [11; 23; 47; 97; 197; 397; 797; 1597;
   3203; 6421; 12853; 25717; 51437; 102877;
   205759; 411527; 823117; 1646237; 3292489;
   6584983; 13169977; 26339969; 52679969;
   105359969; 210719881; 421439783;
   842879579; 1685759167].

(** [size_t capCount = sizeof(CAPACITIES)/sizeof(HASH_INDEX_T);] *)
Definition capCount : Z := Z.of_nat (length CAPACITIES).

(** [CAPACITIES[i]] *)
Definition capacity_at (i : Z) : Z := nth (Z.to_nat i) CAPACITIES 0.

Section HashTable.
Context {K V : Type}.
Variable hash_ : K → Z.
Variable kequal_ : K → K → bool.
Variable prober_ : ProberKind K.

(** The constructor: [mIndex_(0), count_(0), used_(0)] and
    [table_.assign(CAPACITIES[mIndex_], nullptr)]. *)
Definition HashTable_new (resizeAlpha : Q) : HashTable K V :=
  {| table_ := replicate (Z.to_nat (capacity_at 0)) None;
     resizeAlpha_ := resizeAlpha; totalProbes_ := 0;
     mIndex_ := 0; count_ := 0; used_ := 0 |}.

Definition empty (t : HashTable K V) : bool := count_ t =? 0.
Definition size (t : HashTable K V) : Z := count_ t.

(** The test under which [probe] returns [loc]: the slot is null, or holds
    a non-deleted item with an equal key. *)
Definition stops (key : K) (slot : option (HashItem K V)) : bool :=
  match slot with
  | None => true
  | Some hi => negb (deleted hi) && kequal_ (fst (item hi)) key
  end.

(** The loop of [probe], entered with the first [loc] already drawn:
    [while (loc != npos) { if (table_[loc] == nullptr) return loc;
         else if (!table_[loc]->deleted && kequal_(table_[loc]->item.first, key)) return loc;
         loc = prober_.next(); ++totalProbes_; }
     return npos;]
    [fuel] bounds the iterations. *)
Fixpoint probe_loop (fuel : nat) (tbl : list (option (HashItem K V))) (key : K)
    (st : ProberState) (loc : Z) (total : Z) : result Z * Z :=
  match fuel with
  | O => (Throws OutOfFuel, total)
  | S fuel' =>
    if loc =? npos then (Returns npos, total)
    else
      match tbl !! Z.to_nat loc with
      | None => (Throws OutOfRange, total)
      | Some slot =>
        if stops key slot then (Returns loc, total)
        else
          match next prober_ st with
          | Throws e => (Throws e, total)
          | Returns (loc', st') => probe_loop fuel' tbl key st' loc' (add64 total 1)
          end
      end
  end.

(** A prober initialised for a table of [cap] slots signals [npos] at its
    call number [cap + 1], which the loop sees in iteration [cap + 1]. *)
Definition probe_fuel (cap : Z) : nat := S (Z.to_nat cap).

Definition probe (key : K) (t : HashTable K V) : Res K V Z :=
  let h0 := to_size_t (hash_ key) mod capacity_at (mIndex_ t) in
  let st := init DOUBLE_HASH_MOD_VALUES prober_ h0 (capacity_at (mIndex_ t)) key in
  match next prober_ st with
  | Throws e => Throw e t
  | Returns (loc, st') =>
    let '(r, total) :=
      probe_loop (probe_fuel (capacity_at (mIndex_ t))) (table_ t) key st' loc
                 (add64 (totalProbes_ t) 1) in
    match r with
    | Returns l => Ret l (set_totalProbes total t)
    | Throws e => Throw e (set_totalProbes total t)
    end
  end.

(** [internalFind]: the returned [HashItem*] is the index of its slot. *)
Definition internalFind (key : K) (t : HashTable K V) : Res K V (option Z) :=
  match probe key t with
  | Throw e t' => Throw e t'
  | Ret loc t' =>
    if loc =? npos then Ret None t'
    else
      match table_ t' !! Z.to_nat loc with
      | None => Throw OutOfRange t'
      | Some None => Ret None t'
      | Some (Some _) => Ret (Some loc) t'
      end
  end.

(** [find]: the pointee of the returned [ItemType*], [None] for [nullptr]. *)
Definition find (key : K) (t : HashTable K V) : Res K V (option (K * V)) :=
  match probe key t with
  | Throw e t' => Throw e t'
  | Ret loc t' =>
    if loc =? npos then Ret None t'
    else
      match table_ t' !! Z.to_nat loc with
      | None => Throw OutOfRange t'
      | Some None => Ret None t'
      | Some (Some hi) => Ret (Some (item hi)) t'
      end
  end.

(** [at] and [operator[]] *)
Definition at_ (key : K) (t : HashTable K V) : Res K V V :=
  match internalFind key t with
  | Throw e t' => Throw e t'
  | Ret None t' => Throw KeyNotFound t'
  | Ret (Some loc) t' =>
    match table_ t' !! Z.to_nat loc with
    | Some (Some hi) => Ret (snd (item hi)) t'
    | _ => Throw OutOfRange t'
    end
  end.

Definition remove (key : K) (t : HashTable K V) : Res K V unit :=
  match internalFind key t with
  | Throw e t' => Throw e t'
  | Ret None t' => Ret tt t'
  | Ret (Some loc) t' =>
    match table_ t' !! Z.to_nat loc with
    | Some (Some p) => Ret tt (mark_deleted loc p t')
    | _ => Throw OutOfRange t'
    end
  end.

(** [resize], with [ins] for the recursive call of [insert]. *)
Definition resize_with (ins : K * V → HashTable K V → Res K V unit)
    (t : HashTable K V) : Res K V unit :=
  if capCount <=? add64 (mIndex_ t) 1 then Throw CapacityExhausted t
  else
    let oldTab := table_ t in
    rehash ins oldTab (fresh_table (capacity_at (add64 (mIndex_ t) 1)) t).

(** The test at the head of [insert]:
    [double(used_ + 1) / table_.size() >= resizeAlpha_] *)
Definition needs_resize (t : HashTable K V) : bool :=
  load_reached (add64 (used_ t) 1) (Z.of_nat (length (table_ t))) (resizeAlpha_ t).

(** What [insert] does once the slot [loc] is known. *)
Definition place (loc : Z) (p : K * V) (t : HashTable K V) : Res K V unit :=
  if loc =? npos then Throw TableFull t
  else
    match table_ t !! Z.to_nat loc with
    | None => Throw OutOfRange t
    | Some None => Ret tt (store_new loc p t)
    | Some (Some hi) => Ret tt (overwrite loc hi (snd p) t)
    end.

(** [insert]; it and [resize] call each other, and [fuel] bounds the
    nesting of these calls. *)
Fixpoint insert_fuel (fuel : nat) (p : K * V) (t : HashTable K V) : Res K V unit :=
  match fuel with
  | O => Throw OutOfFuel t
  | S fuel' =>
    let resized :=
      if needs_resize t then resize_with (insert_fuel fuel') t else Ret tt t in
    match resized with
    | Throw e t1 => Throw e t1
    | Ret _ t1 =>
      match probe (fst p) t1 with
      | Throw e t2 => Throw e t2
      | Ret loc t2 => place loc p t2
      end
    end
  end.

Definition resize_fuel (fuel : nat) (t : HashTable K V) : Res K V unit :=
  resize_with (insert_fuel fuel) t.

(** Every nested [resize] advances [mIndex_], so the nesting is at most
    the length of the ladder. *)
Definition insert (p : K * V) (t : HashTable K V) : Res K V unit :=
  insert_fuel (S (length CAPACITIES)) p t.

Definition resize (t : HashTable K V) : Res K V unit :=
  resize_fuel (length CAPACITIES) t.

(** [reportAll]: the lines written to [out], as (bucket, key, value). *)
Definition reportAll (t : HashTable K V) : list (Z * K * V) :=
  omap id
    (imap (λ (i : nat) (slot : option (HashItem K V)),
             match slot with
             | Some hi => Some (Z.of_nat i, fst (item hi), snd (item hi))
             | None => None
             end) (table_ t)).

Definition clearTotalProbes (t : HashTable K V) : HashTable K V := set_totalProbes 0 t.
Definition totalProbes (t : HashTable K V) : Z := totalProbes_ t.

(** *** Sequences of public operations *)

Inductive Op : Type :=
| OpInsert (k : K) (v : V)
| OpRemove (k : K).

Definition op_key (o : Op) : K :=
  match o with OpInsert k _ => k | OpRemove k => k end.

Definition run_op (o : Op) (t : HashTable K V) : Res K V unit :=
  match o with
  | OpInsert k v => insert (k, v) t
  | OpRemove k => remove k t
  end.

(** The operations of [ops] one after the other; the first exception ends
    the run. *)
Fixpoint run (ops : list Op) (t : HashTable K V) : Res K V unit :=
  match ops with
  | [] => Ret tt t
  | o :: ops' =>
    match run_op o t with
    | Ret _ t' => run ops' t'
    | Throw e t' => Throw e t'
    end
  end.

(** *** Abstraction and representation invariant *)

(** The slot index [probe] returns for [key], without the bookkeeping of
    [totalProbes_]. *)
Definition probe_loc (key : K) (t : HashTable K V) : result Z :=
  let h0 := to_size_t (hash_ key) mod capacity_at (mIndex_ t) in
  let st := init DOUBLE_HASH_MOD_VALUES prober_ h0 (capacity_at (mIndex_ t)) key in
  match next prober_ st with
  | Throws e => Throws e
  | Returns (loc, st') =>
    fst (probe_loop (probe_fuel (capacity_at (mIndex_ t))) (table_ t) key st' loc 0)
  end.

(** The entry of a slot that is occupied and not tombstoned. *)
Definition live (slot : option (HashItem K V)) : option (K * V) :=
  match slot with
  | Some hi => if deleted hi then None else Some (item hi)
  | None => None
  end.

(** The live entries in slot order. *)
Definition live_items (tbl : list (option (HashItem K V))) : list (K * V) :=
  omap live tbl.

(** The number of non-null slots. *)
Definition occupied (tbl : list (option (HashItem K V))) : nat :=
  length (omap id tbl).

(** No slot holds a tombstone. *)
Definition no_tombstone (tbl : list (option (HashItem K V))) : Prop :=
  ∀ i hi, tbl !! i = Some (Some hi) → deleted hi = false.

Context `{Countable K}.

(** The finite map a table stands for. *)
Definition abs (t : HashTable K V) : gmap K V := list_to_map (live_items (table_ t)).

(** What an operation does to the map. *)
Definition abs_op (m : gmap K V) (o : Op) : gmap K V :=
  match o with
  | OpInsert k v => <[k:=v]> m
  | OpRemove k => delete k m
  end.

(** The vector has the length of the current rung of the ladder. *)
Definition well_sized (t : HashTable K V) : Prop :=
  0 ≤ mIndex_ t < capCount ∧
  length (table_ t) = Z.to_nat (capacity_at (mIndex_ t)).

(** Every live entry sits in the slot its own probe sequence stops at. *)
Definition entries_reachable (t : HashTable K V) : Prop :=
  ∀ (i : nat) (hi : HashItem K V),
    table_ t !! i = Some (Some hi) → deleted hi = false →
    probe_loc (fst (item hi)) t = Returns (Z.of_nat i).

(** The representation invariant: size, reachability, and the two
    counters count what their comments say. *)
Record Inv (t : HashTable K V) : Prop := mkInv {
  inv_sized : well_sized t;
  inv_reach : entries_reachable t;
  inv_count : count_ t = Z.of_nat (base.size (abs t));
  inv_used : used_ t = Z.of_nat (occupied (table_ t))
}.

(** The states the public interface can produce from a fresh table. *)
Definition reachable (t : HashTable K V) : Prop :=
  ∃ (alpha : Q) (ops : list Op), run ops (HashTable_new alpha) = Ret tt t.

(** [usedCount / capacity < maxLoadFactor] as the code decides it: the
    test [double(used_) / table_.size() >= resizeAlpha_] is false. *)
Definition load_below (t : HashTable K V) : Prop :=
  load_reached (used_ t) (Z.of_nat (length (table_ t))) (resizeAlpha_ t) = false.
End HashTable.
End Ht.

(** ** Concrete instances

    Keys and values are integers, the primary hash is the identity (what
    [std::hash<int>] is on the common implementations), [KEqual] is
    [std::equal_to<int>], and the prober is [LinearProber<int>]. *)

Module Examples.

Definition hash_id (k : Z) : Z := k.

Abbreviation ht_new := (Ht.HashTable_new (K := Z) (V := Z)).
Abbreviation ht_insert := (Ht.insert hash_id Z.eqb LinearProber (V := Z)).
Abbreviation ht_remove := (Ht.remove hash_id Z.eqb LinearProber (V := Z)).
Abbreviation ht_find := (Ht.find hash_id Z.eqb LinearProber (V := Z)).
Abbreviation ht_run := (Ht.run hash_id Z.eqb LinearProber (V := Z)).

Abbreviation p0_new := (Part000.HashTable_new (K := Z) (V := Z)).
Abbreviation p0_insert := (Part000.insert hash_id Z.eqb LinearProber (V := Z)).

(** Keys 0, 11 and 22 collide in slot 0 of the first rung. *)
Definition colliding_ops : list (Ht.Op (K := Z) (V := Z)) :=
  [Ht.OpInsert 0 1; Ht.OpInsert 11 2; Ht.OpInsert 22 3; Ht.OpRemove 11].

(** The table after [colliding_ops] with the default threshold 0.4: slot 0
    holds key 0, slot 1 the tombstone of key 11, slot 2 key 22. *)
Definition tombstone_table : HashTable Z Z :=
  Eval vm_compute in state_of (ht_run colliding_ops (ht_new (2 # 5))).

(** [tombstone_table] after a growth. *)
Definition grown_table : HashTable Z Z :=
  Eval vm_compute in
    state_of (Ht.resize hash_id Z.eqb LinearProber tombstone_table).

(** [tombstone_table] after [insert((11, 7))], the key removed before. *)
Definition reinserted_table : HashTable Z Z :=
  Eval vm_compute in state_of (ht_insert (11, 7) tombstone_table).

(** A fresh table with the threshold 1/2 after [insert((5, 5))]. *)
Definition half_table : HashTable Z Z :=
  Eval vm_compute in state_of (ht_insert (5, 5) (ht_new (1 # 2))).

(** The [double] nearest 1/23, which is 1566469435607129 / 2^55: the
    quotient [double(1) / 23] as the machine computes it. *)
Definition one_23rd : Q := 1566469435607129 # 36028797018963968.

(** A fresh table with the threshold [one_23rd] after one [insert]. *)
Definition one_23rd_table : HashTable Z Z :=
  Eval vm_compute in state_of (ht_insert (0, 0) (ht_new one_23rd)).

(** The twelve entries (0,0) ... (11,11). *)
Definition twelve_entries : list (Z * Z) :=
  (λ i : nat, (Z.of_nat i, Z.of_nat i)) <$> seq 0 12.

(** The five entries with keys 0, 11, 22, 33, 44. *)
Definition five_entries : list (Z * Z) :=
  [(0, 1); (11, 2); (22, 3); (33, 4); (44, 5)].

Definition tombstone : HashItem Z Z := mkHashItem (0, 0) true.

(** A table on the last rung whose slots are all in use but one, with the
    threshold 1: what insert/remove cycles leave behind. *)
Definition full_last_rung : HashTable Z Z :=
  {| table_ := replicate (Z.to_nat 1685759166) (Some tombstone) ++ [None];
     resizeAlpha_ := 1; totalProbes_ := 0;
     mIndex_ := 27; count_ := 0; used_ := 1685759166 |}.

(** A threshold below 1/1685759167: with it the test at the head of
    [insert] fires on every rung, whatever the table holds. *)
Definition tiny_alpha : Q := 1 # 2000000000.

(** The empty table on rung [j] after [n] probes. *)
Definition empty_rung (j n : Z) : HashTable Z Z :=
  {| table_ := replicate (Z.to_nat (Ht.capacity_at j)) None;
     resizeAlpha_ := tiny_alpha; totalProbes_ := n;
     mIndex_ := j; count_ := 0; used_ := 0 |}.

(** The table on rung [j] that holds the single item [hi] in slot 0. *)
Definition single_item (hi : HashItem Z Z) (j n : Z) : HashTable Z Z :=
  {| table_ := Some hi :: replicate (Z.to_nat (Ht.capacity_at j - 1)) None;
     resizeAlpha_ := tiny_alpha; totalProbes_ := n;
     mIndex_ := j; count_ := if deleted hi then 0 else 1; used_ := 1 |}.

(** [insert(0,0)], [remove(0)], and thirteen more [insert(0,0)]. *)
Definition climbing_ops : list (Ht.Op (K := Z) (V := Z)) :=
  [Ht.OpInsert 0 0; Ht.OpRemove 0; Ht.OpInsert 0 0] ++ replicate 12 (Ht.OpInsert 0 0).

(** Where [climbing_ops] leave a fresh table with the threshold
    [tiny_alpha]: on the last rung but one, holding the entry (0, 0). *)
Definition single_entry_rung26 : HashTable Z Z :=
  single_item (mkHashItem (0, 0) false) 26 27.

(** What the nested growth leaves behind when it fails: the empty vector of
    the last rung. *)
Definition emptied_last_rung : HashTable Z Z := empty_rung 27 27.

End Examples.

(** ** src/hash.h

    A [std::string] is the list of its characters; [char] is [ascii], and
    [static_cast<unsigned char>(c)] its code.  [unsigned long long] and
    [HASH_INDEX_T] arithmetic wraps at 2^64. *)

Module MyStringHash.

(** [<cctype>] in the default "C" locale, on the code of an
    [unsigned char]. *)
Definition isupper (uc : Z) : bool := (65 <=? uc) && (uc <=? 90).
Definition islower (uc : Z) : bool := (97 <=? uc) && (uc <=? 122).
Definition isalpha (uc : Z) : bool := isupper uc || islower uc.
Definition isdigit (uc : Z) : bool := (48 <=? uc) && (uc <=? 57).
Definition tolower (uc : Z) : Z := if isupper uc then uc + 32 else uc.

Definition code (c : ascii) : Z := Z.of_N (N_of_ascii c).

(** [letterDigitToNumber]: a-z to 0-25 and 0-9 to 26-35, case-insensitive;
    0 for every other character. *)
Definition letterDigitToNumber (c : ascii) : Z :=
  let uc := code c in
  if isalpha uc then to_size_t (tolower uc - 97)
  else if isdigit uc then to_size_t (26 + (uc - 48))
  else 0.

(** [HASH_INDEX_T rValues[5]] as the member initialiser sets it. *)
Definition preset_rValues : list Z :=
  [983132572; 1468777056; 552714139; 984953261; 261934300].

(** [generateRValues]: [rValues[i] = generator()] for [i = 0 .. 4], with
    [generator i] the output number [i] of the [std::mt19937] the function
    seeds from the clock. *)
Definition generateRValues (generator : nat → Z) : list Z :=
  (λ i : nat, to_size_t (generator i)) <$> seq 0 5.

(** The constructor [MyStringHash(bool debug = true)]; the value is the
    array [rValues] of the object. *)
Definition MyStringHash_new (debug : bool) (generator : nat → Z) : list Z :=
  if debug then preset_rValues else generateRValues generator.

(** [k[i]] for [i] inside the string. *)
Definition char_at (k : list ascii) (i : Z) : ascii :=
  default "000"%char (k !! Z.to_nat i).

(** [for (long long i = start; i < end; ++i) val = val * 36 + letterDigitToNumber(k[i]);]
    from [val = 0]. *)
Definition window (k : list ascii) (start end_ : Z) : Z :=
  fold_left (λ val i, add64 (mul64 val 36) (letterDigitToNumber (char_at k i)))
            (seqZ start (end_ - start)) 0.

(** The body of the loop over [group]: the value stored into
    [w[4 - group]].  [len] is below 2^63, so the [long long] arithmetic on
    [end] and [start] is exact. *)
Definition chunk (k : list ascii) (group : Z) : Z :=
  let len := Z.of_nat (length k) in
  let end_ := len - group * 6 in
  let start := end_ - 6 in
  if 0 <? end_ then window k (if start <? 0 then 0 else start) end_
  else 0.

(** The array [w] once the loop over [group] has run. *)
Definition words (k : list ascii) : list Z :=
  [chunk k 4; chunk k 3; chunk k 2; chunk k 1; chunk k 0].

(** [for (int i = 0; i < 5; ++i) h += (unsigned long long)rValues[i] * w[i];]
    from [h = 0]. *)
Definition combine (rValues w : list Z) : Z :=
  fold_left (λ h (i : nat), add64 h (mul64 (nth i rValues 0) (nth i w 0))) (seq 0 5) 0.

(** [operator()] of an object whose array is [rValues]. *)
Definition call (rValues : list Z) (k : list ascii) : Z :=
  combine rValues (words k).

(** The digits of a string: what [letterDigitToNumber] makes of each
    character. *)
Definition digits (k : list ascii) : list Z := letterDigitToNumber <$> k.

(** The loop body [val = val * 36 + d] run over a list of digits from
    [val = 0], in 64-bit arithmetic, and the same in exact arithmetic. *)
Definition horner (ds : list Z) : Z :=
  fold_left (λ val d, add64 (mul64 val 36) d) ds 0.
Definition base36 (ds : list Z) : Z :=
  fold_left (λ val d, val * 36 + d) ds 0.

(** The last [n] elements of a list. *)
Definition last_n {A : Type} (n : nat) (l : list A) : list A :=
  drop (length l - n) l.

(** The lower-case form of a character and of a string. *)
Definition lower (c : ascii) : ascii := ascii_of_N (Z.to_N (tolower (code c))).
Definition lower_string (k : list ascii) : list ascii := lower <$> k.

End MyStringHash.

(** ** src/boggle.cpp

    [std::set<std::string>] is a finite set of character lists, the board
    a list of rows.  [unsigned] values are integers with their wrap at
    2^32 written out. *)

Module Boggle.

Abbreviation str := (list ascii).

Definition UINT_MODULUS : Z := 2 ^ 32.
Definition to_unsigned (x : Z) : Z := x mod UINT_MODULUS.

(** How a function of this file ends. *)
Inductive Failure : Type :=
| InvalidArgument   (* std::invalid_argument thrown by parseDict *)
| Undefined         (* vector subscript outside [0, size): undefined behaviour *)
| Fuel.             (* artefact of the embedding: recursion bound reached *)

Inductive Outcome (A : Type) : Type :=
| Done (a : A)
| Fails (f : Failure).
Arguments Done {A} a.
Arguments Fails {A} f.

(** [board[r][c]] *)
Definition cell (board : list (list ascii)) (r c : Z) : option ascii :=
  match board !! Z.to_nat r with
  | Some row => row !! Z.to_nat c
  | None => None
  end.

(** [boggleHelper]; [found] is the set [result] the function updates, which
    is returned beside the [bool].  [r + dr] and [c + dc] are [unsigned]
    sums.  [fuel] bounds the recursion depth. *)
Fixpoint boggleHelper (fuel : nat) (dict prefix : gset str)
    (board : list (list ascii)) (word : str) (found : gset str)
    (r c dr dc : Z) : Outcome (bool * gset str) :=
  match fuel with
  | O => Fails Fuel
  | S fuel' =>
    let n := to_unsigned (Z.of_nat (length board)) in
    if (n <=? r) || (n <=? c) then Done (false, found)
    else
      match cell board r c with
      | None => Fails Undefined
      | Some ch =>
        let word := word ++ [ch] in
        let deeper :=
          if bool_decide (word ∈ prefix)
          then boggleHelper fuel' dict prefix board word found
                 (to_unsigned (r + dr)) (to_unsigned (c + dc)) dr dc
          else Done (false, found) in
        match deeper with
        | Fails f => Fails f
        | Done (foundLonger, found') =>
          if negb foundLonger && bool_decide (word ∈ dict)
          then Done (true, {[word]} ∪ found')
          else Done (foundLonger, found')
        end
      end
  end.

(** The three calls [boggle] makes for the cell [(i, j)]; the [bool]s are
    dropped. *)
Definition boggle_cell (fuel : nat) (dict prefix : gset str)
    (board : list (list ascii)) (i j : Z) (found : gset str) : Outcome (gset str) :=
  match boggleHelper fuel dict prefix board [] found i j 0 1 with
  | Fails f => Fails f
  | Done (_, found1) =>
    match boggleHelper fuel dict prefix board [] found1 i j 1 0 with
    | Fails f => Fails f
    | Done (_, found2) =>
      match boggleHelper fuel dict prefix board [] found2 i j 1 1 with
      | Fails f => Fails f
      | Done (_, found3) => Done found3
      end
    end
  end.

(** [for (x : xs) body(x)] on the set under construction; a failure leaves
    the loop. *)
Fixpoint for_each (xs : list Z) (body : Z → gset str → Outcome (gset str))
    (found : gset str) : Outcome (gset str) :=
  match xs with
  | [] => Done found
  | x :: xs' =>
    match body x found with
    | Fails f => Fails f
    | Done found' => for_each xs' body found'
    end
  end.

(** [boggle].  A call of [boggleHelper] from a cell of the board moves down
    or right at every level and ends past the edge, so it nests at most
    [n + 1] deep. *)
Definition boggle (dict prefix : gset str) (board : list (list ascii))
    : Outcome (gset str) :=
  let n := to_unsigned (Z.of_nat (length board)) in
  for_each (seqZ 0 n)
    (λ i, for_each (seqZ 0 n)
            (λ j, boggle_cell (S (Z.to_nat n)) dict prefix board i j))
    ∅.

(** [for (size_t i = word.size(); i > 1; --i) prefix.insert(word.substr(0, i-1));]
    the strings inserted, in order: the prefixes of length
    [size - 1] down to 1. *)
Definition proper_prefixes (word : str) : list str :=
  (λ i : nat, take i word) <$> reverse (seq 1 (length word - 1)).

(** The loop [while (dictfs >> word) { ... }] over the words the stream
    yields. *)
Fixpoint read_words (ws : list str) (dict prefix : gset str) : gset str * gset str :=
  match ws with
  | [] => (dict, prefix)
  | word :: ws' =>
    read_words ws' ({[word]} ∪ dict)
      (foldl (λ acc p, {[p]} ∪ acc) prefix (proper_prefixes word))
  end.

(** [parseDict]; [file] is what opening [fname] gives: [None] when the
    stream fails, else the whitespace-separated words it holds. *)
Definition parseDict (file : option (list str)) : Outcome (gset str * gset str) :=
  match file with
  | None => Fails InvalidArgument
  | Some ws =>
    let '(dict, prefix) := read_words ws ∅ ∅ in
    Done (dict, {[ [] ]} ∪ prefix)
  end.

(** [int freq[26]]: the scrabble letter frequencies. *)
Definition freq : list nat :=
  [9; 2; 2; 4; 12; 2; 3; 2; 9; 1; 1; 4; 2; 6; 8; 2; 1; 6; 4; 6; 4; 2; 2; 1; 2; 1]%nat.

(** [for (char c = 'A'; c <= 'Z'; c++) for (int i = 0; i < freq[c-'A']; i++) letters.push_back(c);] *)
Definition letters : list ascii :=
  mjoin (imap (λ (i : nat) (f : nat), replicate f (ascii_of_nat (65 + i))) freq).

(** [genBoard]; [draws k] is the output number [k] of the [std::mt19937]
    seeded with [seed], and [n] the [unsigned] size. *)
Definition genBoard (draws : nat → Z) (n : nat) : list (list ascii) :=
  (λ i : nat,
     (λ j : nat,
        default "000"%char
          (letters !! Z.to_nat (draws (i * n + j)%nat mod Z.of_nat (length letters))))
     <$> seq 0 n)
  <$> seq 0 n.

(** *** Vocabulary of the properties *)

(** The cell [(r, c)] lies on the [n] by [n] board, [n] the number of
    rows. *)
Definition inside (board : list (list ascii)) (r c : Z) : bool :=
  (0 <=? r) && (r <? Z.of_nat (length board)) &&
  (0 <=? c) && (c <? Z.of_nat (length board)).

(** The letters of the [len] cells from [(r, c)] in steps of [(dr, dc)];
    [None] when the walk leaves the board. *)
Fixpoint ray (board : list (list ascii)) (r c dr dc : Z) (len : nat) : option str :=
  match len with
  | O => Some []
  | S len' =>
    if inside board r c then
      match cell board r c, ray board (r + dr) (c + dc) dr dc len' with
      | Some ch, Some rest => Some (ch :: rest)
      | _, _ => None
      end
    else None
  end.

(** The directions [boggle] reads words in: right, down, and down-right. *)
Definition directions : list (Z * Z) := [(0, 1); (1, 0); (1, 1)].

(** A board with [n] rows of at least [n] cells, [n] an [unsigned]. *)
Definition square (board : list (list ascii)) : Prop :=
  Z.of_nat (length board) < UINT_MODULUS ∧
  Forall (λ row : list ascii, length board ≤ length row)%nat board.

(** [word ++ tail] is a word of [dict] the walk from [(r, c)] spells after
    [word], and every string on the way to it, [word] extended by a proper
    non-empty part of [tail], is in [prefix]. *)
Definition reach (dict prefix : gset str) (board : list (list ascii))
    (word : str) (r c dr dc : Z) (tail : str) : Prop :=
  tail ≠ [] ∧ ray board r c dr dc (length tail) = Some tail ∧
  (∀ l : nat, (1 ≤ l < length tail)%nat → word ++ take l tail ∈ prefix) ∧
  word ++ tail ∈ dict.

(** What a call of [boggleHelper] has done when it returns [b] and leaves
    the set [found']: it has added the longest word it can reach, or
    nothing when it can reach none. *)
Definition helper_post (dict prefix : gset str) (board : list (list ascii))
    (word : str) (found : gset str) (r c dr dc : Z)
    (b : bool) (found' : gset str) : Prop :=
  if b then
    ∃ tail : str,
      reach dict prefix board word r c dr dc tail ∧
      found' = {[word ++ tail]} ∪ found ∧
      ∀ tail' : str, reach dict prefix board word r c dr dc tail' →
                     (length tail' ≤ length tail)%nat
  else found' = found ∧ ∀ tail : str, ¬ reach dict prefix board word r c dr dc tail.

(** [w] is the longest word [boggleHelper] can reach from the cell
    [(i, j)] in the direction [(dr, dc)]. *)
Definition longest_read (dict prefix : gset str) (board : list (list ascii))
    (i j dr dc : Z) (w : str) : Prop :=
  reach dict prefix board [] i j dr dc w ∧
  ∀ w' : str, reach dict prefix board [] i j dr dc w' → (length w' ≤ length w)%nat.

(** [w] is the longest word of the list [ws] that the walk from [(i, j)]
    in the direction [(dr, dc)] spells. *)
Definition longest_word (ws : list str) (board : list (list ascii))
    (i j dr dc : Z) (w : str) : Prop :=
  w ≠ [] ∧ w ∈ ws ∧ ray board i j dr dc (length w) = Some w ∧
  ∀ w' : str, w' ≠ [] → w' ∈ ws → ray board i j dr dc (length w') = Some w' →
              (length w' ≤ length w)%nat.

End Boggle.

(** ** Probe sequences *)

Section ProbeSequence.
Context {K : Type}.

(** The distance between consecutive probes: [dhstep_] for
    [DoubleHashProber], 1 for [LinearProber]. *)
Definition stride (P : ProberKind K) (st : ProberState) : Z :=
  match P with
  | DoubleHashProber _ => dhstep_ st
  | _ => 1
  end.

(** The slot [next] returns at its call number [j], counted from 0, of a
    prober initialised as [st]: [(start_ + j * stride) % m_]. *)
Definition site (P : ProberKind K) (st : ProberState) (j : Z) : Z :=
  (start_ st + j * stride P st) mod m_ st.

(** Every slot of the table is the site of some call before the prober
    signals exhaustion. *)
Definition covers (P : ProberKind K) (st : ProberState) : Prop :=
  ∀ L : Z, 0 ≤ L < m_ st → ∃ j : Z, 0 ≤ j < m_ st ∧ site P st j = L.
End ProbeSequence.

(** ** Comparing the two headers *)

(** Two objects that differ at most in [totalProbes_]. *)
Definition same_but_probes {K V : Type} (t1 t2 : HashTable K V) : Prop :=
  set_totalProbes 0 t1 = set_totalProbes 0 t2.

(** Two outcomes of a member function that agree: the same value or the
    same exception, and objects that differ at most in [totalProbes_]. *)
Definition agree {K V A : Type} (r1 r2 : Res K V A) : Prop :=
  match r1, r2 with
  | Ret a1 t1, Ret a2 t2 => a1 = a2 ∧ same_but_probes t1 t2
  | Throw e1 t1, Throw e2 t2 => e1 = e2 ∧ same_but_probes t1 t2
  | _, _ => False
  end.

(** The rung on which [DoubleHashProber::init] of the two headers picks
    different moduli: for the capacity 421439783 ht.h picks 421439749 from
    [DOUBLE_HASH_MOD_VALUES], while [modVals] of part_000 has 421439783 in
    its place, which is not below the capacity, so that 210719881 is
    picked. *)
Definition diverging_rung : Z := 25.

Section ProbeTurn.
Context {K V : Type}.
Variable kequal_ : K → K → bool.
Variable prober_ : ProberKind K.

(** A call of [next] and [++totalProbes_], followed by the loop of ht.h's
    [probe]: what that loop does from the end of one turn on. *)
Definition turn (fuel : nat) (tbl : list (option (HashItem K V))) (key : K)
    (st : ProberState) (total : Z) : result Z * Z :=
  match next prober_ st with
  | Throws e => (Throws e, total)
  | Returns (loc, st') => Ht.probe_loop kequal_ prober_ fuel tbl key st' loc (add64 total 1)
  end.
End ProbeTurn.

(** ** Trial division, to check the capacity ladder *)

(** No odd [d' ≥ d] with [d' * d' ≤ n] divides [n], for [d] odd; [fuel]
    bounds the search. *)
Fixpoint no_odd_divisor (fuel : nat) (d n : Z) : bool :=
  match fuel with
  | O => false
  | S fuel' =>
    if n <? d * d then true
    else if n mod d =? 0 then false
    else no_odd_divisor fuel' (d + 2) n
  end.

Definition is_prime (n : Z) : bool :=
  (2 <? n) && negb (n mod 2 =? 0) && no_odd_divisor (S (Z.to_nat (Z.sqrt n))) 3 n.

(** The index of the one rung of [CAPACITIES] that is not a prime:
    105359969 = 11 * 13 * 739 * 997. *)
Definition composite_rung : Z := 23.

(** ** Concrete instances for hash.h and boggle.cpp *)

Module WordExamples.

(** The board
<<
      c a t
      a t e
      r e d
>> *)
Definition board3 : list (list ascii) :=
  [["c"; "a"; "t"]; ["a"; "t"; "e"]; ["r"; "e"; "d"]]%char.

(** The words of a small dictionary file. *)
Definition words3 : list (list ascii) :=
  [["c"; "a"; "t"]; ["c"; "a"; "r"]; ["a"; "t"]; ["a"; "t"; "e"]; ["r"; "e"; "d"];
   ["t"; "e"; "d"]; ["d"; "o"; "g"]]%char.

(** What [parseDict] makes of [words3]. *)
Definition dict3 : gset (list ascii) :=
  match Boggle.parseDict (Some words3) with
  | Boggle.Done (d, _) => d
  | Boggle.Fails _ => ∅
  end.

Definition prefix3 : gset (list ascii) :=
  match Boggle.parseDict (Some words3) with
  | Boggle.Done (_, p) => p
  | Boggle.Fails _ => ∅
  end.

(** What [boggle] returns on [board3] with these sets. *)
Definition found3 : gset (list ascii) :=
  match Boggle.boggle dict3 prefix3 board3 with
  | Boggle.Done res => res
  | Boggle.Fails _ => ∅
  end.

(** A generator that draws 0, 7, 14, ... *)
Definition draws7 (k : nat) : Z := Z.of_nat k * 7.

(** A key whose second hash makes the double-hash step 997 on the rung of
    capacity 105359969. *)
Definition key997 : Z := 105359939 - 997.

End WordExamples.


(** * Facts about the probers *)

Lemma to_size_t_small (x : Z) : 0 ≤ x < SIZE_T_MODULUS → to_size_t x = x.
Proof. intros Hx. unfold to_size_t. by apply Z.mod_small. Qed.

Lemma to_size_t_range (x : Z) : 0 ≤ to_size_t x < SIZE_T_MODULUS.
Proof. unfold to_size_t, SIZE_T_MODULUS. apply Z.mod_pos_bound. lia. Qed.

Lemma npos_value : npos = 18446744073709551615.
Proof. reflexivity. Qed.

Section ProberFacts.
Context {K : Type}.
Implicit Types (P : ProberKind K) (st : ProberState).

(** The loop of [DoubleHashProber::init] over an ascending table returns
    the last entry below [m], provided the scan starts from a value that is
    itself below [m] and not above the entries still to come. *)
Lemma pick_mod_spec (vals : list Z) (m cur : Z) :
  StronglySorted Z.lt vals → Forall (λ v, cur ≤ v) vals → cur < m →
  let r := pick_mod vals m cur in
  r < m ∧ cur ≤ r ∧ (r = cur ∨ r ∈ vals) ∧ ∀ v, v ∈ vals → v < m → v ≤ r.
Proof.
  revert cur. induction vals as [|v vals IH]; intros cur Hs Hall Hcur; simpl.
  - repeat split; [lia.. | by left | intros v Hv; by apply elem_of_nil in Hv].
  - apply StronglySorted_inv in Hs as [Hs Hv].
    apply Forall_cons in Hall as [Hcv Hall].
    destruct (Z.ltb_spec v m) as [Hlt|Hge].
    + destruct (IH v Hs) as (Hr1 & Hr2 & Hr3 & Hr4); [|done|].
      { eapply Forall_impl; [exact Hv|]. simpl. lia. }
      repeat split; [done | lia | |].
      * right. destruct Hr3 as [->|Hin]; [left | by right].
      * intros w Hw Hwm. apply elem_of_cons in Hw as [->|Hw]; [done | by apply Hr4].
    + repeat split; [done | lia | by left |].
      intros w Hw Hwm. apply elem_of_cons in Hw as [->|Hw]; [lia|].
      rewrite Forall_forall in Hv. specialize (Hv w Hw). lia.
Qed.

Lemma mod_values_sorted : StronglySorted Z.lt Ht.DOUBLE_HASH_MOD_VALUES.
Proof.
  apply Sorted_StronglySorted; [intros x y z; lia|].
  unfold Ht.DOUBLE_HASH_MOD_VALUES. repeat (constructor; [|try constructor; lia]). constructor.
Qed.

Lemma mod_values_range :
  Forall (λ v, 7 ≤ v < 2 ^ 31) Ht.DOUBLE_HASH_MOD_VALUES.
Proof. unfold Ht.DOUBLE_HASH_MOD_VALUES. repeat (constructor; [lia|]). constructor. Qed.

Lemma capacities_range : Forall (λ c, 11 ≤ c < 2 ^ 31) Ht.CAPACITIES.
Proof. unfold Ht.CAPACITIES. repeat (constructor; [lia|]). constructor. Qed.

(** C6 (double-hash stride): for a capacity [c] of the ladder and any key
    [k], [DoubleHashProber::init] computes its step from the largest entry
    [m] of the modulus table that is below [c], as [m - h2(k) mod m]; the
    step lies in [1, m] and is not a multiple of [c]. *)
Theorem double_hash_init_step (h2 : K → Z) (start c : Z) (k : K) :
  c ∈ Ht.CAPACITIES →
  let st := init Ht.DOUBLE_HASH_MOD_VALUES (DoubleHashProber h2) start c k in
  ∃ m : Z,
    m ∈ Ht.DOUBLE_HASH_MOD_VALUES ∧ m < c ∧
    (∀ m', m' ∈ Ht.DOUBLE_HASH_MOD_VALUES → m' < c → m' ≤ m) ∧
    dhstep_ st = m - to_size_t (h2 k) mod m ∧
    1 ≤ dhstep_ st ≤ m ∧ dhstep_ st mod c ≠ 0.
Proof.
  intros Hc st.
  pose proof capacities_range as Hcap. rewrite Forall_forall in Hcap.
  specialize (Hcap c Hc). simpl in Hcap.
  pose proof mod_values_range as Hrange. rewrite Forall_forall in Hrange.
  destruct (pick_mod_spec Ht.DOUBLE_HASH_MOD_VALUES c 7) as (Hr1 & Hr2 & Hr3 & Hr4).
  { apply mod_values_sorted. }
  { eapply Forall_impl; [apply mod_values_range|]. simpl. lia. }
  { lia. }
  set (m := pick_mod Ht.DOUBLE_HASH_MOD_VALUES c 7) in *.
  assert (Hm : m ∈ Ht.DOUBLE_HASH_MOD_VALUES).
  { destruct Hr3 as [->|]; [|done]. unfold Ht.DOUBLE_HASH_MOD_VALUES. by left. }
  specialize (Hrange m Hm). simpl in Hrange.
  assert (Hrem : 0 ≤ to_size_t (h2 k) mod m < m) by (apply Z.mod_pos_bound; lia).
  assert (Hstep : dhstep_ st = m - to_size_t (h2 k) mod m).
  { subst st. simpl. fold m. unfold sub64. apply to_size_t_small.
    unfold SIZE_T_MODULUS. lia. }
  exists m. repeat split; try done; try lia.
  rewrite Hstep, Z.mod_small; lia.
Qed.

(** C8 (prober misuse), amended: [next] of the base prober throws; [next]
    of a linear or double-hash prober that has used up its [m_] probes
    returns [npos] again and leaves the prober as it is. *)
Theorem next_misuse P st :
  next (KeyType:=K) BaseProber st = Throws ProberMisuse ∧
  (P ≠ BaseProber → m_ st ≤ numProbes_ st → next P st = Returns (npos, st)).
Proof.
  split; [done|]. intros HP Hex.
  destruct P as [| |h2]; [done| |]; simpl;
    unfold LinearProber_next, DoubleHashProber_next;
    by rewrite (proj2 (Z.leb_le _ _) Hex).
Qed.
End ProberFacts.

Lemma double_hash_init_step_witness :
  ∃ m : Z, m ∈ Ht.DOUBLE_HASH_MOD_VALUES ∧ m < 23 ∧
    (∀ m', m' ∈ Ht.DOUBLE_HASH_MOD_VALUES → m' < 23 → m' ≤ m) ∧
    dhstep_ (init Ht.DOUBLE_HASH_MOD_VALUES (DoubleHashProber (λ x : Z, x)) 5 23 40)
      = m - to_size_t 40 mod m ∧
    1 ≤ dhstep_ (init Ht.DOUBLE_HASH_MOD_VALUES (DoubleHashProber (λ x : Z, x)) 5 23 40) ≤ m ∧
    dhstep_ (init Ht.DOUBLE_HASH_MOD_VALUES (DoubleHashProber (λ x : Z, x)) 5 23 40) mod 23 ≠ 0.
Proof.
  apply (double_hash_init_step (λ x : Z, x) 5 23 40).
  unfold Ht.CAPACITIES. right. left.
Defined.

Lemma next_misuse_witness :
  next (KeyType:=Z) LinearProber (mkProberState 1 2 2 0) = Returns (npos, mkProberState 1 2 2 0).
Proof.
  apply (next_misuse LinearProber (mkProberState 1 2 2 0)); [done | simpl; lia].
Defined.

(** Counterexample to C8 as stated: a linear prober over two slots returns
    its two indices, then [npos], and on the call after that [npos] once
    more instead of raising an error. *)
Lemma next_after_exhaustion_no_error :
  next_n (KeyType:=Z) LinearProber 4 (init Ht.DOUBLE_HASH_MOD_VALUES LinearProber 1 2 7)
  = [Returns 1; Returns 0; Returns npos; Returns npos].
Proof. reflexivity. Qed.


(** * Rounding to [double] *)

Section DoubleFacts.
Local Open Scope Q_scope.

(** Linear arithmetic with the powers of two as unknowns. *)
Local Ltac hide_pow :=
  repeat match goal with
         | H : context [Qpower 2 ?k] |- _ =>
           let u := fresh "u" in set (u := Qpower 2 k) in *; clearbody u
         | |- context [Qpower 2 ?k] =>
           let u := fresh "u" in set (u := Qpower 2 k) in *; clearbody u
         end.
Local Ltac plra := hide_pow; lra.

Lemma pow2_pos (k : Z) : 0 < 2 ^ k.
Proof. by apply Qpower_0_lt. Qed.

Lemma pow2_add (a b : Z) : 2 ^ (a + b) == 2 ^ a * 2 ^ b.
Proof. by apply Qpower_plus. Qed.

Lemma pow2_succ (a : Z) : 2 ^ (a + 1) == 2 * 2 ^ a.
Proof. rewrite pow2_add. change (2 ^ 1) with 2. ring. Qed.

Lemma pow2_le (a b : Z) : (a ≤ b)%Z → 2 ^ a <= 2 ^ b.
Proof. intros Hab. apply Qpower_le_compat_l; [done | by apply Qle_bool_imp_le]. Qed.

Lemma pow2_cancel (a : Z) : 2 ^ a * 2 ^ (- a) == 1.
Proof. rewrite <- pow2_add, Z.add_opp_diag_r. reflexivity. Qed.

Lemma pow2_inject (a : Z) : (0 ≤ a)%Z → inject_Z (2 ^ a) == 2 ^ a.
Proof. intros Ha. by rewrite Zpower_Qpower. Qed.

(** If [2^a <= x < 2^(b+1)] then [a <= b]. *)
Lemma pow2_between (a b : Z) (x : Q) : 2 ^ a <= x → x < 2 ^ (b + 1) → (a ≤ b)%Z.
Proof.
  intros Hlo Hhi. destruct (Z_le_gt_dec a b) as [|Hgt]; [done|].
  pose proof (pow2_le (b + 1) a ltac:(lia)). exfalso. plra.
Qed.

(** ** [binade] *)

Lemma Q_as_fraction (x : Q) : x == inject_Z (Qnum x) / inject_Z (Z.pos (Qden x)).
Proof. destruct x as [n d]. simpl. rewrite <- Qmake_Qdiv. reflexivity. Qed.

Lemma log2_inject (p : Z) :
  (0 < p)%Z → 2 ^ Z.log2 p <= inject_Z p ∧ inject_Z p < 2 ^ (Z.log2 p + 1).
Proof.
  intros Hp. destruct (Z.log2_spec p Hp) as [Hlo Hhi].
  pose proof (Z.log2_nonneg p) as Hnn.
  rewrite <- !pow2_inject by lia. rewrite <- Zle_Qle, <- Zlt_Qlt.
  replace (Z.log2 p + 1)%Z with (Z.succ (Z.log2 p)) by lia. done.
Qed.

Lemma binade_spec (x : Q) :
  0 < x → 2 ^ binade x <= x ∧ x < 2 ^ (binade x + 1).
Proof.
  intros Hx. unfold binade.
  set (p := Qnum x). set (q := Z.pos (Qden x)).
  assert (Hp : (0 < p)%Z).
  { subst p. destruct x as [n d]. unfold Qlt in Hx. simpl in *. lia. }
  destruct (log2_inject p Hp) as [Hplo Hphi].
  destruct (log2_inject q eq_refl) as [Hqlo Hqhi].
  set (a := Z.log2 p) in *. set (b := Z.log2 q) in *.
  assert (Hq : 0 < inject_Z q) by (rewrite <- (Zlt_Qlt 0); done).
  assert (Hxq : x * inject_Z q == inject_Z p).
  { rewrite (Q_as_fraction x) at 1. fold p q. field. lra. }
  destruct (Qle_bool (2 ^ (a - b)) x) eqn:Htest.
  - apply Qle_bool_iff in Htest. split; [done|].
    replace (a - b + 1)%Z with ((a + 1) + - b)%Z by lia. rewrite pow2_add.
    pose proof (pow2_cancel b) as Hc. pose proof (pow2_pos b). pose proof (pow2_pos (- b)).
    pose proof (pow2_pos (a + 1)).
    apply Qmult_lt_r with (z := 2 ^ b); [done|].
    rewrite <- Qmult_assoc, (Qmult_comm (2 ^ (- b))), Hc, Qmult_1_r.
    apply Qle_lt_trans with (y := x * inject_Z q); [apply Qmult_le_l; lra | lra].
  - assert (Hlt : x < 2 ^ (a - b)).
    { apply Qnot_le_lt. intros Hle. apply Qle_bool_iff in Hle. congruence. }
    replace (a - b - 1 + 1)%Z with (a - b)%Z by lia. split; [|done].
    replace (a - b - 1)%Z with (a + - (b + 1))%Z by lia. rewrite pow2_add.
    pose proof (pow2_cancel (b + 1)) as Hc. pose proof (pow2_pos (b + 1)).
    pose proof (pow2_pos (- (b + 1))). pose proof (pow2_pos a).
    apply Qmult_le_r with (z := 2 ^ (b + 1)); [done|].
    rewrite <- Qmult_assoc, (Qmult_comm (2 ^ (- (b + 1)))), Hc, Qmult_1_r.
    apply Qle_trans with (y := x * inject_Z q); [lra | apply Qmult_le_l; lra].
Qed.

Lemma binade_mono (x y : Q) : 0 < x → x <= y → (binade x ≤ binade y)%Z.
Proof.
  intros Hx Hxy. destruct (binade_spec x Hx) as [Hlo _].
  destruct (binade_spec y ltac:(lra)) as [_ Hhi].
  apply (pow2_between _ _ y); lra.
Qed.

Lemma binade_unique (x : Q) (e : Z) :
  2 ^ e <= x → x < 2 ^ (e + 1) → binade x = e.
Proof.
  intros Hlo Hhi. pose proof (pow2_pos e).
  destruct (binade_spec x ltac:(lra)) as [Hlo' Hhi'].
  pose proof (pow2_between _ _ _ Hlo Hhi'). pose proof (pow2_between _ _ _ Hlo' Hhi). lia.
Qed.

(** ** [nearest_even] *)

Lemma nearest_even_bounds (y : Q) :
  (Qfloor y ≤ nearest_even y ≤ Qfloor y + 1)%Z.
Proof.
  unfold nearest_even. destruct (y - inject_Z (Qfloor y) ?= 1 # 2); [|lia..].
  destruct (Z.even (Qfloor y)); lia.
Qed.

Lemma nearest_even_mono (x y : Q) : x <= y → (nearest_even x ≤ nearest_even y)%Z.
Proof.
  intros Hxy. pose proof (Qfloor_resp_le _ _ Hxy) as Hfl.
  pose proof (nearest_even_bounds x). pose proof (nearest_even_bounds y).
  destruct (Z.eq_dec (Qfloor x) (Qfloor y)) as [Heq|Hne]; [|lia].
  unfold nearest_even. rewrite <- Heq.
  destruct (Qcompare_spec (x - inject_Z (Qfloor x)) (1 # 2)) as [Hx|Hx|Hx];
    destruct (Qcompare_spec (y - inject_Z (Qfloor x)) (1 # 2)) as [Hy|Hy|Hy];
    try lia; try (exfalso; lra); destruct (Z.even (Qfloor x)); lia.
Qed.

Lemma nearest_even_Z (z : Z) : nearest_even (inject_Z z) = z.
Proof.
  unfold nearest_even. rewrite Qfloor_Z.
  destruct (Qcompare_spec (inject_Z z - inject_Z z) (1 # 2)) as [H|H|H]; [lra | done | lra].
Qed.

(** ** [round_double] *)

Lemma round_double_0 (x : Q) : x == 0 → round_double x = 0.
Proof. intros Hx. unfold round_double. apply Qeq_bool_iff in Hx. by rewrite Hx. Qed.

Lemma round_double_pos (x : Q) :
  0 < x →
  round_double x = inject_Z (nearest_even (x * 2 ^ (52 - binade x))) * 2 ^ (binade x - 52).
Proof.
  intros Hx. unfold round_double. destruct (Qeq_bool x 0) eqn:H0; [|done].
  apply Qeq_bool_iff in H0. lra.
Qed.

(** The scaled number has 53 bits before the point. *)
Lemma scaled_range (x : Q) :
  0 < x → 2 ^ 52 <= x * 2 ^ (52 - binade x) ∧ x * 2 ^ (52 - binade x) < 2 ^ 53.
Proof.
  intros Hx. destruct (binade_spec x Hx) as [Hlo Hhi].
  pose proof (pow2_pos (52 - binade x)) as Hs.
  pose proof (pow2_add (binade x) (52 - binade x)) as H52.
  pose proof (pow2_add (binade x + 1) (52 - binade x)) as H53.
  replace (binade x + (52 - binade x))%Z with 52%Z in H52 by lia.
  replace (binade x + 1 + (52 - binade x))%Z with 53%Z in H53 by lia.
  rewrite H52, H53. split.
  - apply Qmult_le_r; done.
  - apply Qmult_lt_r; done.
Qed.

Lemma significand_range (x : Q) :
  0 < x →
  (2 ^ 52 ≤ nearest_even (x * 2 ^ (52 - binade x)) ≤ 2 ^ 53)%Z.
Proof.
  intros Hx. destruct (scaled_range x Hx) as [Hlo Hhi].
  set (y := x * 2 ^ (52 - binade x)) in *.
  pose proof (nearest_even_bounds y) as Hb.
  assert (H1 : (2 ^ 52 ≤ Qfloor y)%Z).
  { rewrite <- (Qfloor_Z (2 ^ 52)). apply Qfloor_resp_le.
    rewrite pow2_inject by done. done. }
  assert (H2 : (Qfloor y < 2 ^ 53)%Z).
  { rewrite Zlt_Qlt. apply Qle_lt_trans with (y := y); [apply Qfloor_le|].
    rewrite pow2_inject by done. done. }
  lia.
Qed.

(** What [round_double] returns lies in the closure of the binade of its
    argument. *)
Lemma round_double_range (x : Q) :
  0 < x → 2 ^ binade x <= round_double x ∧ round_double x <= 2 ^ (binade x + 1).
Proof.
  intros Hx. rewrite (round_double_pos x Hx).
  destruct (significand_range x Hx) as [Hlo Hhi].
  set (m := nearest_even _) in *. pose proof (pow2_pos (binade x - 52)) as Hs.
  rewrite Zle_Qle in Hlo, Hhi. rewrite pow2_inject in Hlo, Hhi by done.
  pose proof (pow2_add 52 (binade x - 52)) as H52.
  pose proof (pow2_add 53 (binade x - 52)) as H53.
  replace (52 + (binade x - 52))%Z with (binade x) in H52 by lia.
  replace (53 + (binade x - 52))%Z with (binade x + 1)%Z in H53 by lia.
  rewrite H52, H53. split; apply Qmult_le_r; done.
Qed.

(** Rounding is monotone. *)
Lemma round_double_mono (x y : Q) : 0 <= x → x <= y → round_double x <= round_double y.
Proof.
  intros Hx Hxy.
  destruct (Qlt_le_dec 0 x) as [Hpos|Hzero].
  2:{ rewrite (round_double_0 x) by lra.
      destruct (Qlt_le_dec 0 y) as [Hy|Hy].
      - destruct (round_double_range y Hy) as [Hlo _]. pose proof (pow2_pos (binade y)). lra.
      - rewrite (round_double_0 y) by lra. lra. }
  assert (Hy : 0 < y) by lra.
  pose proof (binade_mono x y Hpos Hxy) as He.
  destruct (Z.eq_dec (binade x) (binade y)) as [Heq|Hne].
  - rewrite (round_double_pos x Hpos), (round_double_pos y Hy), Heq.
    pose proof (pow2_pos (binade y - 52)). pose proof (pow2_pos (52 - binade y)).
    apply Qmult_le_r; [done|]. rewrite <- Zle_Qle.
    apply nearest_even_mono. apply Qmult_le_r; done.
  - destruct (round_double_range x Hpos) as [_ Hhi].
    destruct (round_double_range y Hy) as [Hlo _].
    pose proof (pow2_le (binade x + 1) (binade y) ltac:(lia)). lra.
Qed.

Lemma round_double_wd (x y : Q) : 0 <= x → x == y → round_double x == round_double y.
Proof.
  intros Hx Hxy. apply Qle_antisym; apply round_double_mono; lra.
Qed.

(** An integer below 2^53 is a [double]. *)
Lemma round_double_Z (n : Z) :
  (0 ≤ n < 2 ^ 53)%Z → round_double (inject_Z n) == inject_Z n.
Proof.
  intros [Hlo Hhi]. destruct (Z.eq_dec n 0%Z) as [->|Hn]; [reflexivity|].
  assert (Hpos : 0 < inject_Z n) by (rewrite <- (Zlt_Qlt 0); lia).
  rewrite (round_double_pos _ Hpos).
  destruct (binade_spec _ Hpos) as [Hblo _].
  set (e := binade (inject_Z n)) in *.
  assert (He : (e ≤ 52)%Z).
  { apply (pow2_between _ _ (inject_Z n)); [done|].
    rewrite <- pow2_inject by done. rewrite <- Zlt_Qlt. done. }
  assert (Hint : inject_Z n * 2 ^ (52 - e) == inject_Z (n * 2 ^ (52 - e))).
  { rewrite inject_Z_mult, pow2_inject by lia. reflexivity. }
  assert (Hne : nearest_even (inject_Z n * 2 ^ (52 - e)) = (n * 2 ^ (52 - e))%Z).
  { apply Z.le_antisymm.
    - rewrite <- (nearest_even_Z (n * 2 ^ (52 - e))). apply nearest_even_mono. lra.
    - rewrite <- (nearest_even_Z (n * 2 ^ (52 - e))) at 1. apply nearest_even_mono. lra. }
  rewrite Hne, <- Hint, <- Qmult_assoc, <- pow2_add.
  replace (52 - e + (e - 52))%Z with 0%Z by lia. change (2 ^ 0) with 1. ring.
Qed.

(** ** The load-factor test *)

(** For operands below 2^53, which convert exactly, the test compares
    the threshold with the rounded quotient. *)
Lemma load_reached_spec (n size : Z) (alpha : Q) :
  (0 ≤ n < 2 ^ 53)%Z → (0 < size < 2 ^ 53)%Z →
  load_reached n size alpha = true ↔ alpha <= round_double (inject_Z n / inject_Z size).
Proof.
  intros Hn Hsize. unfold load_reached.
  pose proof (round_double_Z n Hn) as Hx. pose proof (round_double_Z size ltac:(lia)) as Hy.
  assert (Hs : 0 < inject_Z size) by (rewrite <- (Zlt_Qlt 0); lia).
  assert (Hn0 : 0 <= inject_Z n) by (rewrite <- (Zle_Qle 0); lia).
  destruct (Qeq_bool (round_double (inject_Z size)) 0) eqn:H0.
  { apply Qeq_bool_iff in H0. lra. }
  rewrite Qle_bool_iff.
  assert (Hq : round_double (inject_Z n) / round_double (inject_Z size)
               == inject_Z n / inject_Z size) by (rewrite Hx, Hy; reflexivity).
  assert (Hq0 : 0 <= inject_Z n / inject_Z size).
  { apply Qle_shift_div_l; [done|]. lra. }
  assert (Hq1 : 0 <= round_double (inject_Z n) / round_double (inject_Z size))
    by (rewrite Hq; done).
  rewrite (round_double_wd _ _ Hq1 Hq). reflexivity.
Qed.

(** The test is monotone in the exact quotient of its operands. *)
Lemma load_reached_mono (n1 s1 n2 s2 : Z) (alpha : Q) :
  (0 ≤ n1 < 2 ^ 53)%Z → (0 < s1 < 2 ^ 53)%Z →
  (0 ≤ n2 < 2 ^ 53)%Z → (0 < s2 < 2 ^ 53)%Z →
  (n1 * s2 ≤ n2 * s1)%Z →
  load_reached n1 s1 alpha = true → load_reached n2 s2 alpha = true.
Proof.
  intros Hn1 Hs1 Hn2 Hs2 Hle. rewrite !load_reached_spec by done.
  intros Ha. eapply Qle_trans; [exact Ha|]. apply round_double_mono.
  - apply Qle_shift_div_l; [rewrite <- (Zlt_Qlt 0); lia|].
    rewrite Qmult_0_l, <- (Zle_Qle 0). lia.
  - apply Qle_shift_div_l; [rewrite <- (Zlt_Qlt 0); lia|].
    unfold Qdiv. rewrite <- Qmult_assoc, (Qmult_comm (/ _)), Qmult_assoc.
    apply Qle_shift_div_r; [rewrite <- (Zlt_Qlt 0); lia|].
    rewrite <- !inject_Z_mult, <- Zle_Qle. lia.
Qed.

Lemma load_reached_mono_false (n1 s1 n2 s2 : Z) (alpha : Q) :
  (0 ≤ n1 < 2 ^ 53)%Z → (0 < s1 < 2 ^ 53)%Z →
  (0 ≤ n2 < 2 ^ 53)%Z → (0 < s2 < 2 ^ 53)%Z →
  (n1 * s2 ≤ n2 * s1)%Z →
  load_reached n2 s2 alpha = false → load_reached n1 s1 alpha = false.
Proof.
  intros Hn1 Hs1 Hn2 Hs2 Hle Hf. apply not_true_iff_false. intros Ht.
  apply (load_reached_mono _ _ _ _ _ Hn1 Hs1 Hn2 Hs2 Hle) in Ht. congruence.
Qed.

(** The test is false exactly for thresholds above the rounded quotient. *)
Lemma load_reached_false (n size : Z) (alpha : Q) :
  (0 ≤ n < 2 ^ 53)%Z → (0 < size < 2 ^ 53)%Z →
  load_reached n size alpha = false ↔ round_double (inject_Z n / inject_Z size) < alpha.
Proof.
  intros Hn Hsize. rewrite <- not_true_iff_false, load_reached_spec by done.
  split; [apply Qnot_le_lt | apply Qlt_not_le].
Qed.
(** For a threshold that is a [double], a test that is false bounds the
    exact quotient too. *)
Lemma load_reached_false_exact (n size : Z) (alpha : Q) :
  (0 ≤ n < 2 ^ 53)%Z → (0 < size < 2 ^ 53)%Z →
  0 <= alpha → round_double alpha == alpha →
  load_reached n size alpha = false → inject_Z n / inject_Z size < alpha.
Proof.
  intros Hn Hsize Hpos Hdouble Hfalse. apply load_reached_false in Hfalse; [|done..].
  apply Qnot_le_lt. intros Hle.
  pose proof (round_double_mono _ _ Hpos Hle) as Hmono. rewrite Hdouble in Hmono. lra.
Qed.

(** On [rounding_samples] and the thresholds that tell a quotient from its
    neighbours, the test is the one of the Standard Library's IEEE 754. *)
Lemma load_reached_ieee :
  Forall (λ '(n, size),
            Forall (λ alpha, load_reached n size alpha = ieee_load_reached n size alpha)
                   (telling_thresholds n size))
         rounding_samples.
Proof.
  apply Forall_forall. intros [n size] Hin. apply Forall_forall. intros alpha Ha.
  assert (Hall : forallb (λ '(n, size),
                   forallb (λ alpha, Bool.eqb (load_reached n size alpha)
                                              (ieee_load_reached n size alpha))
                           (telling_thresholds n size))
                 rounding_samples = true) by (vm_compute; reflexivity).
  rewrite forallb_forall in Hall. apply list_elem_of_In in Hin.
  specialize (Hall _ Hin). cbv beta iota in Hall.
  rewrite forallb_forall in Hall. apply list_elem_of_In in Ha.
  by apply Bool.eqb_prop, Hall.
Qed.
End DoubleFacts.


(** * Facts about [HashTable] of src/ht.h *)

Section ListFacts.
Context {A B : Type}.

Lemma omap_length_le (f : A → option B) (l : list A) :
  (length (omap f l) ≤ length l)%nat.
Proof. induction l as [|x l IH]; csimpl; [lia|]. destruct (f x); csimpl; lia. Qed.

(** Replacing one element changes the number of elements [omap] keeps by
    what the old and the new element contribute. *)
Lemma omap_insert_length (f : A → option B) (l : list A) (i : nat) (x y : A) :
  l !! i = Some x →
  (length (omap f (<[i:=y]> l)) + (if f x is Some _ then 1 else 0)
   = length (omap f l) + (if f y is Some _ then 1 else 0))%nat.
Proof.
  revert i. induction l as [|a l IH]; intros [|i] Hi; csimpl in *; try done.
  - injection Hi as ->. destruct (f x), (f y); csimpl; lia.
  - specialize (IH i Hi). destruct (f a); csimpl; lia.
Qed.
End ListFacts.

Section ProberLaws.
Context {K : Type}.
Implicit Types (P : ProberKind K) (st : ProberState).

(** What one call of [next] does for the two concrete probers. *)
Lemma next_lawful P st :
  P ≠ BaseProber → 0 < m_ st < 2 ^ 63 → 0 ≤ numProbes_ st →
  ∃ loc st', next P st = Returns (loc, st') ∧ m_ st' = m_ st ∧
    ((numProbes_ st < m_ st ∧ 0 ≤ loc < m_ st ∧ numProbes_ st' = numProbes_ st + 1)
     ∨ (m_ st ≤ numProbes_ st ∧ loc = npos ∧ st' = st)).
Proof.
  intros HP Hm Hn.
  assert (Hbump : numProbes_ st < m_ st → numProbes_ (bump st) = numProbes_ st + 1).
  { intros Hlt. simpl. unfold add64. apply to_size_t_small. unfold SIZE_T_MODULUS. lia. }
  destruct P as [| |h2]; [done| |]; simpl;
    unfold LinearProber_next, DoubleHashProber_next;
    destruct (Z.leb_spec (m_ st) (numProbes_ st)) as [Hge|Hlt];
    eexists _, _; (split; [reflexivity|]);
    (split; [done|]); try (right; done);
    left; (split; [done|]); (split; [apply Z.mod_pos_bound; lia | by apply Hbump]).
Qed.

(** Whatever [next] returns is a non-negative [size_t]. *)
Lemma next_nonneg P st loc st' :
  next P st = Returns (loc, st') → 0 < m_ st → 0 ≤ loc ∧ m_ st' = m_ st.
Proof.
  intros Hnext Hm.
  destruct P as [| |h2]; [done| |]; simpl in Hnext;
    unfold LinearProber_next, DoubleHashProber_next in Hnext;
    destruct (m_ st <=? numProbes_ st); injection Hnext as <- <-;
    (split; [|done]); try (rewrite npos_value; lia);
    apply Z.mod_pos_bound; lia.
Qed.
Lemma BaseProber_or_not P : P = BaseProber ∨ P ≠ BaseProber.
Proof. destruct P; [by left | by right..]. Qed.

Lemma next_Throws P st e : next P st = Throws e → e = ProberMisuse.
Proof. destruct P; simpl; congruence. Qed.
End ProberLaws.

Section HashTableFacts.
Context {K V : Type} `{Countable K}.
Variable hash_ : K → Z.
Variable kequal_ : K → K → bool.
Variable prober_ : ProberKind K.
(** [KEqual] decides equality of keys, as [std::equal_to<K>] does. *)
Hypothesis kequal_spec : ∀ a b : K, kequal_ a b = true ↔ a = b.

Implicit Types (t : HashTable K V) (tbl : list (option (HashItem K V)))
  (hi : HashItem K V) (k key : K) (v : V) (st : ProberState).

Local Abbreviation stops := (Ht.stops kequal_).
Local Abbreviation probe_loop := (Ht.probe_loop kequal_ prober_).
Local Abbreviation probe_loc := (Ht.probe_loc hash_ kequal_ prober_).
Local Abbreviation probe := (Ht.probe hash_ kequal_ prober_).
Local Abbreviation Inv := (Ht.Inv hash_ kequal_ prober_).
Local Abbreviation entries_reachable := (Ht.entries_reachable hash_ kequal_ prober_).
Local Abbreviation insert_fuel := (Ht.insert_fuel hash_ kequal_ prober_).
Local Abbreviation insert := (Ht.insert hash_ kequal_ prober_).
Local Abbreviation resize_fuel := (Ht.resize_fuel hash_ kequal_ prober_).
Local Abbreviation remove := (Ht.remove hash_ kequal_ prober_).
Local Abbreviation find := (Ht.find hash_ kequal_ prober_).
Local Abbreviation internalFind := (Ht.internalFind hash_ kequal_ prober_).
Local Abbreviation needs_resize := (Ht.needs_resize (K:=K) (V:=V)).
Local Abbreviation run := (Ht.run hash_ kequal_ prober_).
Local Abbreviation run_op := (Ht.run_op hash_ kequal_ prober_).
Local Abbreviation reachable := (Ht.reachable hash_ kequal_ prober_).
Local Abbreviation HashTable_new := (Ht.HashTable_new (K:=K) (V:=V)).

(** ** The probe loop *)

(** A slot index the loop returns holds a null pointer or a live entry with
    the probed key. *)
Lemma probe_loop_stops fuel tbl key st loc total r total' :
  probe_loop fuel tbl key st loc total = (Returns r, total') → r ≠ npos →
  ∃ slot, tbl !! Z.to_nat r = Some slot ∧ stops key slot = true.
Proof.
  revert st loc total. induction fuel as [|fuel IH]; intros st loc total Hrun Hr; simpl in Hrun.
  - done.
  - destruct (Z.eqb_spec loc npos) as [->|Hloc]; [by injection Hrun as <- _|].
    destruct (tbl !! Z.to_nat loc) as [slot|] eqn:Hslot; [|done].
    destruct (stops key slot) eqn:Hstop.
    + injection Hrun as <- _. eauto.
    + destruct (next prober_ st) as [[loc' st']|e]; [|done]. eauto.
Qed.

Lemma probe_loop_nonneg fuel tbl key st loc total r total' :
  probe_loop fuel tbl key st loc total = (Returns r, total') →
  0 < m_ st → 0 ≤ loc → 0 ≤ r.
Proof.
  revert st loc total. induction fuel as [|fuel IH]; intros st loc total Hrun Hm Hloc; simpl in Hrun.
  - done.
  - destruct (Z.eqb_spec loc npos) as [->|Hne]; [by injection Hrun as <- _|].
    destruct (tbl !! Z.to_nat loc) as [slot|]; [|done].
    destruct (stops key slot).
    + by injection Hrun as <- _.
    + destruct (next prober_ st) as [[loc' st']|e] eqn:Hnext; [|done].
      apply next_nonneg in Hnext as [? Hm']; [|done].
      eapply IH; [exact Hrun | lia | done].
Qed.

(** The index returned does not depend on the value of the counter. *)
Lemma probe_loop_fst fuel tbl key st loc total total' :
  fst (probe_loop fuel tbl key st loc total) = fst (probe_loop fuel tbl key st loc total').
Proof.
  revert st loc total total'. induction fuel as [|fuel IH]; intros st loc total total'; simpl.
  - done.
  - destruct (loc =? npos); [done|].
    destruct (tbl !! Z.to_nat loc) as [slot|]; [|done].
    destruct (stops key slot); [done|].
    destruct (next prober_ st) as [[loc' st']|e]; [|done]. apply IH.
Qed.

(** Two vectors on which the stopping test agrees slot by slot are probed
    alike. *)
Lemma probe_loop_congr fuel tbl tbl' key st loc total :
  (∀ j : nat, stops key <$> tbl' !! j = stops key <$> tbl !! j) →
  probe_loop fuel tbl' key st loc total = probe_loop fuel tbl key st loc total.
Proof.
  intros Hsame. revert st loc total.
  induction fuel as [|fuel IH]; intros st loc total; simpl; [done|].
  destruct (loc =? npos); [done|].
  specialize (Hsame (Z.to_nat loc)).
  destruct (tbl' !! Z.to_nat loc) as [slot'|], (tbl !! Z.to_nat loc) as [slot|];
    simpl in Hsame; try done.
  injection Hsame as ->.
  destruct (stops key slot); [done|].
  destruct (next prober_ st) as [[loc' st']|e]; [|done]. apply IH.
Qed.

(** Filling an empty slot [L] does not disturb a probe that ended
    elsewhere. *)
Lemma probe_loop_frame fuel tbl tbl' key (L : nat) st loc total r total' :
  tbl !! L = Some None →
  (∀ j : nat, j ≠ L → stops key <$> tbl' !! j = stops key <$> tbl !! j) →
  probe_loop fuel tbl key st loc total = (Returns r, total') →
  r = npos ∨ Z.to_nat r ≠ L →
  probe_loop fuel tbl' key st loc total = (Returns r, total').
Proof.
  intros HL Hsame. revert st loc total.
  induction fuel as [|fuel IH]; intros st loc total Hrun Hr; simpl in *; [done|].
  destruct (Z.eqb_spec loc npos) as [->|Hloc]; [done|].
  destruct (decide (Z.to_nat loc = L)) as [Heq|Hne].
  - rewrite Heq, HL in Hrun. simpl in Hrun. injection Hrun as <- _.
    destruct Hr as [?|?]; done.
  - specialize (Hsame _ Hne).
    destruct (tbl' !! Z.to_nat loc) as [slot'|], (tbl !! Z.to_nat loc) as [slot|];
      simpl in Hsame; try done.
    injection Hsame as ->.
    destruct (stops key slot); [done|].
    destruct (next prober_ st) as [[loc' st']|e]; [|done]. by apply IH.
Qed.

(** With one of the two concrete probers the loop ends within the fuel
    [probe] gives it, on a vector of the prober's size. *)
Lemma probe_loop_total fuel tbl key st loc total :
  prober_ ≠ BaseProber → 0 < m_ st < 2 ^ 63 → 0 ≤ numProbes_ st →
  Z.of_nat (length tbl) = m_ st →
  (loc = npos ∧ (1 ≤ fuel)%nat) ∨
    (0 ≤ loc < m_ st ∧ numProbes_ st ≤ m_ st ∧
     m_ st - numProbes_ st + 2 ≤ Z.of_nat fuel) →
  ∃ r total', probe_loop fuel tbl key st loc total = (Returns r, total').
Proof.
  intros HP. revert st loc total.
  induction fuel as [|fuel IH]; intros st loc total Hm Hn Hlen Hcase; simpl.
  - destruct Hcase as [[_ ?]|(_ & ? & ?)]; lia.
  - destruct (Z.eqb_spec loc npos) as [->|Hloc]; [eauto|].
    destruct Hcase as [[? _]|(Hrange & Hle & Hfuel)]; [done|].
    destruct (lookup_lt_is_Some_2 tbl (Z.to_nat loc)) as [slot ->]; [lia|].
    destruct (stops key slot); [eauto|].
    destruct (next_lawful prober_ st HP Hm Hn) as (loc' & st' & -> & Hm' & Hstep).
    apply IH; [lia | | lia |].
    + destruct Hstep as [(_ & _ & ->)|(_ & _ & ->)]; lia.
    + destruct Hstep as [(Hlt & Hloc' & Hnum)|(Hge & -> & ->)].
      * right. lia.
      * left. split; [done | lia].
Qed.

(** ** The ladder *)

Lemma capCount_value : Ht.capCount = 28.
Proof. reflexivity. Qed.

Lemma capacity_at_range (i : Z) :
  0 ≤ i < Ht.capCount → 11 ≤ Ht.capacity_at i < 2 ^ 31.
Proof.
  intros Hi. rewrite capCount_value in Hi. unfold Ht.capacity_at.
  destruct (lookup_lt_is_Some_2 Ht.CAPACITIES (Z.to_nat i)) as [c Hc].
  { change (length Ht.CAPACITIES) with 28%nat. lia. }
  rewrite (nth_lookup_Some _ _ _ _ Hc).
  pose proof capacities_range as Hall. rewrite Forall_lookup in Hall. by apply (Hall _ _ Hc).
Qed.

(** Each rung exceeds the one before by at least 12 slots. *)
Lemma capacity_at_step (i : Z) :
  0 ≤ i → i + 1 < Ht.capCount → Ht.capacity_at i + 12 ≤ Ht.capacity_at (i + 1).
Proof.
  intros Hi Hlt. rewrite capCount_value in Hlt.
  assert (Hcases : Forall (λ n, Ht.capacity_at (Z.of_nat n) + 12 ≤ Ht.capacity_at (Z.of_nat n + 1))
                     (seq 0 27)).
  { repeat (constructor; [vm_compute; discriminate|]). constructor. }
  rewrite Forall_forall in Hcases.
  specialize (Hcases (Z.to_nat i)). rewrite Z2Nat.id in Hcases by lia.
  apply Hcases, elem_of_seq. lia.
Qed.

(** ** [probe] and the slot index it returns *)

Lemma init_fields (vals : list Z) (start m : Z) key :
  m_ (init vals prober_ start m key) = m ∧ numProbes_ (init vals prober_ start m key) = 0.
Proof. by destruct prober_. Qed.

Lemma probe_Ret key t loc t' :
  probe key t = Ret loc t' →
  probe_loc key t = Returns loc ∧ ∃ n, t' = set_totalProbes n t.
Proof.
  unfold Ht.probe, Ht.probe_loc.
  destruct (next prober_ _) as [[l st']|e]; [|done].
  rewrite (probe_loop_fst _ _ _ _ _ 0 (add64 (totalProbes_ t) 1)).
  destruct (Ht.probe_loop _ _ _ _ _ _ _ _) as [[r|e] total]; [|done].
  intros [= -> <-]. eauto.
Qed.

Lemma probe_of_loc key t loc :
  probe_loc key t = Returns loc → ∃ n, probe key t = Ret loc (set_totalProbes n t).
Proof.
  unfold Ht.probe, Ht.probe_loc.
  destruct (next prober_ _) as [[l st']|e]; [|done].
  rewrite (probe_loop_fst _ _ _ _ _ 0 (add64 (totalProbes_ t) 1)).
  destruct (Ht.probe_loop _ _ _ _ _ _ _ _) as [[r|e] total]; [|done].
  simpl. intros [= ->]. eauto.
Qed.

Lemma probe_Throw key t e t' :
  probe key t = Throw e t' → probe_loc key t = Throws e.
Proof.
  unfold Ht.probe, Ht.probe_loc.
  destruct (next prober_ _) as [[l st']|e']; [|by intros [= -> _]].
  rewrite (probe_loop_fst _ _ _ _ _ 0 (add64 (totalProbes_ t) 1)).
  destruct (Ht.probe_loop _ _ _ _ _ _ _ _) as [[r|e'] total]; [done|].
  by intros [= -> _].
Qed.

Lemma probe_loc_stops key t r :
  probe_loc key t = Returns r → r ≠ npos →
  ∃ slot, table_ t !! Z.to_nat r = Some slot ∧ stops key slot = true.
Proof.
  unfold Ht.probe_loc. destruct (next prober_ _) as [[l st']|e]; [|done].
  destruct (Ht.probe_loop _ _ _ _ _ _ _ _) as [[r'|e] total] eqn:Hrun; [|done].
  simpl. intros [= ->]. by eapply probe_loop_stops.
Qed.

Lemma probe_loc_nonneg key t r :
  0 ≤ mIndex_ t < Ht.capCount → probe_loc key t = Returns r → 0 ≤ r.
Proof.
  intros Hidx. unfold Ht.probe_loc.
  pose proof (capacity_at_range _ Hidx) as Hcap.
  destruct (next prober_ _) as [[l st']|e] eqn:Hnext; [|done].
  destruct (Ht.probe_loop _ _ _ _ _ _ _ _) as [[r'|e] total] eqn:Hrun; [|done].
  simpl. intros [= ->].
  apply next_nonneg in Hnext as [Hl Hm].
  - eapply probe_loop_nonneg; [exact Hrun | | done].
    rewrite Hm. rewrite (proj1 (init_fields _ _ _ _)). lia.
  - rewrite (proj1 (init_fields _ _ _ _)). lia.
Qed.

Lemma probe_loc_total key t :
  prober_ ≠ BaseProber → 0 ≤ mIndex_ t < Ht.capCount →
  length (table_ t) = Z.to_nat (Ht.capacity_at (mIndex_ t)) →
  ∃ r, probe_loc key t = Returns r.
Proof.
  intros HP Hidx Hlen. unfold Ht.probe_loc.
  pose proof (capacity_at_range _ Hidx) as Hcap.
  set (st := init _ _ _ _ _).
  destruct (init_fields Ht.DOUBLE_HASH_MOD_VALUES
              (to_size_t (hash_ key) mod Ht.capacity_at (mIndex_ t))
              (Ht.capacity_at (mIndex_ t)) key) as [Hm Hn].
  fold st in Hm, Hn.
  destruct (next_lawful prober_ st HP) as (loc & st' & -> & Hm' & Hstep); [lia.. |].
  destruct (probe_loop_total (Ht.probe_fuel (Ht.capacity_at (mIndex_ t)))
              (table_ t) key st' loc 0 HP) as (r & total' & ->); [lia | | lia | | by eauto].
  - destruct Hstep as [(_ & _ & ->)|(_ & _ & ->)]; lia.
  - unfold Ht.probe_fuel. destruct Hstep as [(Hlt & Hloc & Hnum)|(Hge & _ & _)]; [|lia].
    right. lia.
Qed.

Lemma probe_loc_congr key t t' :
  mIndex_ t' = mIndex_ t →
  (∀ j : nat, stops key <$> table_ t' !! j = stops key <$> table_ t !! j) →
  probe_loc key t' = probe_loc key t.
Proof.
  intros Hidx Hsame. unfold Ht.probe_loc. rewrite Hidx.
  destruct (next prober_ _) as [[l st']|e]; [|done].
  by rewrite (probe_loop_congr _ _ _ _ _ _ _ Hsame).
Qed.

Lemma probe_loc_frame key t t' (L : nat) r :
  mIndex_ t' = mIndex_ t →
  table_ t !! L = Some None →
  (∀ j : nat, j ≠ L → stops key <$> table_ t' !! j = stops key <$> table_ t !! j) →
  probe_loc key t = Returns r → r = npos ∨ Z.to_nat r ≠ L →
  probe_loc key t' = Returns r.
Proof.
  intros Hidx HL Hsame. unfold Ht.probe_loc. rewrite Hidx.
  destruct (next prober_ _) as [[l st']|e]; [|done].
  destruct (Ht.probe_loop _ _ _ (table_ t) _ _ _ _) as [[r'|e] total] eqn:Hrun; [|done].
  intros Heq Hr. simpl in Heq. injection Heq as ->.
  by rewrite (probe_loop_frame _ _ _ _ _ _ _ _ _ _ HL Hsame Hrun Hr).
Qed.

(** ** The abstraction *)

Lemma elem_of_live_items tbl k v :
  (k, v) ∈ Ht.live_items tbl ↔
  ∃ i : nat, tbl !! i = Some (Some (mkHashItem (k, v) false)).
Proof.
  unfold Ht.live_items. rewrite list_elem_of_omap. split.
  - intros (slot & Hin & Hlive). apply list_elem_of_lookup in Hin as [i Hi]. exists i.
    destruct slot as [[it d]|]; simpl in Hlive; [|done].
    destruct d; [done|]. by injection Hlive as ->.
  - intros [i Hi]. eexists. split; [by eapply list_elem_of_lookup_2 | done].
Qed.

(** Live entries at different slots have different keys, as soon as the
    table never holds the same live key twice. *)
Lemma live_items_NoDup tbl :
  (∀ (i j : nat) hi hj,
      tbl !! i = Some (Some hi) → tbl !! j = Some (Some hj) →
      deleted hi = false → deleted hj = false →
      fst (item hi) = fst (item hj) → i = j) →
  NoDup (Ht.live_items tbl).*1.
Proof.
  induction tbl as [|slot tbl IH]; intros Huniq; csimpl; [constructor|].
  assert (IH' : NoDup (Ht.live_items tbl).*1).
  { apply IH. intros i j hi hj Hi Hj Hdi Hdj Hk.
    assert (S i = S j) by (by eapply Huniq). lia. }
  destruct slot as [[[k v] d]|]; simpl; [|done].
  destruct d; [done|]. csimpl. constructor; [|done].
  intros Hin. apply list_elem_of_fmap in Hin as ([k' v'] & Hk & Hin).
  simpl in Hk. subst k'. apply elem_of_live_items in Hin as [j Hj].
  assert (0 = S j)%nat by (by eapply (Huniq 0%nat (S j))). lia.
Qed.

Lemma reachable_unique t (i j : nat) hi hj :
  entries_reachable t →
  table_ t !! i = Some (Some hi) → table_ t !! j = Some (Some hj) →
  deleted hi = false → deleted hj = false →
  fst (item hi) = fst (item hj) → i = j.
Proof.
  intros Hreach Hi Hj Hdi Hdj Hk.
  pose proof (Hreach _ _ Hi Hdi) as Hpi. pose proof (Hreach _ _ Hj Hdj) as Hpj.
  rewrite Hk, Hpj in Hpi. injection Hpi. lia.
Qed.

Lemma abs_lookup t k v :
  entries_reachable t →
  Ht.abs t !! k = Some v ↔
  ∃ i : nat, table_ t !! i = Some (Some (mkHashItem (k, v) false)).
Proof.
  intros Hreach. unfold Ht.abs. rewrite <- elem_of_list_to_map.
  - apply elem_of_live_items.
  - apply live_items_NoDup. intros i j hi hj. by apply reachable_unique.
Qed.

Lemma size_abs t :
  entries_reachable t → base.size (Ht.abs t) = length (Ht.live_items (table_ t)).
Proof.
  intros Hreach. unfold Ht.abs. apply map_size_list_to_map.
  apply live_items_NoDup. intros i j hi hj. by apply reachable_unique.
Qed.

Lemma size_abs_le t :
  entries_reachable t → (base.size (Ht.abs t) ≤ length (table_ t))%nat.
Proof. intros Hreach. rewrite size_abs by done. apply omap_length_le. Qed.

Lemma occupied_le tbl : (Ht.occupied tbl ≤ length tbl)%nat.
Proof. apply omap_length_le. Qed.

(** The key is absent from the map when its probe ends at a null slot or
    runs out. *)
Lemma abs_lookup_None t k loc :
  Ht.well_sized t → entries_reachable t →
  probe_loc k t = Returns loc →
  loc = npos ∨ table_ t !! Z.to_nat loc = Some None →
  Ht.abs t !! k = None.
Proof.
  intros [Hidx Hlen] Hreach Hloc Hcase.
  destruct (Ht.abs t !! k) as [v|] eqn:Hk; [|done]. exfalso.
  apply abs_lookup in Hk as [i Hi]; [|done].
  pose proof (Hreach _ _ Hi eq_refl) as Hpi. simpl in Hpi.
  rewrite Hloc in Hpi. injection Hpi as ->.
  destruct Hcase as [Hnpos|Hnull].
  - apply lookup_lt_Some in Hi. pose proof (capacity_at_range _ Hidx).
    rewrite npos_value in Hnpos. lia.
  - rewrite Nat2Z.id in Hnull. congruence.
Qed.

(** The key is bound in the map when its probe ends at an item. *)
Lemma abs_lookup_found t k loc hi :
  entries_reachable t →
  probe_loc k t = Returns loc → loc ≠ npos →
  table_ t !! Z.to_nat loc = Some (Some hi) →
  deleted hi = false ∧ fst (item hi) = k ∧ Ht.abs t !! k = Some (snd (item hi)).
Proof.
  intros Hreach Hloc Hne Hslot.
  destruct (probe_loc_stops _ _ _ Hloc Hne) as (slot & Hslot' & Hstop).
  rewrite Hslot in Hslot'. injection Hslot' as <-. simpl in Hstop.
  apply andb_true_iff in Hstop as [Hd Hk].
  apply negb_true_iff in Hd. apply kequal_spec in Hk.
  split; [done|]. split; [done|].
  apply abs_lookup; [done|]. exists (Z.to_nat loc).
  rewrite Hslot. destruct hi as [[k' v'] d]. simpl in *. by subst.
Qed.

(** ** The three updates of a slot *)

Lemma set_totalProbes_Inv n t : Inv t → Inv (set_totalProbes n t).
Proof. intros [Hs Hr Hc Hu]. by constructor. Qed.

Lemma well_sized_bounds t :
  Ht.well_sized t →
  0 < Z.of_nat (length (table_ t)) < 2 ^ 31 ∧
  Z.of_nat (length (table_ t)) = Ht.capacity_at (mIndex_ t).
Proof. intros [Hidx Hlen]. pose proof (capacity_at_range _ Hidx). lia. Qed.

(** [insert] on an absent key: the null slot the probe ended at receives
    the entry. *)
Lemma store_new_Inv t loc k v :
  Inv t → probe_loc k t = Returns loc → loc ≠ npos →
  table_ t !! Z.to_nat loc = Some None →
  Inv (store_new loc (k, v) t) ∧
  Ht.abs (store_new loc (k, v) t) = <[k:=v]> (Ht.abs t) ∧
  Ht.abs t !! k = None ∧
  count_ (store_new loc (k, v) t) = count_ t + 1 ∧
  used_ (store_new loc (k, v) t) = used_ t + 1.
Proof.
  intros [Hsized Hreach Hcount Hused] Hloc Hne HL.
  pose proof (probe_loc_nonneg _ _ _ (proj1 Hsized) Hloc) as Hpos.
  pose proof (well_sized_bounds _ Hsized) as [Hlen _].
  assert (HLlt : (Z.to_nat loc < length (table_ t))%nat) by (by eapply lookup_lt_Some).
  set (t' := store_new loc (k, v) t).
  assert (Hreach' : entries_reachable t').
  { intros i hi Hi Hd. simpl in Hi.
    destruct (decide (i = Z.to_nat loc)) as [->|Hi'].
    - rewrite list_lookup_insert_eq in Hi by done. injection Hi as <-. simpl.
      rewrite Z2Nat.id by done. rewrite <- Hloc. apply probe_loc_congr; [done|].
      intros j. simpl. destruct (decide (j = Z.to_nat loc)) as [->|Hj].
      + rewrite list_lookup_insert_eq by done. rewrite HL. simpl.
        by rewrite (proj2 (kequal_spec k k)).
      + by rewrite list_lookup_insert_ne.
    - rewrite list_lookup_insert_ne in Hi by done.
      apply (probe_loc_frame _ t t' (Z.to_nat loc)); [done | done | | by apply Hreach |].
      + intros j Hj. simpl. by rewrite list_lookup_insert_ne.
      + right. by rewrite Nat2Z.id. }
  assert (Habs : Ht.abs t' = <[k:=v]> (Ht.abs t)).
  { apply map_eq. intros k2. apply option_eq. intros v2.
    rewrite lookup_insert_Some, !abs_lookup by done. split.
    - intros [i Hi]. simpl in Hi. destruct (decide (i = Z.to_nat loc)) as [->|Hi'].
      + rewrite list_lookup_insert_eq in Hi by done. left. by injection Hi.
      + rewrite list_lookup_insert_ne in Hi by done. right. split; [|eauto].
        intros <-. pose proof (Hreach _ _ Hi eq_refl) as Hpi. simpl in Hpi.
        rewrite Hloc in Hpi. injection Hpi as ->. by rewrite Nat2Z.id in Hi'.
    - intros [[<- <-]|[Hk [i Hi]]].
      + exists (Z.to_nat loc). simpl. by rewrite list_lookup_insert_eq.
      + exists i. simpl. rewrite list_lookup_insert_ne; [done|]. congruence. }
  assert (Hnone : Ht.abs t !! k = None) by (eapply abs_lookup_None; eauto).
  assert (Hc' : count_ t' = count_ t + 1).
  { simpl. unfold add64. apply to_size_t_small. rewrite Hcount.
    pose proof (size_abs_le _ Hreach). unfold SIZE_T_MODULUS. lia. }
  assert (Hu' : used_ t' = used_ t + 1).
  { simpl. unfold add64. apply to_size_t_small. rewrite Hused.
    pose proof (occupied_le (table_ t)). unfold SIZE_T_MODULUS. lia. }
  split; [|done]. constructor; [| done | |].
  - destruct Hsized as [Hidx Hl]. split; [done|]. simpl. by rewrite length_insert.
  - rewrite Habs, map_size_insert_None, Hc', Hcount by done. lia.
  - rewrite Hu', Hused. unfold Ht.occupied.
    pose proof (omap_insert_length id (table_ t) (Z.to_nat loc) None
                  (Some (mkHashItem (k, v) false)) HL) as Hocc.
    simpl in Hocc. simpl. lia.
Qed.

(** [insert] on a present key: the value of the item the probe ended at is
    replaced. *)
Lemma overwrite_Inv t loc k v hi :
  Inv t → probe_loc k t = Returns loc → loc ≠ npos →
  table_ t !! Z.to_nat loc = Some (Some hi) →
  Inv (overwrite loc hi v t) ∧
  Ht.abs (overwrite loc hi v t) = <[k:=v]> (Ht.abs t).
Proof.
  intros [Hsized Hreach Hcount Hused] Hloc Hne HL.
  pose proof (probe_loc_nonneg _ _ _ (proj1 Hsized) Hloc) as Hpos.
  destruct (abs_lookup_found _ _ _ _ Hreach Hloc Hne HL) as (Hd & Hk & Hbound).
  assert (HLlt : (Z.to_nat loc < length (table_ t))%nat) by (by eapply lookup_lt_Some).
  set (t' := overwrite loc hi v t).
  assert (Hsame : ∀ key (j : nat),
             stops key <$> table_ t' !! j = stops key <$> table_ t !! j).
  { intros key j. simpl. destruct (decide (j = Z.to_nat loc)) as [->|Hj].
    - rewrite list_lookup_insert_eq by done. by rewrite HL.
    - by rewrite list_lookup_insert_ne. }
  assert (Hreach' : entries_reachable t').
  { intros i hi' Hi Hd'. rewrite (probe_loc_congr _ t t'); [|done|by apply Hsame].
    simpl in Hi. destruct (decide (i = Z.to_nat loc)) as [->|Hi'].
    - rewrite list_lookup_insert_eq in Hi by done. injection Hi as <-. simpl.
      rewrite Hk. rewrite Z2Nat.id by done. done.
    - rewrite list_lookup_insert_ne in Hi by done. by apply Hreach. }
  assert (Habs : Ht.abs t' = <[k:=v]> (Ht.abs t)).
  { apply map_eq. intros k2. apply option_eq. intros v2.
    rewrite lookup_insert_Some, !abs_lookup by done. split.
    - intros [i Hi]. simpl in Hi. destruct (decide (i = Z.to_nat loc)) as [->|Hi'].
      + rewrite list_lookup_insert_eq in Hi by done. left.
        injection Hi as H1 H2 H3. by rewrite <- Hk.
      + rewrite list_lookup_insert_ne in Hi by done. right. split; [|eauto].
        intros <-. apply Hi'.
        by apply (reachable_unique t _ _ _ hi Hreach Hi HL).
    - intros [[<- <-]|[Hk2 [i Hi]]].
      + exists (Z.to_nat loc). simpl. rewrite list_lookup_insert_eq by done.
        by rewrite Hk, Hd.
      + exists i. simpl. rewrite list_lookup_insert_ne; [done|].
        intros Heq. subst i. rewrite HL in Hi. injection Hi as ->. by simpl in Hk. }
  split; [|done]. constructor; [| done | |].
  - destruct Hsized as [Hidx Hl]. split; [done|]. simpl. by rewrite length_insert.
  - rewrite Habs, map_size_insert_Some by eauto. done.
  - simpl. rewrite Hused. unfold Ht.occupied.
    pose proof (omap_insert_length id (table_ t) (Z.to_nat loc) (Some hi)
                  (Some (mkHashItem (fst (item hi), v) (deleted hi))) HL) as Hocc.
    simpl in Hocc. lia.
Qed.

(** [remove] on a present key: the item the probe ended at becomes a
    tombstone. *)
Lemma mark_deleted_Inv t loc k hi :
  Inv t → probe_loc k t = Returns loc → loc ≠ npos →
  table_ t !! Z.to_nat loc = Some (Some hi) →
  Inv (mark_deleted loc hi t) ∧
  Ht.abs (mark_deleted loc hi t) = delete k (Ht.abs t).
Proof.
  intros [Hsized Hreach Hcount Hused] Hloc Hne HL.
  pose proof (probe_loc_nonneg _ _ _ (proj1 Hsized) Hloc) as Hpos.
  destruct (abs_lookup_found _ _ _ _ Hreach Hloc Hne HL) as (Hd & Hk & Hbound).
  assert (HLlt : (Z.to_nat loc < length (table_ t))%nat) by (by eapply lookup_lt_Some).
  set (t' := mark_deleted loc hi t).
  assert (Hreach' : entries_reachable t').
  { intros i hi' Hi Hd'. simpl in Hi.
    destruct (decide (i = Z.to_nat loc)) as [->|Hi'].
    { rewrite list_lookup_insert_eq in Hi by done. injection Hi as <-. done. }
    rewrite list_lookup_insert_ne in Hi by done.
    rewrite (probe_loc_congr _ t t'); [by apply Hreach | done |].
    intros j. simpl. destruct (decide (j = Z.to_nat loc)) as [->|Hj].
    - rewrite list_lookup_insert_eq by done. rewrite HL. simpl. rewrite Hd. simpl.
      destruct (kequal_ (fst (item hi)) (fst (item hi'))) eqn:Heq; [|done].
      apply kequal_spec in Heq. exfalso. apply Hi'.
      by apply (reachable_unique t _ _ hi' hi Hreach Hi HL).
    - by rewrite list_lookup_insert_ne. }
  assert (Habs : Ht.abs t' = delete k (Ht.abs t)).
  { apply map_eq. intros k2. apply option_eq. intros v2.
    rewrite lookup_delete_Some, !abs_lookup by done. split.
    - intros [i Hi]. simpl in Hi. destruct (decide (i = Z.to_nat loc)) as [->|Hi'].
      { rewrite list_lookup_insert_eq in Hi by done. by injection Hi. }
      rewrite list_lookup_insert_ne in Hi by done. split; [|eauto].
      intros <-. apply Hi'.
      by apply (reachable_unique t _ _ _ hi Hreach Hi HL).
    - intros [Hk2 [i Hi]]. exists i. simpl. rewrite list_lookup_insert_ne; [done|].
      intros Heq. subst i. rewrite HL in Hi. injection Hi as ->. by simpl in Hk. }
  split; [|done]. constructor; [| done | |].
  - destruct Hsized as [Hidx Hl]. split; [done|]. simpl. by rewrite length_insert.
  - rewrite Habs, map_size_delete_Some by eauto. simpl. rewrite Hcount.
    assert (Hsz : base.size (Ht.abs t) ≠ 0%nat).
    { eapply map_size_ne_0_lookup_2. by rewrite Hbound. }
    pose proof (size_abs_le _ Hreach). pose proof (well_sized_bounds _ Hsized) as [Hlen _].
    unfold sub64. rewrite to_size_t_small; [lia|]. unfold SIZE_T_MODULUS. lia.
  - simpl. rewrite Hused. unfold Ht.occupied.
    pose proof (omap_insert_length id (table_ t) (Z.to_nat loc) (Some hi)
                  (Some (mkHashItem (item hi) true)) HL) as Hocc.
    simpl in Hocc. lia.
Qed.

(** ** [insert] without growth *)

Lemma no_tombstone_insert tbl (i : nat) hi :
  Ht.no_tombstone tbl → deleted hi = false →
  Ht.no_tombstone (<[i:=Some hi]> tbl).
Proof.
  intros Hno Hd j hj Hj. apply list_lookup_insert_Some in Hj as [(_ & Heq & _)|[_ Hj]].
  - by injection Heq as <-.
  - by eapply Hno.
Qed.

(** The second half of [insert]: the slot [probe] returned is filled or
    its value replaced. *)
Lemma place_Inv k v t loc t' :
  Inv t → probe_loc k t = Returns loc → Ht.place loc (k, v) t = Ret tt t' →
  Inv t' ∧ Ht.abs t' = <[k:=v]> (Ht.abs t) ∧
  mIndex_ t' = mIndex_ t ∧ resizeAlpha_ t' = resizeAlpha_ t ∧
  used_ t ≤ used_ t' ≤ used_ t + 1 ∧
  (Ht.no_tombstone (table_ t) → Ht.no_tombstone (table_ t')).
Proof.
  intros HInv Hloc. unfold Ht.place.
  destruct (Z.eqb_spec loc npos) as [|Hne]; [done|].
  destruct (table_ t !! Z.to_nat loc) as [[hi|]|] eqn:HL; [| |done]; intros [= <-].
  - destruct (overwrite_Inv _ _ _ v _ HInv Hloc Hne HL) as [HInv' Habs].
    destruct (abs_lookup_found _ _ _ _ (Ht.inv_reach _ _ _ _ HInv) Hloc Hne HL)
      as (Hd & _ & _).
    split_and!; try done; simpl; try lia.
    intros Hno. by apply no_tombstone_insert.
  - destruct (store_new_Inv _ _ _ v HInv Hloc Hne HL) as (HInv' & Habs & _ & _ & Hu).
    split_and!; try done; try lia.
    intros Hno. by apply no_tombstone_insert.
Qed.

(** ** Growth *)

Lemma live_items_replicate (n : nat) :
  Ht.live_items (replicate n (None : option (HashItem K V))) = [].
Proof. induction n as [|n IH]; [done|]. csimpl. exact IH. Qed.

Lemma occupied_replicate (n : nat) :
  Ht.occupied (replicate n (None : option (HashItem K V))) = 0%nat.
Proof. unfold Ht.occupied. induction n as [|n IH]; [done|]. csimpl. exact IH. Qed.

Lemma live_items_le_occupied tbl :
  (length (Ht.live_items tbl) ≤ Ht.occupied tbl)%nat.
Proof.
  unfold Ht.live_items, Ht.occupied.
  induction tbl as [|[[it d]|] tbl IH]; csimpl; [lia| |done].
  destruct d; csimpl; lia.
Qed.

(** The empty vector [resize] allocates for the next rung. *)
Lemma fresh_table_Inv t :
  0 ≤ mIndex_ t → mIndex_ t + 1 < Ht.capCount →
  let t1 := fresh_table (Ht.capacity_at (add64 (mIndex_ t) 1)) t in
  Inv t1 ∧ Ht.abs t1 = ∅ ∧ mIndex_ t1 = mIndex_ t + 1 ∧ used_ t1 = 0 ∧
  Ht.no_tombstone (table_ t1).
Proof.
  intros Hpos Hlt t1.
  assert (Hidx : mIndex_ t1 = mIndex_ t + 1).
  { simpl. unfold add64. apply to_size_t_small. rewrite capCount_value in Hlt.
    unfold SIZE_T_MODULUS. lia. }
  assert (Habs : Ht.abs t1 = ∅).
  { unfold Ht.abs. simpl. by rewrite live_items_replicate. }
  assert (Hno : Ht.no_tombstone (table_ t1)).
  { intros i hi Hi. simpl in Hi. by apply lookup_replicate in Hi as [? _]. }
  split_and!; try done. constructor.
  - split; [lia|]. simpl. by rewrite length_replicate.
  - intros i hi Hi. simpl in Hi. by apply lookup_replicate in Hi as [? _].
  - by rewrite Habs, map_size_empty.
  - simpl. by rewrite occupied_replicate.
Qed.

(** Induction principle for the rehash loop: a property of the new table
    and of the entries reinserted so far that every [ins] maintains holds
    at the end for all live entries of the old vector. *)
Lemma rehash_fold (ins : K * V → HashTable K V → Res K V unit)
    (I : HashTable K V → list (K * V) → Prop) oldTab t0 acc t' :
  (∀ p t t1 done, I t done → ins p t = Ret tt t1 → I t1 (done ++ [p])) →
  I t0 acc → rehash ins oldTab t0 = Ret tt t' →
  I t' (acc ++ Ht.live_items oldTab).
Proof.
  intros Hstep. revert t0 acc.
  induction oldTab as [|[[it d]|] oldTab IH]; intros t0 acc HI Hrun; csimpl in *.
  - injection Hrun as <-. by rewrite app_nil_r.
  - destruct d; simpl in *; [by apply (IH t0)|].
    destruct (ins it t0) as [[] t1|e t1] eqn:Hins; [|done].
    rewrite cons_middle, (assoc_L (++)). apply (IH t1); [|done]. by eapply Hstep.
  - by apply (IH t0).
Qed.

Lemma list_to_map_reverse (l : list (K * V)) :
  NoDup l.*1 → (list_to_map (reverse l) : gmap K V) = list_to_map l.
Proof.
  intros Hnd. symmetry. apply list_to_map_proper; [done|].
  symmetry. apply reverse_Permutation.
Qed.

(** ** [insert] and [resize] preserve the invariant *)

Lemma no_tombstone_occupied tbl :
  Ht.no_tombstone tbl → length (Ht.live_items tbl) = Ht.occupied tbl.
Proof.
  unfold Ht.live_items, Ht.occupied.
  induction tbl as [|[[it d]|] tbl IH]; intros Hno; csimpl; [done| |].
  - rewrite (Hno 0%nat (mkHashItem it d) eq_refl : d = false). csimpl.
    f_equal. apply IH. intros i hi Hi. by apply (Hno (S i)).
  - apply IH. intros i hi Hi. by apply (Hno (S i)).
Qed.

(** [resize] is correct as soon as the [insert] it calls is. *)
Lemma resize_with_Inv (ins : K * V → HashTable K V → Res K V unit) t t1 :
  (∀ p s s', Inv s → ins p s = Ret tt s' →
     Inv s' ∧ Ht.abs s' = <[fst p:=snd p]> (Ht.abs s) ∧
     resizeAlpha_ s' = resizeAlpha_ s ∧ mIndex_ s ≤ mIndex_ s' ∧
     used_ s' ≤ used_ s + 1 ∧
     (Ht.no_tombstone (table_ s) ∨ needs_resize s = true → Ht.no_tombstone (table_ s'))) →
  Inv t → Ht.resize_with ins t = Ret tt t1 →
  Inv t1 ∧ Ht.abs t1 = Ht.abs t ∧ resizeAlpha_ t1 = resizeAlpha_ t ∧
  mIndex_ t + 1 ≤ mIndex_ t1 ∧ used_ t1 ≤ used_ t ∧ Ht.no_tombstone (table_ t1).
Proof.
  intros Hins HInv Hres. unfold Ht.resize_with in Hres.
  destruct (Z.leb_spec Ht.capCount (add64 (mIndex_ t) 1)) as [|Hlt]; [done|].
  destruct HInv as [[Hidx Hlen] Hreach Hcount Hused].
  assert (Hlt' : mIndex_ t + 1 < Ht.capCount).
  { unfold add64 in Hlt. rewrite to_size_t_small in Hlt; [done|].
    rewrite capCount_value in Hidx. unfold SIZE_T_MODULUS. lia. }
  destruct (fresh_table_Inv t (proj1 Hidx) Hlt') as (HInv0 & Habs0 & Hidx0 & Hused0 & Hno0).
  pose proof (rehash_fold ins
    (λ s done, Inv s ∧ Ht.abs s = list_to_map (reverse done) ∧
               resizeAlpha_ s = resizeAlpha_ t ∧ mIndex_ t + 1 ≤ mIndex_ s ∧
               used_ s ≤ Z.of_nat (length done) ∧ Ht.no_tombstone (table_ s))
    (table_ t) (fresh_table (Ht.capacity_at (add64 (mIndex_ t) 1)) t) [] t1) as Hfold.
  cbv beta in Hfold. destruct Hfold as (HInv1 & Habs1 & Halpha1 & Hidx1 & Hused1 & Hno1).
  - intros p s s1 done (HI & Ha & Hal & Hi & Hu & Hn) Hstep.
    destruct (Hins _ _ _ HI Hstep) as (HI' & Ha' & Hal' & Hi' & Hu' & Hn').
    split_and!; try done.
    + by rewrite Ha', Ha, reverse_app.
    + congruence.
    + lia.
    + rewrite length_app. simpl. lia.
    + apply Hn'. by left.
  - split_and!; try done; lia.
  - done.
  - split_and!; try done; try lia.
    + rewrite Habs1. apply list_to_map_reverse, live_items_NoDup.
      intros i j hi hj. by apply reachable_unique.
    + pose proof (live_items_le_occupied (table_ t)). simpl in Hused1. lia.
Qed.

Theorem insert_fuel_Inv fuel p t t' :
  Inv t → insert_fuel fuel p t = Ret tt t' →
  Inv t' ∧ Ht.abs t' = <[fst p:=snd p]> (Ht.abs t) ∧
  resizeAlpha_ t' = resizeAlpha_ t ∧ mIndex_ t ≤ mIndex_ t' ∧
  used_ t' ≤ used_ t + 1 ∧
  (Ht.no_tombstone (table_ t) ∨ needs_resize t = true → Ht.no_tombstone (table_ t')).
Proof.
  revert p t t'. induction fuel as [|fuel IH]; intros [k v] t t' HInv Hrun; [done|].
  simpl in Hrun.
  assert (Hresized : ∃ t1,
    (if needs_resize t then Ht.resize_with (insert_fuel fuel) t else Ret tt t) = Ret tt t1 ∧
    Inv t1 ∧ Ht.abs t1 = Ht.abs t ∧ resizeAlpha_ t1 = resizeAlpha_ t ∧
    mIndex_ t ≤ mIndex_ t1 ∧ used_ t1 ≤ used_ t ∧
    (Ht.no_tombstone (table_ t) ∨ needs_resize t = true → Ht.no_tombstone (table_ t1))).
  { destruct (needs_resize t) eqn:Hneed.
    2:{ exists t. split_and!; try done; try lia. by intros [?|?]. }
    destruct (Ht.resize_with _ t) as [[] t1|e t1] eqn:Hres; [|done].
    exists t1. split; [done|].
    destruct (resize_with_Inv _ _ _ IH HInv Hres) as (? & ? & ? & ? & ? & ?).
    split_and!; try done; lia. }
  destruct Hresized as (t1 & Heq & HInv1 & Habs1 & Halpha1 & Hidx1 & Hused1 & Hno1).
  rewrite Heq in Hrun. simpl in Hrun.
  destruct (probe k t1) as [loc t2|e t2] eqn:Hprobe; [|done].
  apply probe_Ret in Hprobe as [Hloc [n ->]].
  destruct (place_Inv k v (set_totalProbes n t1) loc t'
              (set_totalProbes_Inv n _ HInv1) Hloc Hrun)
    as (HInv' & Habs' & Hidx' & Halpha' & Hused' & Hno').
  simpl in Hidx', Halpha', Hused'.
  change (Ht.abs (set_totalProbes n t1)) with (Ht.abs t1) in Habs'.
  split_and!; try done; try lia.
  - by rewrite Habs', Habs1.
  - congruence.
  - intros Hcase. by apply Hno', Hno1.
Qed.

(** A growth leaves the map and the number of live entries as they are
    and keeps no tombstone. *)
Lemma resize_fuel_Inv fuel t t' :
  Inv t → resize_fuel fuel t = Ret tt t' →
  Inv t' ∧ Ht.abs t' = Ht.abs t ∧ resizeAlpha_ t' = resizeAlpha_ t ∧
  mIndex_ t + 1 ≤ mIndex_ t' ∧ used_ t' ≤ used_ t ∧ Ht.no_tombstone (table_ t') ∧
  count_ t' = count_ t ∧ used_ t' = count_ t'.
Proof.
  intros HInv Hres.
  destruct (resize_with_Inv _ _ _ (insert_fuel_Inv fuel) HInv Hres)
    as (HInv' & Habs & Halpha & Hidx & Hused & Hno).
  split_and!; try done.
  - by rewrite (Ht.inv_count _ _ _ _ HInv'), Habs, (Ht.inv_count _ _ _ _ HInv).
  - rewrite (Ht.inv_count _ _ _ _ HInv'), (Ht.inv_used _ _ _ _ HInv').
    rewrite size_abs by apply HInv'. by rewrite no_tombstone_occupied.
Qed.

(** ** [find] and [remove] *)

Lemma index_not_npos t (i : nat) slot :
  Ht.well_sized t → table_ t !! i = Some slot → Z.of_nat i ≠ npos.
Proof.
  intros Hsized Hi. apply lookup_lt_Some in Hi.
  pose proof (well_sized_bounds _ Hsized) as [Hlen _]. rewrite npos_value. lia.
Qed.

(** [find] returns what the map binds, whenever it returns. *)
Lemma find_Ret k t o t' :
  Inv t → find k t = Ret o t' →
  o = (λ v, (k, v)) <$> Ht.abs t !! k ∧ ∃ n, t' = set_totalProbes n t.
Proof.
  intros [Hsized Hreach _ _]. unfold Ht.find.
  destruct (probe k t) as [loc t2|e t2] eqn:Hprobe; [|done].
  apply probe_Ret in Hprobe as [Hloc [n ->]].
  destruct (Z.eqb_spec loc npos) as [Hnpos|Hne].
  { intros [= <- <-]. rewrite (abs_lookup_None _ _ _ Hsized Hreach Hloc); eauto. }
  simpl. destruct (table_ t !! Z.to_nat loc) as [[hi|]|] eqn:HL; [| |done]; intros [= <- <-].
  - destruct (abs_lookup_found _ _ _ _ Hreach Hloc Hne HL) as (_ & Hk & ->).
    split; [|eauto]. simpl. f_equal. destruct hi as [[k' v'] d]. simpl in *. by subst.
  - rewrite (abs_lookup_None _ _ _ Hsized Hreach Hloc); eauto.
Qed.

(** A bound key is found, and [find] does return. *)
Lemma find_present k v t :
  Inv t → Ht.abs t !! k = Some v →
  ∃ n, find k t = Ret (Some (k, v)) (set_totalProbes n t).
Proof.
  intros [Hsized Hreach _ _] Hk.
  apply abs_lookup in Hk as [i Hi]; [|done].
  pose proof (Hreach _ _ Hi eq_refl) as Hloc. simpl in Hloc.
  destruct (probe_of_loc _ _ _ Hloc) as [n Hprobe]. exists n.
  unfold Ht.find. rewrite Hprobe.
  destruct (Z.eqb_spec (Z.of_nat i) npos) as [Hnpos|_].
  { by apply (index_not_npos _ _ _ Hsized Hi) in Hnpos. }
  simpl. by rewrite Nat2Z.id, Hi.
Qed.

(** With a concrete prober [find] always returns. *)
Lemma find_total k t :
  Inv t → prober_ ≠ BaseProber →
  ∃ n, find k t = Ret ((λ v, (k, v)) <$> Ht.abs t !! k) (set_totalProbes n t).
Proof.
  intros HInv HP. destruct (Ht.inv_sized _ _ _ _ HInv) as [Hidx Hlen].
  destruct (probe_loc_total k t HP Hidx Hlen) as [loc Hloc].
  destruct (probe_of_loc _ _ _ Hloc) as [n Hprobe].
  assert (Hfind : ∃ o, find k t = Ret o (set_totalProbes n t)).
  { unfold Ht.find. rewrite Hprobe. destruct (Z.eqb_spec loc npos) as [|Hne]; [eauto|].
    destruct (probe_loc_stops _ _ _ Hloc Hne) as (slot & Hslot & _). simpl.
    rewrite Hslot. destruct slot; eauto. }
  destruct Hfind as [o Hfind]. exists n.
  by destruct (find_Ret _ _ _ _ HInv Hfind) as [-> _].
Qed.

(** A prober with which some probe returned is a concrete one. *)
Lemma probe_loc_concrete k t loc :
  probe_loc k t = Returns loc → prober_ ≠ BaseProber.
Proof. unfold Ht.probe_loc. by intros Hloc ->. Qed.

Lemma remove_Inv k t t' :
  Inv t → remove k t = Ret tt t' →
  Inv t' ∧ Ht.abs t' = delete k (Ht.abs t) ∧
  resizeAlpha_ t' = resizeAlpha_ t ∧ mIndex_ t' = mIndex_ t ∧ used_ t' = used_ t ∧
  length (table_ t') = length (table_ t).
Proof.
  intros HInv. unfold Ht.remove, Ht.internalFind.
  destruct (probe k t) as [loc t2|e t2] eqn:Hprobe; [|done].
  apply probe_Ret in Hprobe as [Hloc [n ->]].
  pose proof (set_totalProbes_Inv n _ HInv) as HInv2.
  destruct HInv as [Hsized Hreach _ _].
  destruct (Z.eqb_spec loc npos) as [Hnpos|Hne].
  { intros [= <-]. split_and!; try done.
    symmetry. apply delete_id. eapply abs_lookup_None; eauto. }
  simpl. destruct (table_ t !! Z.to_nat loc) as [[hi|]|] eqn:HL; [| |done].
  - simpl. rewrite HL. intros [= <-].
    destruct (mark_deleted_Inv (set_totalProbes n t) loc k hi HInv2 Hloc Hne HL)
      as [HInv' Habs].
    split_and!; try done. simpl. by rewrite length_insert.
  - intros [= <-]. split_and!; try done.
    symmetry. apply delete_id. eapply abs_lookup_None; eauto.
Qed.

(** Removing a bound key does return, and tombstones one slot. *)
Lemma remove_present k v t :
  Inv t → Ht.abs t !! k = Some v →
  ∃ t', remove k t = Ret tt t' ∧ count_ t' = count_ t - 1.
Proof.
  intros HInv Hk. pose proof HInv as [Hsized Hreach Hcount _].
  pose proof Hk as Hk'. apply abs_lookup in Hk' as [i Hi]; [|done].
  pose proof (Hreach _ _ Hi eq_refl) as Hloc. simpl in Hloc.
  destruct (probe_of_loc _ _ _ Hloc) as [n Hprobe].
  eexists. unfold Ht.remove, Ht.internalFind. rewrite Hprobe.
  destruct (Z.eqb_spec (Z.of_nat i) npos) as [Hnpos|_].
  { by apply (index_not_npos _ _ _ Hsized Hi) in Hnpos. }
  simpl. rewrite Nat2Z.id, Hi. simpl. rewrite Nat2Z.id, Hi.
  split; [done|]. simpl. rewrite Hcount.
  assert (Hsz : base.size (Ht.abs t) ≠ 0%nat).
  { eapply map_size_ne_0_lookup_2. by rewrite Hk. }
  pose proof (size_abs_le _ Hreach). pose proof (well_sized_bounds _ Hsized) as [Hlen _].
  unfold sub64. rewrite to_size_t_small; [lia|]. unfold SIZE_T_MODULUS. lia.
Qed.

(** Removing an unbound key changes nothing but the probe counter. *)
Lemma remove_absent k t t' :
  Inv t → Ht.abs t !! k = None → remove k t = Ret tt t' →
  ∃ n, t' = set_totalProbes n t.
Proof.
  intros [Hsized Hreach _ _] Hk. unfold Ht.remove, Ht.internalFind.
  destruct (probe k t) as [loc t2|e t2] eqn:Hprobe; [|done].
  apply probe_Ret in Hprobe as [Hloc [n ->]].
  destruct (Z.eqb_spec loc npos) as [Hnpos|Hne]; [intros [= <-]; eauto|].
  simpl. destruct (table_ t !! Z.to_nat loc) as [[hi|]|] eqn:HL; [| |done].
  - destruct (abs_lookup_found _ _ _ _ Hreach Hloc Hne HL) as (_ & _ & Hsome).
    congruence.
  - intros [= <-]; eauto.
Qed.

(** ** Sequences of operations *)

Lemma HashTable_new_Inv (alpha : Q) :
  Inv (HashTable_new alpha) ∧ Ht.abs (HashTable_new alpha) = ∅.
Proof.
  assert (Habs : Ht.abs (HashTable_new alpha) = ∅).
  { unfold Ht.abs, Ht.HashTable_new. cbn [table_]. by rewrite live_items_replicate. }
  split; [|done]. constructor.
  - split; [by rewrite capCount_value|].
    unfold Ht.HashTable_new. cbn [table_ mIndex_]. by rewrite length_replicate.
  - intros i hi Hi. unfold Ht.HashTable_new in Hi. cbn [table_] in Hi.
    by apply lookup_replicate in Hi as [? _].
  - by rewrite Habs, map_size_empty.
  - unfold Ht.HashTable_new. cbn [table_ used_]. by rewrite occupied_replicate.
Qed.

Lemma run_op_Inv o t t' :
  Inv t → run_op o t = Ret tt t' →
  Inv t' ∧ Ht.abs t' = Ht.abs_op (Ht.abs t) o ∧ resizeAlpha_ t' = resizeAlpha_ t.
Proof.
  intros HInv. destruct o as [k v|k]; simpl; intros Hrun.
  - destruct (insert_fuel_Inv _ _ _ _ HInv Hrun) as (? & ? & ? & _). done.
  - destruct (remove_Inv _ _ _ HInv Hrun) as (? & ? & ? & _). done.
Qed.

Lemma run_Inv ops t t' :
  Inv t → run ops t = Ret tt t' →
  Inv t' ∧ Ht.abs t' = foldl Ht.abs_op (Ht.abs t) ops ∧
  resizeAlpha_ t' = resizeAlpha_ t.
Proof.
  revert t. induction ops as [|o ops IH]; intros t HInv Hrun; simpl in *.
  - by injection Hrun as <-.
  - destruct (run_op o t) as [[] t1|e t1] eqn:Hop; [|done].
    destruct (run_op_Inv _ _ _ HInv Hop) as (HInv1 & Habs1 & Halpha1).
    destruct (IH _ HInv1 Hrun) as (HInv' & Habs' & Halpha').
    split_and!; [done | by rewrite Habs', Habs1 | congruence].
Qed.

Lemma run_app ops1 ops2 t :
  run (ops1 ++ ops2) t =
  match run ops1 t with
  | Ret _ t1 => run ops2 t1
  | Throw e t1 => Throw e t1
  end.
Proof.
  revert t. induction ops1 as [|o ops1 IH]; intros t; simpl; [done|].
  destruct (run_op o t) as [[] t1|e t1]; [apply IH | done].
Qed.

(** Every state the public interface produces satisfies the invariant. *)
Lemma reachable_Inv t : reachable t → Inv t.
Proof.
  intros (alpha & ops & Hrun).
  by destruct (run_Inv _ _ _ (proj1 (HashTable_new_Inv alpha)) Hrun) as [? _].
Qed.

Lemma reachable_step o t t' :
  reachable t → run_op o t = Ret tt t' → reachable t'.
Proof.
  intros (alpha & ops & Hrun) Hop. exists alpha, (ops ++ [o]).
  rewrite run_app, Hrun. simpl. by rewrite Hop.
Qed.

Lemma foldl_abs_op_other (m : gmap K V) ops k :
  (∀ o, o ∈ ops → Ht.op_key o ≠ k) → foldl Ht.abs_op m ops !! k = m !! k.
Proof.
  revert m. induction ops as [|o ops IH]; intros m Hother; simpl; [done|].
  rewrite IH.
  - assert (Ht.op_key o ≠ k) as Hne by (apply Hother; by left).
    destruct o as [k' v'|k']; simpl in *.
    + by rewrite lookup_insert_ne.
    + by rewrite lookup_delete_ne.
  - intros o' Ho'. apply Hother. by right.
Qed.

(** C1 (round trip): after any sequence of operations on a fresh table that
    contains [insert(k, v)] and, after it, no operation on the key [k],
    the entry [(k, v)] is live in some slot, probing for [k] from its
    starting index returns that slot, and [find(k)] returns the entry. *)
Theorem find_after_insert (alpha : Q) (ops1 ops2 : list (Ht.Op (K:=K) (V:=V))) k v t :
  run (ops1 ++ Ht.OpInsert k v :: ops2) (HashTable_new alpha) = Ret tt t →
  (∀ o, o ∈ ops2 → Ht.op_key o ≠ k) →
  ∃ (i : nat) t',
    table_ t !! i = Some (Some (mkHashItem (k, v) false)) ∧
    probe k t = Ret (Z.of_nat i) t' ∧
    find k t = Ret (Some (k, v)) t'.
Proof.
  intros Hrun Hother.
  destruct (run_Inv _ _ _ (proj1 (HashTable_new_Inv alpha)) Hrun) as (HInv & Habs & _).
  rewrite foldl_app in Habs. simpl in Habs.
  assert (Hk : Ht.abs t !! k = Some v).
  { by rewrite Habs, foldl_abs_op_other, lookup_insert_eq. }
  pose proof HInv as [Hsized Hreach _ _].
  apply abs_lookup in Hk as [i Hi]; [|done].
  pose proof (Hreach _ _ Hi eq_refl) as Hloc. simpl in Hloc.
  destruct (probe_of_loc _ _ _ Hloc) as [n Hprobe].
  exists i, (set_totalProbes n t). split_and!; [done..|].
  unfold Ht.find. rewrite Hprobe.
  destruct (Z.eqb_spec (Z.of_nat i) npos) as [Hnpos|_].
  { by apply (index_not_npos _ _ _ Hsized Hi) in Hnpos. }
  simpl. by rewrite Nat2Z.id, Hi.
Qed.

Lemma find_concrete k t o t' : find k t = Ret o t' → prober_ ≠ BaseProber.
Proof.
  unfold Ht.find. destruct (probe k t) as [loc t2|e t2] eqn:Hprobe; [|done].
  intros _. apply probe_Ret in Hprobe as [Hloc _]. by eapply probe_loc_concrete.
Qed.

(** C3 (growth): a growth that returns leaves the answer of [find] as it
    was for every key (an entry found before is found with the same value,
    a key absent before is absent), leaves [size()] as it was, and leaves no
    tombstone: every slot in use afterwards is live. *)
Theorem growth_preserves_entries (fuel : nat) t t' :
  reachable t → resize_fuel fuel t = Ret tt t' →
  (∀ k o t1, find k t = Ret o t1 → ∃ t2, find k t' = Ret o t2) ∧
  Ht.size t' = Ht.size t ∧
  Ht.no_tombstone (table_ t') ∧ used_ t' = count_ t' ∧
  mIndex_ t < mIndex_ t'.
Proof.
  intros Hreach Hres. pose proof (reachable_Inv _ Hreach) as HInv.
  destruct (resize_fuel_Inv _ _ _ HInv Hres)
    as (HInv' & Habs & _ & Hidx & _ & Hno & Hcount & Hused).
  split_and!; try done; [|lia].
  intros k o t1 Hfind. destruct (find_Ret _ _ _ _ HInv Hfind) as [-> _].
  destruct (find_total k t' HInv' (find_concrete _ _ _ _ Hfind)) as [n Hfind'].
  rewrite Habs in Hfind'. eauto.
Qed.


(** C4 (deletion): on a reachable table, [remove(k)] of a key [find] returns
    makes [find(k)] return absent, lowers [size()] by one and keeps
    [used_]; [remove(k)] of a key [find] reports absent returns normally and
    leaves the slots, [size()], [used_], the rung and the threshold as they
    were. *)
Theorem remove_visibility k t :
  reachable t →
  (∀ v t1, find k t = Ret (Some (k, v)) t1 →
     ∃ t' t2, remove k t = Ret tt t' ∧ find k t' = Ret None t2 ∧
              Ht.size t' = Ht.size t - 1 ∧ used_ t' = used_ t) ∧
  (∀ t1, find k t = Ret None t1 →
     ∃ t', remove k t = Ret tt t' ∧ table_ t' = table_ t ∧
           Ht.size t' = Ht.size t ∧ used_ t' = used_ t ∧
           mIndex_ t' = mIndex_ t ∧ resizeAlpha_ t' = resizeAlpha_ t).
Proof.
  intros Hreach. pose proof (reachable_Inv _ Hreach) as HInv. split.
  - intros v t1 Hfind. pose proof (find_concrete _ _ _ _ Hfind) as HP.
    destruct (find_Ret _ _ _ _ HInv Hfind) as [Ho _].
    destruct (Ht.abs t !! k) as [v'|] eqn:Hk; [|done].
    destruct (remove_present k v' t HInv Hk) as (t' & Hrem & Hcount).
    destruct (remove_Inv _ _ _ HInv Hrem) as (HInv' & Habs & _ & _ & Hused & _).
    destruct (find_total k t' HInv' HP) as [n Hfind'].
    rewrite Habs, lookup_delete_eq in Hfind'. eauto 10.
  - intros t1 Hfind. destruct (find_Ret _ _ _ _ HInv Hfind) as [Ho _].
    destruct (Ht.abs t !! k) as [v'|] eqn:Hk; [done|].
    assert (Hrem : ∃ t', remove k t = Ret tt t').
    { unfold Ht.find in Hfind. unfold Ht.remove, Ht.internalFind.
      destruct (probe k t) as [loc t2|e t2]; [|done].
      destruct (loc =? npos); [eauto|].
      destruct (table_ t2 !! Z.to_nat loc) as [[hi|]|]; [done|eauto|done]. }
    destruct Hrem as [t' Hrem]. exists t'.
    destruct (remove_absent _ _ _ HInv Hk Hrem) as [n ->]. done.
Qed.

(** [insert] without growth: the slot [probe] returns is either null and
    receives the entry, or holds the live entry of an equal key. *)
Lemma insert_no_growth fuel k v t t' :
  Inv t → needs_resize t = false → insert_fuel fuel (k, v) t = Ret tt t' →
  ∃ loc : nat,
    (∀ j : nat, j ≠ loc → table_ t' !! j = table_ t !! j) ∧
    ((table_ t !! loc = Some None ∧
      table_ t' !! loc = Some (Some (mkHashItem (k, v) false)) ∧
      Ht.abs t !! k = None ∧
      used_ t' = used_ t + 1 ∧ count_ t' = count_ t + 1)
     ∨ (∃ v0, table_ t !! loc = Some (Some (mkHashItem (k, v0) false)) ∧
              table_ t' !! loc = Some (Some (mkHashItem (k, v) false)) ∧
              used_ t' = used_ t ∧ count_ t' = count_ t)).
Proof.
  intros HInv Hneed. destruct fuel as [|fuel]; [done|]. simpl. rewrite Hneed.
  destruct (probe k t) as [loc t2|e t2] eqn:Hprobe; [|done].
  apply probe_Ret in Hprobe as [Hloc [n ->]].
  pose proof (set_totalProbes_Inv n _ HInv) as HInv2.
  unfold Ht.place. destruct (Z.eqb_spec loc npos) as [|Hne]; [done|]. simpl.
  destruct (table_ t !! Z.to_nat loc) as [[hi|]|] eqn:HL; [| |done]; intros [= <-];
    exists (Z.to_nat loc);
    (split; [intros j Hj; simpl; by rewrite list_lookup_insert_ne|]);
    assert (HLlt : (Z.to_nat loc < length (table_ t))%nat) by (by eapply lookup_lt_Some).
  - right.
    destruct (abs_lookup_found _ _ _ _ (Ht.inv_reach _ _ _ _ HInv) Hloc Hne HL)
      as (Hd & Hk & _).
    exists (snd (item hi)). simpl. rewrite list_lookup_insert_eq by done.
    destruct hi as [[k' v'] d]. simpl in *. by subst.
  - left.
    destruct (store_new_Inv (set_totalProbes n t) loc k v HInv2 Hloc Hne HL)
      as (_ & _ & Hnone & Hc & Hu).
    simpl. rewrite list_lookup_insert_eq by done. done.
Qed.

(** [remove] leaves every tombstone where it is. *)
Lemma remove_keeps_tombstones k t t' (j : nat) hi :
  remove k t = Ret tt t' →
  table_ t !! j = Some (Some hi) → deleted hi = true →
  table_ t' !! j = Some (Some hi).
Proof.
  unfold Ht.remove, Ht.internalFind.
  destruct (probe k t) as [loc t2|e t2] eqn:Hprobe; [|done].
  apply probe_Ret in Hprobe as [Hloc [n ->]].
  destruct (Z.eqb_spec loc npos) as [Hnpos|Hne]; [by intros [= <-]|].
  simpl. destruct (table_ t !! Z.to_nat loc) as [[p|]|] eqn:HL; [| |done].
  - simpl. rewrite HL. intros [= <-] Hj Hd. simpl.
    rewrite list_lookup_insert_ne; [done|]. intros <-.
    destruct (probe_loc_stops _ _ _ Hloc Hne) as (slot & Hslot & Hstop).
    rewrite Hj in Hslot. injection Hslot as <-. simpl in Hstop. by rewrite Hd in Hstop.
  - by intros [= <-].
Qed.

(** C10 (tombstones): on a reachable table, an [insert] that returns
    without growing writes exactly one slot, which held either a null
    pointer (it then receives the entry and [used_] and [count_] grow by
    one) or the live entry of the same key (only its value changes); every
    tombstoned slot is left as it was, and a key that [find] reports absent,
    such as one just removed, goes to a null slot.  An [insert] that grows
    leaves no tombstone at all, and [remove] leaves every tombstone where it
    is: only growth reclaims them. *)
Theorem insert_skips_tombstones k v t t' :
  reachable t → insert (k, v) t = Ret tt t' →
  (needs_resize t = false →
   ∃ loc : nat,
     (∀ j : nat, j ≠ loc → table_ t' !! j = table_ t !! j) ∧
     (∀ (j : nat) hi, table_ t !! j = Some (Some hi) → deleted hi = true →
        table_ t' !! j = Some (Some hi)) ∧
     ((table_ t !! loc = Some None ∧
       table_ t' !! loc = Some (Some (mkHashItem (k, v) false)) ∧
       used_ t' = used_ t + 1 ∧ count_ t' = count_ t + 1)
      ∨ (∃ v0, table_ t !! loc = Some (Some (mkHashItem (k, v0) false)) ∧
               table_ t' !! loc = Some (Some (mkHashItem (k, v) false)) ∧
               used_ t' = used_ t ∧ count_ t' = count_ t)) ∧
     (∀ t1, find k t = Ret None t1 → table_ t !! loc = Some None)) ∧
  (needs_resize t = true → Ht.no_tombstone (table_ t')) ∧
  (∀ k' t'' (j : nat) hi,
     remove k' t = Ret tt t'' →
     table_ t !! j = Some (Some hi) → deleted hi = true →
     table_ t'' !! j = Some (Some hi)).
Proof.
  intros Hreach Hins. pose proof (reachable_Inv _ Hreach) as HInv. split_and!.
  - intros Hneed.
    destruct (insert_no_growth _ _ _ _ _ HInv Hneed Hins) as (loc & Hother & Hcase).
    exists loc. split_and!; [done | | |].
    + intros j hi Hj Hd. rewrite Hother; [done|]. intros ->.
      destruct Hcase as [(Hnull & _)|(v0 & Hlive & _)]; rewrite Hj in *; [done|].
      injection Hlive as ->. done.
    + destruct Hcase as [(? & ? & _ & ? & ?)|?]; [left|right]; done.
    + intros t1 Hfind. destruct (find_Ret _ _ _ _ HInv Hfind) as [Ho _].
      destruct Hcase as [(? & _)|(v0 & Hlive & _)]; [done|].
      assert (Ht.abs t !! k = Some v0) as Hk.
      { apply abs_lookup; [apply HInv | eauto]. }
      by rewrite Hk in Ho.
  - intros Hneed.
    destruct (insert_fuel_Inv _ _ _ _ HInv Hins) as (_ & _ & _ & _ & _ & Hno).
    apply Hno. by right.
  - intros k' t'' j hi. apply remove_keeps_tombstones.
Qed.

(** ** The load factor *)

Lemma Inv_bounds t :
  Inv t →
  0 ≤ used_ t ≤ Z.of_nat (length (table_ t)) ∧
  11 ≤ Z.of_nat (length (table_ t)) < 2 ^ 31 ∧
  Z.of_nat (length (table_ t)) = Ht.capacity_at (mIndex_ t).
Proof.
  intros [[Hidx Hlen] _ _ Hused]. pose proof (capacity_at_range _ Hidx).
  pose proof (occupied_le (table_ t)). lia.
Qed.

(** The test at the head of [insert] on a table that satisfies the
    invariant: [used_ + 1] does not wrap. *)
Lemma needs_resize_spec t :
  Inv t →
  needs_resize t =
  load_reached (used_ t + 1) (Z.of_nat (length (table_ t))) (resizeAlpha_ t).
Proof.
  intros HInv. destruct (Inv_bounds _ HInv) as (Hu & Hl & _).
  unfold Ht.needs_resize, add64. rewrite to_size_t_small; [done|].
  unfold SIZE_T_MODULUS. lia.
Qed.

(** The test on the counters of two tables that satisfy the invariant:
    it is monotone in the exact quotient. *)
Lemma load_reached_le (n1 s1 n2 s2 : Z) (alpha : Q) :
  0 ≤ n1 < 2 ^ 32 → 0 < s1 < 2 ^ 31 → 0 ≤ n2 < 2 ^ 32 → 0 < s2 < 2 ^ 31 →
  n1 * s2 ≤ n2 * s1 →
  load_reached n2 s2 alpha = false → load_reached n1 s1 alpha = false.
Proof. intros Hn1 Hs1 Hn2 Hs2 Hle. apply load_reached_mono_false; lia. Qed.

Lemma capacity_at_mono (i j : Z) :
  0 ≤ i ≤ j → j < Ht.capCount → Ht.capacity_at i ≤ Ht.capacity_at j.
Proof.
  intros Hij Hj. replace j with (i + Z.of_nat (Z.to_nat (j - i))) in * by lia.
  induction (Z.to_nat (j - i)) as [|n IH]; [by rewrite Z.add_0_r|].
  pose proof (capacity_at_step (i + Z.of_nat n)).
  replace (i + Z.of_nat (S n)) with (i + Z.of_nat n + 1) in * by lia. lia.
Qed.

(** Whether [insert] advanced along the ladder is decided by the test at
    its head. *)
Lemma insert_fuel_index fuel p t t' :
  Inv t → insert_fuel fuel p t = Ret tt t' →
  (needs_resize t = true → mIndex_ t + 1 ≤ mIndex_ t') ∧
  (needs_resize t = false → mIndex_ t' = mIndex_ t).
Proof.
  intros HInv. destruct fuel as [|fuel]; [done|]. destruct p as [k v]. simpl.
  destruct (needs_resize t) eqn:Hneed.
  - destruct (Ht.resize_with _ t) as [[] t1|e t1] eqn:Hres; [|done].
    destruct (resize_with_Inv _ _ _ (insert_fuel_Inv fuel) HInv Hres)
      as (HInv1 & _ & _ & Hidx & _).
    destruct (probe k t1) as [loc t2|e t2] eqn:Hprobe; [|done].
    apply probe_Ret in Hprobe as [Hloc [n ->]]. intros Hplace.
    destruct (place_Inv k v _ loc t' (set_totalProbes_Inv n _ HInv1) Hloc Hplace)
      as (_ & _ & Hidx' & _).
    simpl in Hidx'. split; [lia|done].
  - destruct (probe k t) as [loc t2|e t2] eqn:Hprobe; [|done].
    apply probe_Ret in Hprobe as [Hloc [n ->]]. intros Hplace.
    destruct (place_Inv k v _ loc t' (set_totalProbes_Inv n _ HInv) Hloc Hplace)
      as (_ & _ & Hidx' & _).
    simpl in Hidx'. split; [done|]. by intros _.
Qed.

(** The ladder grows by at least one half from rung to rung, and from
    its second rung on every capacity is above 2 * 23. *)
Lemma capacity_at_ratio (i : Z) :
  0 ≤ i → i + 1 < Ht.capCount →
  3 * Ht.capacity_at i ≤ 2 * Ht.capacity_at (i + 1) ∧
  23 ≤ Ht.capacity_at (i + 1) ∧
  (i = 0 ∨ 47 ≤ Ht.capacity_at (i + 1)).
Proof.
  intros Hi Hlt. rewrite capCount_value in Hlt.
  assert (Hcases : Forall (λ n, 3 * Ht.capacity_at (Z.of_nat n)
                                  ≤ 2 * Ht.capacity_at (Z.of_nat n + 1) ∧
                                23 ≤ Ht.capacity_at (Z.of_nat n + 1) ∧
                                (Z.of_nat n = 0 ∨ 47 ≤ Ht.capacity_at (Z.of_nat n + 1)))
                     (seq 0 27)).
  { constructor; [split_and!; [vm_compute; discriminate.. | by left]|].
    repeat (constructor; [split_and!; [vm_compute; discriminate.. |
                                        right; vm_compute; discriminate]|]).
    constructor. }
  rewrite Forall_forall in Hcases.
  specialize (Hcases (Z.to_nat i)). rewrite Z2Nat.id in Hcases by lia.
  apply Hcases, elem_of_seq. lia.
Qed.

(** The thresholds the bound holds for: those above the quotient of one
    entry in the 23 slots of the second rung, as the test computes it. *)
Lemma above_one_23rd (alpha : Q) :
  (round_double (1 # 23) < alpha)%Q ↔ load_reached 1 23 alpha = false.
Proof.
  rewrite load_reached_false by lia.
  assert (Heq : (round_double (inject_Z 1 / inject_Z 23) == round_double (1 # 23))%Q)
    by (vm_compute; reflexivity).
  by rewrite Heq.
Qed.

(** With a threshold above that quotient, an [insert] keeps a table below
    the threshold, with or without growth. *)
Lemma insert_fuel_load fuel p t t' :
  Inv t → load_reached 1 23 (resizeAlpha_ t) = false → Ht.load_below t →
  insert_fuel fuel p t = Ret tt t' → Ht.load_below t'.
Proof.
  intros HInv Halpha Hload Hins.
  destruct (insert_fuel_Inv _ _ _ _ HInv Hins) as (HInv' & _ & Ha & Hidx & Hused & _).
  destruct (insert_fuel_index _ _ _ _ HInv Hins) as [Hgrow Hstay].
  destruct (Inv_bounds _ HInv) as (Hu & Hl & Hcap).
  destruct (Inv_bounds _ HInv') as (Hu' & Hl' & Hcap').
  pose proof (Ht.inv_sized _ _ _ _ HInv') as [Hidx' _].
  pose proof (Ht.inv_sized _ _ _ _ HInv) as [Hidx0 _].
  pose proof (needs_resize_spec _ HInv) as Hspec.
  unfold Ht.load_below in *. rewrite Ha.
  set (alpha := resizeAlpha_ t) in *.
  set (c := Z.of_nat (length (table_ t))) in *.
  set (c' := Z.of_nat (length (table_ t'))) in *.
  destruct (needs_resize t) eqn:Hneed.
  - specialize (Hgrow eq_refl).
    destruct (capacity_at_ratio (mIndex_ t)) as (Hratio & H23 & H47); [lia..|].
    pose proof (capacity_at_mono (mIndex_ t + 1) (mIndex_ t')) as Hmono.
    assert (Hnext : Ht.capacity_at (mIndex_ t + 1) ≤ c') by lia.
    destruct (Z.eq_dec (used_ t) 0) as [H0|H0];
      [|destruct (Z.eq_dec (used_ t) 1) as [H1|H1]].
    + apply (load_reached_le _ _ 1 23); [lia..|nia|done].
    + destruct H47 as [Hfirst|H47].
      * apply (load_reached_le _ _ (used_ t) c); [lia..| |done].
        assert (c = 11) by (rewrite Hcap, Hfirst; reflexivity). nia.
      * apply (load_reached_le _ _ 1 23); [lia..|nia|done].
    + apply (load_reached_le _ _ (used_ t) c); [lia..| |done]. nia.
  - specialize (Hstay eq_refl).
    assert (Hlen : c' = c) by (subst c c'; congruence).
    rewrite Hlen. symmetry in Hspec.
    apply (load_reached_le _ _ (used_ t + 1) c); [lia..|nia|done].
Qed.

Lemma run_load ops t t' :
  Inv t → load_reached 1 23 (resizeAlpha_ t) = false → Ht.load_below t →
  run ops t = Ret tt t' → Ht.load_below t'.
Proof.
  revert t. induction ops as [|o ops IH]; intros t HInv Halpha Hload Hrun; simpl in *.
  - by injection Hrun as <-.
  - destruct (run_op o t) as [[] t1|e t1] eqn:Hop; [|done].
    destruct (run_op_Inv _ _ _ HInv Hop) as (HInv1 & _ & Ha1).
    apply (IH t1); [done | by rewrite Ha1 | | done].
    destruct o as [k v|k]; simpl in Hop.
    + exact (insert_fuel_load _ _ _ _ HInv Halpha Hload Hop).
    + destruct (remove_Inv _ _ _ HInv Hop) as (_ & _ & Ha & _ & Hu & Hl).
      unfold Ht.load_below in *. by rewrite Ha, Hu, Hl.
Qed.

(** Every reachable table with such a threshold is below it. *)
Lemma reachable_load_below t :
  reachable t → load_reached 1 23 (resizeAlpha_ t) = false → Ht.load_below t.
Proof.
  intros (alpha & ops & Hrun) Halpha.
  destruct (HashTable_new_Inv alpha) as [HInv0 _].
  destruct (run_Inv _ _ _ HInv0 Hrun) as (_ & _ & Ha). rewrite Ha in Halpha.
  eapply run_load; [exact HInv0 | done | | exact Hrun].
  unfold Ht.load_below. cbn [used_ resizeAlpha_ table_ Ht.HashTable_new].
  rewrite length_replicate.
  apply (load_reached_le _ _ 1 23); [done..|].
  exact Halpha.
Qed.

(** The quotient of one entry in 23 slots is positive. *)
Lemma one_23rd_pos : (0 < round_double (1 # 23))%Q.
Proof. vm_compute. reflexivity. Qed.

(** C2 (load factor), amended: on a reachable table whose threshold is
    above the [double] nearest 1/23, which is what the test computes for
    one entry in the 23 slots of the second rung, after an [insert] that
    returns the test [double(used_) / table_.size() >= resizeAlpha_] is
    false, so that the exact quotient [used_ / table_.size()] is below
    the threshold, a [double]; the table advanced along the ladder
    exactly when the test on [used_ + 1] fired. *)
Theorem load_bound_after_insert p t t' :
  reachable t → (round_double (1 # 23) < resizeAlpha_ t)%Q → insert p t = Ret tt t' →
  Ht.load_below t' ∧
  ((round_double (resizeAlpha_ t') == resizeAlpha_ t')%Q →
   (inject_Z (used_ t') / inject_Z (Z.of_nat (length (table_ t'))) < resizeAlpha_ t')%Q) ∧
  (load_reached (used_ t + 1) (Z.of_nat (length (table_ t))) (resizeAlpha_ t) = true →
   mIndex_ t < mIndex_ t') ∧
  (load_reached (used_ t + 1) (Z.of_nat (length (table_ t))) (resizeAlpha_ t) = false →
   mIndex_ t' = mIndex_ t ∧ length (table_ t') = length (table_ t)).
Proof.
  intros Hreach Halpha Hins. pose proof (reachable_Inv _ Hreach) as HInv.
  pose proof one_23rd_pos as Hpos.
  assert (H0 : (0 <= resizeAlpha_ t)%Q) by lra.
  apply above_one_23rd in Halpha.
  pose proof (reachable_load_below _ Hreach Halpha) as Hload.
  destruct (insert_fuel_index _ _ _ _ HInv Hins) as [Hgrow Hstay].
  destruct (insert_fuel_Inv _ _ _ _ HInv Hins) as (HInv' & _ & Ha & _).
  rewrite (needs_resize_spec _ HInv) in Hgrow, Hstay.
  pose proof (insert_fuel_load _ _ _ _ HInv Halpha Hload Hins) as Hload'.
  destruct (Inv_bounds _ HInv') as (Hu' & Hl' & _).
  split_and!.
  - exact Hload'.
  - intros Hdouble. unfold Ht.load_below in Hload'. rewrite Ha in *.
    apply load_reached_false_exact; [lia | lia | done | done | exact Hload'].
  - intros Hfire. specialize (Hgrow Hfire). lia.
  - intros Hquiet. specialize (Hstay Hquiet). split; [done|].
    destruct (Ht.inv_sized _ _ _ _ HInv') as [_ ->].
    destruct (Ht.inv_sized _ _ _ _ HInv) as [_ ->]. by rewrite Hstay.
Qed.

(** ** Failure of growth *)

Lemma probe_loop_Throws fuel tbl key st loc total e total' :
  probe_loop fuel tbl key st loc total = (Throws e, total') → e ≠ CapacityExhausted.
Proof.
  revert st loc total. induction fuel as [|fuel IH]; intros st loc total; simpl.
  - by intros [= <- _].
  - destruct (loc =? npos); [done|].
    destruct (tbl !! Z.to_nat loc) as [slot|]; [|by intros [= <- _]].
    destruct (stops key slot); [done|].
    destruct (next prober_ st) as [[loc' st']|e'] eqn:Hnext; [apply IH|].
    intros [= <- _]. by rewrite (next_Throws _ _ _ Hnext).
Qed.

Lemma probe_Throw_kind key t e t' :
  probe key t = Throw e t' → e ≠ CapacityExhausted.
Proof.
  unfold Ht.probe. destruct (next prober_ _) as [[l st']|e'] eqn:Hnext.
  - destruct (Ht.probe_loop _ _ _ _ _ _ _ _) as [[r|e'] total] eqn:Hrun; [done|].
    intros [= <- _]. by eapply probe_loop_Throws.
  - intros [= <- _]. by rewrite (next_Throws _ _ _ Hnext).
Qed.

Lemma place_Throw_kind loc p t e t' :
  Ht.place loc p t = Throw e t' → e ≠ CapacityExhausted.
Proof.
  unfold Ht.place. destruct (loc =? npos); [by intros [= <- _]|].
  destruct (table_ t !! Z.to_nat loc) as [[hi|]|]; [done | done | by intros [= <- _]].
Qed.

Lemma insert_fuel_S fuel p t :
  insert_fuel (S fuel) p t =
  match (if needs_resize t then Ht.resize_with (insert_fuel fuel) t else Ret tt t) with
  | Throw e t1 => Throw e t1
  | Ret _ t1 =>
    match probe (fst p) t1 with
    | Throw e t2 => Throw e t2
    | Ret loc t2 => Ht.place loc p t2
    end
  end.
Proof. reflexivity. Qed.

(** An [insert] whose test does not fire cannot run out of rungs. *)
Lemma insert_fuel_quiet_Throw fuel p t e t' :
  needs_resize t = false → insert_fuel fuel p t = Throw e t' → e ≠ CapacityExhausted.
Proof.
  intros Hneed. destruct fuel as [|fuel]; simpl; [by intros [= <- _]|].
  rewrite Hneed.
  destruct (probe (fst p) t) as [loc t2|e2 t2] eqn:Hprobe.
  - apply place_Throw_kind.
  - intros [= <- _]. by eapply probe_Throw_kind.
Qed.

(** A rehash into a vector that the live entries of the old one leave
    below the threshold never asks for a further rung. *)
Lemma rehash_quiet fuel (oldTab : list (option (HashItem K V))) (s s' : HashTable K V) e :
  Inv s → Z.of_nat (length oldTab) < 2 ^ 31 →
  load_reached (used_ s + Z.of_nat (length (Ht.live_items oldTab)))
               (Z.of_nat (length (table_ s))) (resizeAlpha_ s) = false →
  rehash (insert_fuel fuel) oldTab s = Throw e s' → e ≠ CapacityExhausted.
Proof.
  revert s. induction oldTab as [|[[it d]|] oldTab IH]; intros s HInv Hlen Hroom;
    csimpl in *.
  - done.
  - pose proof (live_items_le_occupied oldTab) as Hlive.
    pose proof (occupied_le oldTab) as Hocc.
    destruct d; csimpl in *; [apply IH; [done | lia | done]|].
    destruct (Inv_bounds _ HInv) as (Hu & Hl & Hcap).
    assert (Hneed : needs_resize s = false).
    { rewrite needs_resize_spec by done.
      eapply load_reached_le; [| | | | |exact Hroom]; [lia..|nia]. }
    destruct (insert_fuel fuel it s) as [[] s1|e1 s1] eqn:Hins.
    + destruct (insert_fuel_Inv _ _ _ _ HInv Hins) as (HInv1 & _ & Ha & _ & Hused & _).
      destruct (insert_fuel_index _ _ _ _ HInv Hins) as [_ Hstay].
      specialize (Hstay Hneed).
      destruct (Inv_bounds _ HInv1) as (Hu1 & _ & Hcap1).
      apply (IH s1); [done | lia |]. rewrite Ha, Hcap1, Hstay, <- Hcap.
      eapply load_reached_le; [| | | | |exact Hroom]; [lia..|nia].
    + intros [= <- _]. by eapply insert_fuel_quiet_Throw.
  - apply IH; [done | lia | done].
Qed.

(** The failure of a rehash is the failure of one of the inserts it makes,
    each on a table that satisfies the invariant. *)
Lemma rehash_Throw (ins : K * V → HashTable K V → Res K V unit)
    (P : Error → HashTable K V → Prop) (J : HashTable K V → Prop)
    (oldTab : list (option (HashItem K V))) (s s' : HashTable K V) (e : Error) :
  (∀ p t t1, J t → ins p t = Ret tt t1 → J t1) →
  (∀ p t e t1, J t → ins p t = Throw e t1 → P e t1) →
  J s → rehash ins oldTab s = Throw e s' → P e s'.
Proof.
  intros Hkeeps Hfails. revert s.
  induction oldTab as [|[[it d]|] oldTab IH]; intros s HJ; simpl; [done| |by apply IH].
  destruct d; simpl; [by apply IH|].
  destruct (ins it s) as [[] s1|e1 s1] eqn:Hins.
  - apply IH. by eapply Hkeeps.
  - intros [= -> ->]. by eapply Hfails.
Qed.

(** [probe] and [place] leave the rung as it is, however they end. *)
Lemma probe_mIndex key t : mIndex_ (state_of (probe key t)) = mIndex_ t.
Proof.
  unfold Ht.probe. destruct (next prober_ _) as [[l st']|e]; [|done].
  by destruct (Ht.probe_loop _ _ _ _ _ _ _ _) as [[r|e] total].
Qed.

Lemma place_Throw_state loc p t e t' : Ht.place loc p t = Throw e t' → t' = t.
Proof.
  unfold Ht.place. destruct (loc =? npos); [by intros [= _ <-]|].
  destruct (table_ t !! Z.to_nat loc) as [[hi|]|]; [done | done | by intros [= _ <-]].
Qed.

(** An [insert] that throws leaves the object on the rung it was on or on
    a later one. *)
Lemma insert_fuel_Throw_index fuel p t e t' :
  Inv t → insert_fuel fuel p t = Throw e t' → mIndex_ t ≤ mIndex_ t'.
Proof.
  revert p t e t'. induction fuel as [|fuel IH]; intros p t e t' HInv.
  { intros [= _ <-]. lia. }
  rewrite insert_fuel_S.
  assert (Hrest : ∀ t1, mIndex_ t ≤ mIndex_ t1 →
            match probe (fst p) t1 with
            | Throw e2 t2 => Throw e2 t2
            | Ret loc t2 => Ht.place loc p t2
            end = Throw e t' → mIndex_ t ≤ mIndex_ t').
  { intros t1 Hle. pose proof (probe_mIndex (fst p) t1) as Hsame.
    destruct (probe (fst p) t1) as [loc t2|e2 t2]; simpl in Hsame.
    - intros Hplace. apply place_Throw_state in Hplace as ->. lia.
    - intros [= _ <-]. lia. }
  destruct (needs_resize t) eqn:Hneed; [|by apply Hrest].
  destruct (Ht.resize_with _ t) as [[] t1|e1 t1] eqn:Hres.
  - destruct (resize_with_Inv _ _ _ (insert_fuel_Inv fuel) HInv Hres) as (_ & _ & _ & Hidx & _).
    apply Hrest. lia.
  - intros [= -> ->]. unfold Ht.resize_with in Hres.
    destruct (Z.leb_spec Ht.capCount (add64 (mIndex_ t) 1)) as [_|Hlt];
      [injection Hres as _ <-; lia|].
    pose proof (Ht.inv_sized _ _ _ _ HInv) as [Hidx _].
    assert (Hlt' : mIndex_ t + 1 < Ht.capCount).
    { unfold add64 in Hlt. rewrite to_size_t_small in Hlt; [done|].
      rewrite capCount_value in Hidx. unfold SIZE_T_MODULUS. lia. }
    destruct (fresh_table_Inv t (proj1 Hidx) Hlt') as (HInv0 & _ & Hidx0 & _).
    enough (mIndex_ t + 1 ≤ mIndex_ t') by lia.
    apply (rehash_Throw (insert_fuel fuel) (λ _ s, mIndex_ t + 1 ≤ mIndex_ s)
             (λ s, Inv s ∧ mIndex_ t + 1 ≤ mIndex_ s) _ _ _ _) in Hres.
    + exact Hres.
    + intros q s s1 [HInvs Hs] Hq.
      destruct (insert_fuel_Inv _ _ _ _ HInvs Hq) as (? & _ & _ & ? & _). split; [done|lia].
    + intros q s e2 s1 [HInvs Hs] Hq. pose proof (IH _ _ _ _ HInvs Hq). lia.
    + split; [done|lia].
Qed.

(** C5 (exhausted ladder), amended: when an [insert] on a table that
    satisfies the invariant fails with CapacityExhausted, the whole object
    is left as it was exactly if the table was on the last rung of the
    ladder, where [resize] throws before it changes anything; and it is
    left as it was whenever the table was below its threshold, which
    every reachable table whose threshold is above the [double] nearest
    1/23 is, by [reachable_Inv] and [reachable_load_below]. *)
Theorem exhaustion_leaves_table p t t' :
  Inv t → insert p t = Throw CapacityExhausted t' →
  (Ht.load_below t → t' = t) ∧
  (t' = t ↔ Ht.capCount ≤ mIndex_ t + 1).
Proof.
  intros HInv. unfold Ht.insert. rewrite insert_fuel_S.
  pose proof (Ht.inv_sized _ _ _ _ HInv) as [Hidx _].
  assert (Hadd : add64 (mIndex_ t) 1 = mIndex_ t + 1).
  { unfold add64. apply to_size_t_small. rewrite capCount_value in Hidx.
    unfold SIZE_T_MODULUS. lia. }
  destruct (needs_resize t) eqn:Hneed.
  2:{ destruct (probe (fst p) t) as [loc t2|e2 t2] eqn:Hprobe.
      - intros Hplace. by apply place_Throw_kind in Hplace.
      - intros [= He _]. by apply probe_Throw_kind in Hprobe. }
  unfold Ht.resize_with. rewrite Hadd.
  destruct (Z.leb_spec Ht.capCount (mIndex_ t + 1)) as [Hlast|Hlt];
    [by intros [= <-]|].
  destruct (rehash _ (table_ t) _) as [[] t1|e1 t1] eqn:Hrehash.
  { destruct (probe (fst p) t1) as [loc t2|e2 t2] eqn:Hprobe.
    - intros Hplace. by apply place_Throw_kind in Hplace.
    - intros [= He _]. by apply probe_Throw_kind in Hprobe. }
  intros [= -> ->].
  destruct (fresh_table_Inv t (proj1 Hidx) Hlt) as (HInv0 & _ & Hidx0 & Hused0 & _).
  rewrite Hadd in *.
  split.
  - intros Hload. exfalso.
    destruct (Inv_bounds _ HInv) as (Hu & Hl & Hcap).
    destruct (Inv_bounds _ HInv0) as (_ & Hl0 & Hcap0).
    apply (rehash_quiet _ _ _ _ _ HInv0) in Hrehash; [done | lia |].
    pose proof (capacity_at_step (mIndex_ t) (proj1 Hidx) Hlt) as Hstep.
    pose proof (live_items_le_occupied (table_ t)) as Hlive.
    unfold Ht.load_below in Hload.
    rewrite (Ht.inv_used _ _ _ _ HInv) in Hload, Hu.
    rewrite Hused0. change (resizeAlpha_ (fresh_table _ t)) with (resizeAlpha_ t).
    eapply load_reached_le; [| | | | |exact Hload]; [lia..|].
    rewrite Hcap0, Hidx0. nia.
  - split; [|lia]. intros ->. exfalso.
    assert (mIndex_ t + 1 ≤ mIndex_ t); [|lia].
    rewrite <- Hidx0 at 1.
    apply (rehash_Throw (insert_fuel (length Ht.CAPACITIES))
             (λ _ s, mIndex_ (fresh_table (Ht.capacity_at (mIndex_ t + 1)) t) ≤ mIndex_ s)
             (λ s, Inv s ∧ mIndex_ (fresh_table (Ht.capacity_at (mIndex_ t + 1)) t)
                           ≤ mIndex_ s) _ _ _ _) in Hrehash.
    + exact Hrehash.
    + intros q s s1 [HInvs Hs] Hq.
      destruct (insert_fuel_Inv _ _ _ _ HInvs Hq) as (? & _ & _ & ? & _). split; [done|lia].
    + intros q s e2 s1 [HInvs Hs] Hq.
      pose proof (insert_fuel_Throw_index _ _ _ _ _ HInvs Hq). lia.
    + split; [done|lia].
Qed.

(** ** The recursion bounds of the embedding are never reached *)

Lemma probe_no_OutOfFuel key t t' :
  Ht.well_sized t → probe key t ≠ Throw OutOfFuel t'.
Proof.
  intros [Hidx Hlen] Hthrow. apply probe_Throw in Hthrow.
  destruct (BaseProber_or_not prober_) as [HP|HP].
  - unfold Ht.probe_loc in Hthrow. by rewrite HP in Hthrow.
  - destruct (probe_loc_total key t HP Hidx Hlen) as [r Hr]. congruence.
Qed.

Lemma rehash_no_OutOfFuel (ins : K * V → HashTable K V → Res K V unit)
    (bound : Z) (oldTab : list (option (HashItem K V))) (s s' : HashTable K V) :
  (∀ p t t1, Inv t → bound ≤ mIndex_ t → ins p t ≠ Throw OutOfFuel t1) →
  (∀ p t t1, Inv t → ins p t = Ret tt t1 → Inv t1 ∧ mIndex_ t ≤ mIndex_ t1) →
  Inv s → bound ≤ mIndex_ s →
  rehash ins oldTab s ≠ Throw OutOfFuel s'.
Proof.
  intros Hnever Hkeeps. revert s.
  induction oldTab as [|[[it d]|] oldTab IH]; intros s HInv Hbound; simpl; [done| |by apply IH].
  destruct d; simpl; [by apply IH|].
  destruct (ins it s) as [[] s1|e s1] eqn:Hins.
  - destruct (Hkeeps _ _ _ HInv Hins) as [HInv1 Hidx1]. apply IH; [done|lia].
  - intros [= -> ->]. by eapply Hnever.
Qed.

(** [insert_fuel] does not run out of fuel when given more than the number
    of rungs above the current one. *)
Lemma insert_fuel_enough fuel p t t' :
  Inv t → Ht.capCount - mIndex_ t < Z.of_nat fuel →
  insert_fuel fuel p t ≠ Throw OutOfFuel t'.
Proof.
  revert p t t'. induction fuel as [|fuel IH]; intros p t t' HInv Hfuel.
  { destruct (Ht.inv_sized _ _ _ _ HInv) as [Hidx _]. lia. }
  rewrite insert_fuel_S.
  assert (Hplace : ∀ t1, Inv t1 →
    match probe (fst p) t1 with
    | Throw e t2 => Throw e t2
    | Ret loc t2 => Ht.place loc p t2
    end ≠ Throw OutOfFuel t').
  { intros t1 HInv1. destruct (probe (fst p) t1) as [loc t2|e t2] eqn:Hprobe.
    - unfold Ht.place. destruct (loc =? npos); [done|].
      by destruct (table_ t2 !! Z.to_nat loc) as [[hi|]|].
    - intros [= -> ->].
      by apply (probe_no_OutOfFuel _ _ _ (Ht.inv_sized _ _ _ _ HInv1)) in Hprobe. }
  destruct (needs_resize t) eqn:Hneed; [|by apply Hplace].
  destruct (Ht.resize_with _ t) as [[] t1|e t1] eqn:Hres.
  - apply Hplace.
    by destruct (resize_with_Inv _ _ _ (insert_fuel_Inv fuel) HInv Hres) as [? _].
  - intros [= -> ->]. unfold Ht.resize_with in Hres.
    destruct (Z.leb_spec Ht.capCount (add64 (mIndex_ t) 1)) as [|Hlt]; [done|].
    destruct (Ht.inv_sized _ _ _ _ HInv) as [Hidx _].
    assert (Hlt' : mIndex_ t + 1 < Ht.capCount).
    { unfold add64 in Hlt. rewrite to_size_t_small in Hlt; [done|].
      rewrite capCount_value in Hidx. unfold SIZE_T_MODULUS. lia. }
    destruct (fresh_table_Inv t (proj1 Hidx) Hlt') as (HInv0 & _ & Hidx0 & _).
    revert Hres. apply (rehash_no_OutOfFuel _ (mIndex_ t + 1)); [| |done|lia].
    + intros q s s1 HInvs Hs. apply IH; [done|lia].
    + intros q s s1 HInvs Hq.
      by destruct (insert_fuel_Inv _ _ _ _ HInvs Hq) as (? & _ & _ & ? & _).
Qed.

(** The public [insert] never fails for lack of fuel. *)
Theorem insert_no_OutOfFuel p t t' :
  Inv t → insert p t ≠ Throw OutOfFuel t'.
Proof.
  intros HInv. apply insert_fuel_enough; [done|].
  destruct (Ht.inv_sized _ _ _ _ HInv) as [Hidx _].
  rewrite capCount_value. change (length Ht.CAPACITIES) with 28%nat. lia.
Qed.

(** ** Tables on the last rungs of the ladder *)

(** On the last rung an [insert] whose test fires fails before it touches
    anything. *)
Lemma insert_at_last_rung p t :
  Ht.capCount ≤ add64 (mIndex_ t) 1 → needs_resize t = true →
  insert p t = Throw CapacityExhausted t.
Proof.
  intros Hlast Hneed. unfold Ht.insert. rewrite insert_fuel_S, Hneed.
  unfold Ht.resize_with. by rewrite (proj2 (Z.leb_le _ _) Hlast).
Qed.

(** On the last rung but one, with a threshold so small that one entry
    fills the last rung, the growth is entered, the first live entry is
    reinserted, and this nested [insert] asks for a rung that does not
    exist: the exception leaves the object with the empty vector of the last
    rung. *)
Lemma insert_nested_exhaustion p t hi rest :
  table_ t = Some hi :: rest → deleted hi = false →
  needs_resize t = true →
  add64 (mIndex_ t) 1 < Ht.capCount →
  Ht.capCount ≤ add64 (add64 (mIndex_ t) 1) 1 →
  load_reached (add64 0 1) (Ht.capacity_at (add64 (mIndex_ t) 1)) (resizeAlpha_ t) = true →
  0 ≤ Ht.capacity_at (add64 (mIndex_ t) 1) →
  insert p t =
  Throw CapacityExhausted (fresh_table (Ht.capacity_at (add64 (mIndex_ t) 1)) t).
Proof.
  intros Htable Hd Hneed Hfirst Hlast Hload Hcap.
  unfold Ht.insert. rewrite insert_fuel_S, Hneed.
  unfold Ht.resize_with. rewrite (proj2 (Z.leb_gt _ _) Hfirst).
  rewrite Htable. cbn [rehash]. rewrite Hd. cbn [negb].
  change (length Ht.CAPACITIES) with (S 27). rewrite insert_fuel_S.
  assert (Hneed' : needs_resize (fresh_table (Ht.capacity_at (add64 (mIndex_ t) 1)) t) = true).
  { unfold Ht.needs_resize, fresh_table. cbn [used_ table_ resizeAlpha_].
    by rewrite length_replicate, Z2Nat.id. }
  rewrite Hneed'. unfold Ht.resize_with at 1.
  cbn [mIndex_ fresh_table]. by rewrite (proj2 (Z.leb_le _ _) Hlast).
Qed.

Lemma live_items_tombstones (n : nat) hi tbl :
  deleted hi = true →
  Ht.live_items (replicate n (Some hi) ++ tbl) = Ht.live_items tbl.
Proof.
  intros Hd. induction n as [|n IH]; [done|]. unfold Ht.live_items in *.
  csimpl. by rewrite Hd.
Qed.

Lemma occupied_tombstones (n : nat) hi tbl :
  Ht.occupied (replicate n (Some hi) ++ tbl) = (n + Ht.occupied tbl)%nat.
Proof.
  unfold Ht.occupied. induction n as [|n IH]; [done|]. csimpl. by rewrite IH.
Qed.

(** A vector of tombstones with one null slot at its end, on rung [idx]. *)
Lemma tombstones_Inv (n : nat) hi (alpha : Q) (total idx used : Z) :
  deleted hi = true → 0 ≤ idx < Ht.capCount →
  Z.of_nat n + 1 = Ht.capacity_at idx → used = Z.of_nat n →
  Inv {| table_ := replicate n (Some hi) ++ [None];
         resizeAlpha_ := alpha; totalProbes_ := total;
         mIndex_ := idx; count_ := 0; used_ := used |}.
Proof.
  intros Hd Hidx Hcap Hused.
  assert (Habs : Ht.abs {| table_ := replicate n (Some hi) ++ [None];
         resizeAlpha_ := alpha; totalProbes_ := total;
         mIndex_ := idx; count_ := 0; used_ := used |} = (∅ : gmap K V)).
  { unfold Ht.abs. cbn [table_]. by rewrite live_items_tombstones. }
  constructor.
  - split; [done|]. cbn [table_ mIndex_]. rewrite length_app, length_replicate.
    cbn [length]. lia.
  - intros i hi' Hi Hd'. cbn [table_] in Hi.
    apply lookup_app_Some in Hi as [Hi|[_ Hi]].
    + apply lookup_replicate in Hi as [[= <-] _]. congruence.
    + by destruct (i - length (replicate n (Some hi)))%nat as [|[|?]].
  - by rewrite Habs, map_size_empty.
  - cbn [table_ used_]. rewrite occupied_tombstones. unfold Ht.occupied. csimpl. lia.
Qed.

End HashTableFacts.

(** * [reportAll] in the two headers *)

Section ReportFacts.
Context {K V : Type}.
Implicit Types (t : HashTable K V) (k : K) (v : V).

Lemma elem_of_omap_imap {A B : Type} (f : nat → A → option B) (l : list A) (y : B) :
  y ∈ omap id (imap f l) ↔ ∃ (i : nat) (x : A), l !! i = Some x ∧ f i x = Some y.
Proof.
  rewrite list_elem_of_omap. split.
  - intros (o & Hin & Ho). apply list_elem_of_lookup in Hin as [i Hi].
    rewrite list_lookup_imap in Hi. destruct (l !! i) as [x|] eqn:Hx; [|done].
    injection Hi as <-. eauto.
  - intros (i & x & Hx & Hy). exists (Some y). split; [|done].
    apply list_elem_of_lookup. exists i. by rewrite list_lookup_imap, Hx, <- Hy.
Qed.

(** Lines produced slot by slot, each tagged with its slot index, come out
    in ascending order of the index. *)
Lemma omap_imap_ascending {A : Type} (f : nat → A → option (Z * K * V))
    (l : list A) (o : nat) :
  (∀ (i : nat) x y, f i x = Some y → y.1.1 = Z.of_nat (o + i)) →
  StronglySorted Z.lt (omap id (imap f l)).*1.*1.
Proof.
  revert f o. induction l as [|x l IH]; intros f o Hidx; csimpl; [constructor|].
  assert (Htail : StronglySorted Z.lt (omap id (imap (f ∘ S) l)).*1.*1).
  { apply (IH _ (S o)). intros i x' y Hy. rewrite (Hidx _ _ _ Hy). f_equal. lia. }
  destruct (f 0%nat x) as [y|] eqn:Hy; csimpl; [|done].
  constructor; [done|]. apply Forall_forall. intros z Hz.
  apply list_elem_of_fmap in Hz as (yz & -> & Hz).
  apply list_elem_of_fmap in Hz as (y' & -> & Hz).
  apply elem_of_omap_imap in Hz as (i & x' & _ & Hy').
  rewrite (Hidx _ _ _ Hy), (Hidx _ _ _ Hy'). lia.
Qed.

(** X11 (reportAll of part_000): [reportAll] of part_000 prints exactly
    the live entries, each with its slot index, in ascending slot order. *)
Lemma Part000_reportAll_live t :
  (∀ (i : Z) k v,
     (i, k, v) ∈ Part000.reportAll t ↔
     ∃ j : nat, i = Z.of_nat j ∧ table_ t !! j = Some (Some (mkHashItem (k, v) false))) ∧
  StronglySorted Z.lt (Part000.reportAll t).*1.*1.
Proof.
  split.
  - intros i k v. unfold Part000.reportAll. rewrite elem_of_omap_imap. split.
    + intros (j & [[[k' v'] d]|] & Hj & Hline); simpl in Hline; [|done].
      destruct d; simpl in Hline; [done|]. injection Hline as <- <- <-. eauto.
    + intros (j & -> & Hj). exists j, (Some (mkHashItem (k, v) false)). done.
  - apply (omap_imap_ascending _ _ 0). intros i [hi|] y; [|done].
    destruct (negb (deleted hi)); [|done]. by intros [= <-].
Qed.

(** X12 (reportAll of ht.h): [reportAll] of ht.h prints every occupied
    slot, tombstoned or not. *)
Lemma Ht_reportAll_occupied t :
  (∀ (i : Z) k v,
     (i, k, v) ∈ Ht.reportAll t ↔
     ∃ (j : nat) (d : bool),
       i = Z.of_nat j ∧ table_ t !! j = Some (Some (mkHashItem (k, v) d))) ∧
  StronglySorted Z.lt (Ht.reportAll t).*1.*1.
Proof.
  split.
  - intros i k v. unfold Ht.reportAll. rewrite elem_of_omap_imap. split.
    + intros (j & [[[k' v'] d]|] & Hj & Hline); simpl in Hline; [|done].
      injection Hline as <- <- <-. eauto.
    + intros (j & d & -> & Hj). exists j, (Some (mkHashItem (k, v) d)). done.
  - apply (omap_imap_ascending _ _ 0). intros i [hi|] y; [|done]. by intros [= <-].
Qed.
End ReportFacts.


(** * The claims at concrete tables *)

Section Instances.
Import Examples.

Local Abbreviation Inv := (Ht.Inv hash_id Z.eqb LinearProber (V := Z)).
Local Abbreviation reachable := (Ht.reachable hash_id Z.eqb LinearProber (V := Z)).

Lemma tombstone_table_reachable : reachable tombstone_table.
Proof. exists (2 # 5)%Q, colliding_ops. reflexivity. Qed.

Lemma find_after_insert_witness :
  ∃ (i : nat) t',
    table_ tombstone_table !! i = Some (Some (mkHashItem (22, 3) false)) ∧
    Ht.probe hash_id Z.eqb LinearProber 22 tombstone_table = Ret (Z.of_nat i) t' ∧
    ht_find 22 tombstone_table = Ret (Some (22, 3)) t'.
Proof.
  apply (find_after_insert hash_id Z.eqb LinearProber Z.eqb_eq (2 # 5)
           [Ht.OpInsert 0 1; Ht.OpInsert 11 2] [Ht.OpRemove 11] 22 3 tombstone_table).
  - reflexivity.
  - intros o Ho. apply list_elem_of_singleton in Ho as ->. simpl. lia.
Defined.

Lemma growth_preserves_entries_witness :
  (∀ k o t1, ht_find k tombstone_table = Ret o t1 →
     ∃ t2, ht_find k grown_table = Ret o t2) ∧
  Ht.size grown_table = Ht.size tombstone_table ∧
  Ht.no_tombstone (table_ grown_table) ∧ used_ grown_table = count_ grown_table ∧
  mIndex_ tombstone_table < mIndex_ grown_table.
Proof.
  apply (growth_preserves_entries hash_id Z.eqb LinearProber Z.eqb_eq 28
           tombstone_table grown_table).
  - exact tombstone_table_reachable.
  - reflexivity.
Defined.

Lemma remove_visibility_witness :
  ∃ t' t2, ht_remove 22 tombstone_table = Ret tt t' ∧ ht_find 22 t' = Ret None t2 ∧
           Ht.size t' = Ht.size tombstone_table - 1 ∧ used_ t' = used_ tombstone_table.
Proof.
  destruct (remove_visibility hash_id Z.eqb LinearProber Z.eqb_eq 22 tombstone_table
              tombstone_table_reachable) as [Hpresent _].
  eapply (Hpresent 3). reflexivity.
Defined.

Lemma insert_skips_tombstones_witness :
  ∃ loc : nat,
    (∀ j : nat, j ≠ loc → table_ reinserted_table !! j = table_ tombstone_table !! j) ∧
    (∀ (j : nat) hi, table_ tombstone_table !! j = Some (Some hi) → deleted hi = true →
       table_ reinserted_table !! j = Some (Some hi)) ∧
    ((table_ tombstone_table !! loc = Some None ∧
      table_ reinserted_table !! loc = Some (Some (mkHashItem (11, 7) false)) ∧
      used_ reinserted_table = used_ tombstone_table + 1 ∧
      count_ reinserted_table = count_ tombstone_table + 1)
     ∨ (∃ v0, table_ tombstone_table !! loc = Some (Some (mkHashItem (11, v0) false)) ∧
              table_ reinserted_table !! loc = Some (Some (mkHashItem (11, 7) false)) ∧
              used_ reinserted_table = used_ tombstone_table ∧
              count_ reinserted_table = count_ tombstone_table)) ∧
    (∀ t1, ht_find 11 tombstone_table = Ret None t1 →
       table_ tombstone_table !! loc = Some None).
Proof.
  destruct (insert_skips_tombstones hash_id Z.eqb LinearProber Z.eqb_eq 11 7
              tombstone_table reinserted_table tombstone_table_reachable)
    as (Hquiet & _ & _); [reflexivity|].
  apply Hquiet. reflexivity.
Defined.

Lemma load_bound_after_insert_witness :
  Ht.load_below half_table ∧
  ((round_double (resizeAlpha_ half_table) == resizeAlpha_ half_table)%Q →
   (inject_Z (used_ half_table) / inject_Z (Z.of_nat (length (table_ half_table)))
    < resizeAlpha_ half_table)%Q) ∧
  (load_reached (used_ (ht_new (1 # 2)) + 1) (Z.of_nat (length (table_ (ht_new (1 # 2)))))
     (resizeAlpha_ (ht_new (1 # 2))) = true →
   mIndex_ (ht_new (1 # 2)) < mIndex_ half_table) ∧
  (load_reached (used_ (ht_new (1 # 2)) + 1) (Z.of_nat (length (table_ (ht_new (1 # 2)))))
     (resizeAlpha_ (ht_new (1 # 2))) = false →
   mIndex_ half_table = mIndex_ (ht_new (1 # 2)) ∧
   length (table_ half_table) = length (table_ (ht_new (1 # 2)))).
Proof.
  apply (load_bound_after_insert hash_id Z.eqb LinearProber Z.eqb_eq (5, 5)
           (ht_new (1 # 2)) half_table).
  - exists (1 # 2)%Q, []. reflexivity.
  - vm_compute. reflexivity.
  - vm_compute. reflexivity.
Defined.

(** Reinserting the entries of a vector of null pointers does nothing. *)
Lemma rehash_nulls (ins : Z * Z → HashTable Z Z → Res Z Z unit) (n : nat)
    (t : HashTable Z Z) :
  rehash ins (replicate n None) t = Ret tt t.
Proof. induction n as [|n IH]; [done|]. simpl. exact IH. Qed.

(** With a threshold the test reaches for one entry in 23 slots, the
    first [insert] into a fresh table fires the test on 1/11, grows the
    table to 23 slots, stores the entry, and returns with the test on
    [used_] reached. *)
Lemma first_insert_reaches_load (alpha : Q) :
  load_reached 1 23 alpha = true →
  ∃ t', ht_insert (0, 0) (ht_new alpha) = Ret tt t' ∧
        used_ t' = 1 ∧ length (table_ t') = 23%nat ∧ ¬ Ht.load_below t'.
Proof.
  intros H23.
  assert (H11 : load_reached 1 11 alpha = true).
  { apply (load_reached_mono 1 23); [lia..|done]. }
  unfold Ht.insert. rewrite insert_fuel_S.
  change (Ht.needs_resize (ht_new alpha)) with (load_reached 1 11 alpha). rewrite H11.
  unfold Ht.resize_with. change (Ht.capCount <=? add64 (mIndex_ (ht_new alpha)) 1) with false.
  cbv iota. change (table_ (ht_new alpha)) with (replicate 11 (None : option (HashItem Z Z))).
  rewrite rehash_nulls.
  eexists. split; [vm_compute; reflexivity|]. split_and!; [reflexivity..|].
  unfold Ht.load_below. cbn [used_ table_ resizeAlpha_ length Z.of_nat].
  change (Z.of_nat 23) with 23. congruence.
Qed.

(** Counterexample to C2 as stated, and the reason for the bound of the
    amended claim: with the threshold [one_23rd], the [double] nearest
    1/23, the first [insert] into a fresh table grows it to 23 slots and
    returns with [double(used_) / table_.size()] equal to the threshold,
    not below it, and with the exact quotient 1/23 above the threshold;
    and the test is reached after the first [insert] with every threshold
    up to [one_23rd]. *)
Lemma load_bound_fails_up_to_one_23rd :
  (one_23rd == round_double (1 # 23))%Q ∧
  ht_insert (0, 0) (ht_new one_23rd) = Ret tt one_23rd_table ∧
  used_ one_23rd_table = 1 ∧ length (table_ one_23rd_table) = 23%nat ∧
  ¬ Ht.load_below one_23rd_table ∧
  (resizeAlpha_ one_23rd_table < 1 # 23)%Q ∧
  (∀ alpha : Q, (alpha <= round_double (1 # 23))%Q →
     ∃ t', ht_insert (0, 0) (ht_new alpha) = Ret tt t' ∧ ¬ Ht.load_below t').
Proof.
  split_and!; [vm_compute; reflexivity.. | | |].
  - unfold Ht.load_below. vm_compute. discriminate.
  - vm_compute. reflexivity.
  - intros alpha Halpha.
    destruct (first_insert_reaches_load alpha) as (t' & Hins & _ & _ & Hload).
    + destruct (load_reached 1 23 alpha) eqn:H23; [done|].
      apply above_one_23rd in H23. lra.
    + eauto.
Qed.

(** The table [full_last_rung] satisfies the invariant. *)
Lemma full_last_rung_Inv : Inv full_last_rung.
Proof.
  apply (tombstones_Inv hash_id Z.eqb LinearProber (Z.to_nat 1685759166) tombstone
           1%Q 0 27 1685759166).
  - reflexivity.
  - rewrite capCount_value. lia.
  - rewrite Z2Nat.id by lia. reflexivity.
  - rewrite Z2Nat.id; lia.
Qed.

Lemma full_last_rung_length :
  Z.of_nat (length (table_ full_last_rung)) = 1685759167.
Proof.
  destruct (Inv_bounds _ _ _ _ full_last_rung_Inv) as (_ & _ & ->). reflexivity.
Qed.

Lemma full_last_rung_load_below : Ht.load_below full_last_rung.
Proof.
  unfold Ht.load_below. rewrite full_last_rung_length.
  change (used_ full_last_rung) with 1685759166.
  change (resizeAlpha_ full_last_rung) with 1%Q.
  vm_compute. reflexivity.
Qed.

Lemma full_last_rung_exhausted (p : Z * Z) :
  ht_insert p full_last_rung = Throw CapacityExhausted full_last_rung.
Proof.
  apply insert_at_last_rung.
  - discriminate.
  - rewrite (needs_resize_spec _ _ _ _ full_last_rung_Inv), full_last_rung_length.
    change (used_ full_last_rung) with 1685759166.
    change (resizeAlpha_ full_last_rung) with 1%Q.
    vm_compute. reflexivity.
Qed.

Lemma exhaustion_leaves_table_witness :
  Inv full_last_rung ∧
  ht_insert (5, 5) full_last_rung = Throw CapacityExhausted full_last_rung ∧
  (Ht.load_below full_last_rung → full_last_rung = full_last_rung) ∧
  (full_last_rung = full_last_rung ↔ Ht.capCount ≤ mIndex_ full_last_rung + 1).
Proof.
  split_and!; [exact full_last_rung_Inv | exact (full_last_rung_exhausted (5, 5)) | |];
    apply (exhaustion_leaves_table hash_id Z.eqb LinearProber Z.eqb_eq (5, 5)
             full_last_rung full_last_rung full_last_rung_Inv
             (full_last_rung_exhausted (5, 5))).
Defined.

(** ** The way up the ladder with a tiny threshold *)

Lemma replicate_capacity (j : Z) :
  0 ≤ j < Ht.capCount →
  replicate (Z.to_nat (Ht.capacity_at j)) (None : option (HashItem Z Z))
  = None :: replicate (Z.to_nat (Ht.capacity_at j - 1)) None.
Proof.
  intros Hj. pose proof (capacity_at_range j Hj).
  replace (Z.to_nat (Ht.capacity_at j)) with (S (Z.to_nat (Ht.capacity_at j - 1))) by lia.
  done.
Qed.

Lemma capacity_at_top (j : Z) :
  0 ≤ j < Ht.capCount → 11 ≤ Ht.capacity_at j ≤ 1685759167.
Proof.
  intros Hj. pose proof (capacity_at_range j Hj).
  pose proof (capacity_at_mono j 27) as Hmono. rewrite capCount_value in *.
  change (Ht.capacity_at 27) with 1685759167 in Hmono. lia.
Qed.

Lemma add64_small (a b : Z) : 0 ≤ a < 2 ^ 31 → 0 ≤ b < 2 ^ 31 → add64 a b = a + b.
Proof. intros Ha Hb. unfold add64. apply to_size_t_small. unfold SIZE_T_MODULUS. lia. Qed.

(** With [tiny_alpha] the test at the head of [insert] always fires. *)
Lemma tiny_alpha_fires (t : HashTable Z Z) :
  resizeAlpha_ t = tiny_alpha → 0 ≤ used_ t < 2 ^ 31 →
  0 < Z.of_nat (length (table_ t)) ≤ 1685759167 →
  Ht.needs_resize t = true.
Proof.
  intros Ha Hu Hl. unfold Ht.needs_resize. rewrite Ha, add64_small by lia.
  apply (load_reached_mono 1 1685759167); [lia..|].
  vm_compute. reflexivity.
Qed.

(** The probe for key 0 ends at slot 0 when that slot stops it. *)
Lemma probe_slot0 (t : HashTable Z Z) slot rest :
  0 ≤ mIndex_ t < Ht.capCount → table_ t = slot :: rest →
  Ht.stops Z.eqb 0 slot = true →
  Ht.probe hash_id Z.eqb LinearProber 0 t
  = Ret 0 (set_totalProbes (add64 (totalProbes_ t) 1) t).
Proof.
  intros Hidx Htable Hstop. pose proof (capacity_at_range _ Hidx) as Hcap.
  unfold Ht.probe. change (to_size_t (hash_id 0)) with 0. rewrite Z.mod_0_l by lia.
  unfold init, next, Prober_init, LinearProber_next. cbn [m_ numProbes_ start_].
  destruct (Z.leb_spec (Ht.capacity_at (mIndex_ t)) 0) as [|_]; [lia|].
  change (add64 0 0) with 0. rewrite Z.mod_0_l by lia.
  unfold Ht.probe_fuel. cbn [Ht.probe_loop]. change (0 =? npos) with false.
  rewrite Htable. change ((slot :: rest) !! Z.to_nat 0) with (Some slot).
  cbv iota. by rewrite Hstop.
Qed.

Lemma length_single_item hi (j n : Z) :
  0 ≤ j < Ht.capCount →
  Z.of_nat (length (table_ (single_item hi j n))) = Ht.capacity_at j.
Proof.
  intros Hj. pose proof (capacity_at_range j Hj).
  unfold single_item. cbn [table_ length]. rewrite length_replicate. lia.
Qed.

(** [insert] into the empty table of rung [j]: one growth, then the entry
    goes to slot 0 of rung [j + 1]. *)
Lemma insert_into_empty (fuel : nat) (j n v : Z) :
  0 ≤ j → j + 1 < Ht.capCount → 0 ≤ n < 2 ^ 30 →
  Ht.insert_fuel hash_id Z.eqb LinearProber (S fuel) (0, v) (empty_rung j n)
  = Ret tt (single_item (mkHashItem (0, v) false) (j + 1) (n + 1)).
Proof.
  intros Hj Hj1 Hn. rewrite capCount_value in Hj1.
  pose proof (capacity_at_top j) as Hcap. rewrite capCount_value in Hcap.
  pose proof (capacity_at_top (j + 1)) as Hcap1. rewrite capCount_value in Hcap1.
  rewrite insert_fuel_S.
  rewrite tiny_alpha_fires; [|done|cbn [used_ empty_rung]; lia|].
  2:{ unfold empty_rung. cbn [table_]. rewrite length_replicate. lia. }
  unfold Ht.resize_with, fresh_table, empty_rung.
  cbn [mIndex_ table_ resizeAlpha_ totalProbes_ fst].
  rewrite (add64_small j 1) by lia.
  destruct (Z.leb_spec Ht.capCount (j + 1)) as [Hle|_].
  { rewrite capCount_value in Hle. lia. }
  rewrite rehash_nulls.
  rewrite replicate_capacity by (rewrite capCount_value; lia).
  erewrite probe_slot0; [| cbn [mIndex_]; rewrite capCount_value; lia | reflexivity | reflexivity].
  unfold Ht.place, set_totalProbes. cbn [table_ totalProbes_]. change (0 =? npos) with false.
  cbv iota. cbn [Z.to_nat lookup list_lookup]. unfold store_new, single_item.
  cbn [table_ resizeAlpha_ totalProbes_ mIndex_ count_ used_ deleted].
  rewrite (add64_small n 1) by lia. reflexivity.
Qed.

(** [remove(0)] on the table that holds key 0 in slot 0. *)
Lemma remove_single_item (j n v0 : Z) :
  0 ≤ j < Ht.capCount → 0 ≤ n < 2 ^ 30 →
  ht_remove 0 (single_item (mkHashItem (0, v0) false) j n)
  = Ret tt (single_item (mkHashItem (0, v0) true) j (n + 1)).
Proof.
  intros Hj Hn. unfold Ht.remove, Ht.internalFind.
  erewrite probe_slot0; [| exact Hj | reflexivity | reflexivity].
  change (0 =? npos) with false. cbv iota.
  unfold set_totalProbes, single_item. cbn [table_ totalProbes_ Z.to_nat lookup list_lookup].
  unfold mark_deleted. cbn [table_ resizeAlpha_ totalProbes_ mIndex_ count_ used_ deleted item].
  rewrite (add64_small n 1) by lia. reflexivity.
Qed.

(** [insert] into the table whose only item is a tombstone: one growth,
    which drops the tombstone. *)
Lemma insert_into_tombstone (fuel : nat) (j n v0 v : Z) :
  0 ≤ j → j + 1 < Ht.capCount → 0 ≤ n < 2 ^ 30 →
  Ht.insert_fuel hash_id Z.eqb LinearProber (S fuel) (0, v)
    (single_item (mkHashItem (0, v0) true) j n)
  = Ret tt (single_item (mkHashItem (0, v) false) (j + 1) (n + 1)).
Proof.
  intros Hj Hj1 Hn. rewrite capCount_value in Hj1.
  pose proof (capacity_at_top j) as Hcap. rewrite capCount_value in Hcap.
  pose proof (capacity_at_top (j + 1)) as Hcap1. rewrite capCount_value in Hcap1.
  rewrite insert_fuel_S.
  rewrite tiny_alpha_fires; [|done|cbn [used_ single_item]; lia|].
  2:{ rewrite length_single_item by (rewrite capCount_value; lia). lia. }
  unfold Ht.resize_with, fresh_table, single_item.
  cbn [mIndex_ table_ resizeAlpha_ totalProbes_ fst].
  rewrite (add64_small j 1) by lia.
  destruct (Z.leb_spec Ht.capCount (j + 1)) as [Hle|_].
  { rewrite capCount_value in Hle. lia. }
  cbn [rehash deleted negb]. rewrite rehash_nulls.
  rewrite replicate_capacity by (rewrite capCount_value; lia).
  erewrite probe_slot0; [| cbn [mIndex_]; rewrite capCount_value; lia | reflexivity | reflexivity].
  unfold Ht.place, set_totalProbes. cbn [table_ totalProbes_]. change (0 =? npos) with false.
  cbv iota. cbn [Z.to_nat lookup list_lookup]. unfold store_new.
  cbn [table_ resizeAlpha_ totalProbes_ mIndex_ count_ used_ deleted].
  rewrite (add64_small n 1) by lia. reflexivity.
Qed.

(** [insert] of key 0 into the table that holds key 0: the growth
    reinserts the entry, that [insert] grows once more, and the entry ends
    up in slot 0 two rungs higher, where its value is overwritten. *)
Lemma insert_into_single_item (fuel : nat) (j n v0 v : Z) :
  0 ≤ j → j + 2 < Ht.capCount → 0 ≤ n < 2 ^ 30 - 1 →
  Ht.insert_fuel hash_id Z.eqb LinearProber (S (S fuel)) (0, v)
    (single_item (mkHashItem (0, v0) false) j n)
  = Ret tt (single_item (mkHashItem (0, v) false) (j + 2) (n + 2)).
Proof.
  intros Hj Hj2 Hn. rewrite capCount_value in Hj2.
  pose proof (capacity_at_top j) as Hcap. rewrite capCount_value in Hcap.
  rewrite insert_fuel_S.
  rewrite tiny_alpha_fires; [|done|cbn [used_ single_item]; lia|].
  2:{ rewrite length_single_item by (rewrite capCount_value; lia). lia. }
  unfold Ht.resize_with, fresh_table, single_item.
  cbn [mIndex_ table_ resizeAlpha_ totalProbes_ fst].
  rewrite (add64_small j 1) by lia.
  destruct (Z.leb_spec Ht.capCount (j + 1)) as [Hle|_].
  { rewrite capCount_value in Hle. lia. }
  cbn [rehash deleted negb item].
  change {| table_ := replicate (Z.to_nat (Ht.capacity_at (j + 1))) None;
            resizeAlpha_ := tiny_alpha; totalProbes_ := n;
            mIndex_ := j + 1; count_ := 0; used_ := 0 |}
    with (empty_rung (j + 1) n).
  rewrite insert_into_empty by (rewrite ?capCount_value; lia).
  rewrite rehash_nulls. replace (j + 1 + 1) with (j + 2) by lia.
  erewrite probe_slot0; [| cbn [mIndex_ single_item]; rewrite capCount_value; lia
                          | reflexivity | reflexivity].
  unfold Ht.place, set_totalProbes, single_item.
  cbn [table_ totalProbes_]. change (0 =? npos) with false.
  cbv iota. cbn [Z.to_nat lookup list_lookup]. unfold overwrite.
  cbn [table_ resizeAlpha_ totalProbes_ mIndex_ count_ used_ deleted item fst snd].
  rewrite (add64_small (n + 1) 1) by lia. replace (n + 1 + 1) with (n + 2) by lia.
  reflexivity.
Qed.

(** Each further [insert(0,0)] climbs two rungs. *)
Lemma climb_two_rungs (m : nat) (j n : Z) :
  0 ≤ j → j + 2 * Z.of_nat m < Ht.capCount → 0 ≤ n → n + 2 * Z.of_nat m < 2 ^ 30 →
  ht_run (replicate m (Ht.OpInsert 0 0)) (single_item (mkHashItem (0, 0) false) j n)
  = Ret tt (single_item (mkHashItem (0, 0) false)
              (j + 2 * Z.of_nat m) (n + 2 * Z.of_nat m)).
Proof.
  revert j n. induction m as [|m IH]; intros j n Hj Hjm Hn Hnm.
  - simpl. by rewrite !Z.add_0_r.
  - cbn [replicate Ht.run Ht.run_op]. unfold Ht.insert.
    change (S (length Ht.CAPACITIES)) with (S (S 27)).
    rewrite insert_into_single_item by lia.
    rewrite IH by lia. do 2 f_equal; lia.
Qed.

(** The table [single_entry_rung26] is reachable. *)
Lemma single_entry_rung26_reachable : reachable single_entry_rung26.
Proof.
  exists tiny_alpha, climbing_ops. unfold climbing_ops. rewrite run_app.
  change (Ht.HashTable_new tiny_alpha) with (empty_rung 0 0).
  cbn [Ht.run Ht.run_op]. unfold Ht.insert.
  rewrite insert_into_empty by (rewrite ?capCount_value; lia).
  rewrite remove_single_item by (rewrite ?capCount_value; lia).
  rewrite insert_into_tombstone by (rewrite ?capCount_value; lia).
  rewrite climb_two_rungs by (rewrite ?capCount_value; lia).
  reflexivity.
Qed.

(** Counterexample to C5 as stated: with the threshold 5e-10 the
    operations [climbing_ops] leave a fresh table on rung 26 with one entry.
    The next [insert] enters [resize], which moves the object to rung 27 and
    an empty vector; reinserting the old entry there calls [resize] again,
    which throws.  The object is left on rung 27, empty. *)
Lemma exhaustion_corrupts_table :
  reachable single_entry_rung26 ∧
  ht_insert (1, 1) single_entry_rung26 = Throw CapacityExhausted emptied_last_rung ∧
  emptied_last_rung ≠ single_entry_rung26 ∧
  mIndex_ single_entry_rung26 = 26 ∧ mIndex_ emptied_last_rung = 27 ∧
  count_ single_entry_rung26 = 1 ∧ count_ emptied_last_rung = 0.
Proof.
  pose proof (reachable_Inv _ _ _ Z.eqb_eq _ single_entry_rung26_reachable) as HInv.
  split_and!; [exact single_entry_rung26_reachable | | | reflexivity..].
  - apply (insert_nested_exhaustion hash_id Z.eqb LinearProber (1, 1) single_entry_rung26
             (mkHashItem (0, 0) false) (replicate (Z.to_nat 842879578) None)).
    + reflexivity.
    + reflexivity.
    + apply tiny_alpha_fires; [reflexivity | cbn [used_ single_entry_rung26 single_item]; lia |].
      destruct (Inv_bounds _ _ _ _ HInv) as (_ & _ & ->).
      change (Ht.capacity_at (mIndex_ single_entry_rung26)) with 842879579. lia.
    + reflexivity.
    + discriminate.
    + reflexivity.
    + discriminate.
  - intros Heq. apply (f_equal mIndex_) in Heq. discriminate Heq.
Qed.

(** C7 (equivalence of the two headers): with the threshold 1.05, ht.h
    takes twelve distinct keys (it grows before the twelfth), part_000
    throws "HashTable full" on the twelfth; with the default threshold 0.4
    and five colliding keys, ht.h has grown to 23 slots and is below the
    threshold, part_000 is still at 11 slots with a load of 5/11. *)
Theorem implementations_diverge :
  (∃ t, insert_all ht_insert twelve_entries (ht_new (21 # 20)) = Ret tt t ∧
        Ht.size t = 12) ∧
  (∃ t, insert_all p0_insert twelve_entries (p0_new (21 # 20)) = Throw TableFull t ∧
        Part000.size t = 11) ∧
  (∃ t, insert_all ht_insert five_entries (ht_new (2 # 5)) = Ret tt t ∧
        length (table_ t) = 23%nat ∧
        load_reached (used_ t) (Z.of_nat (length (table_ t))) (resizeAlpha_ t) = false) ∧
  (∃ t, insert_all p0_insert five_entries (p0_new (2 # 5)) = Ret tt t ∧
        length (table_ t) = 11%nat ∧
        load_reached (used_ t) (Z.of_nat (length (table_ t))) (resizeAlpha_ t) = true).
Proof.
  split_and!; eexists; (split; [vm_compute; reflexivity|]);
    split_and?; vm_compute; reflexivity.
Qed.

(** C9 (reportAll): on the table with key 11 removed, [find(11)] is absent,
    yet [reportAll] of ht.h prints bucket 1 with the removed entry;
    [reportAll] of part_000 leaves it out. *)
Theorem reportAll_prints_tombstone :
  (∃ t', ht_find 11 tombstone_table = Ret None t') ∧
  Ht.reportAll tombstone_table = [(0, 0, 1); (1, 11, 2); (2, 22, 3)] ∧
  Part000.reportAll tombstone_table = [(0, 0, 1); (2, 22, 3)].
Proof. split_and!; [eexists|..]; reflexivity. Qed.

End Instances.


(** * Further properties of the table of ht.h *)

Section TableProperties.
Context {K V : Type} `{Countable K}.
Variable hash_ : K → Z.
Variable kequal_ : K → K → bool.
Variable prober_ : ProberKind K.
Hypothesis kequal_spec : ∀ a b : K, kequal_ a b = true ↔ a = b.
Implicit Types (t : HashTable K V) (k : K) (v : V).

Local Abbreviation probe_loc := (Ht.probe_loc hash_ kequal_ prober_).
Local Abbreviation probe := (Ht.probe hash_ kequal_ prober_).
Local Abbreviation Inv := (Ht.Inv hash_ kequal_ prober_).
Local Abbreviation insert_fuel := (Ht.insert_fuel hash_ kequal_ prober_).
Local Abbreviation insert := (Ht.insert hash_ kequal_ prober_).
Local Abbreviation remove := (Ht.remove hash_ kequal_ prober_).
Local Abbreviation find := (Ht.find hash_ kequal_ prober_).
Local Abbreviation at_ := (Ht.at_ hash_ kequal_ prober_).
Local Abbreviation internalFind := (Ht.internalFind hash_ kequal_ prober_).
Local Abbreviation run := (Ht.run hash_ kequal_ prober_).
Local Abbreviation reachable := (Ht.reachable hash_ kequal_ prober_).
Local Abbreviation HashTable_new := (Ht.HashTable_new (K:=K) (V:=V)).

(** ** What a caller sees after a sequence of operations *)

(** The table a run of operations leaves, and the map it stands for. *)
Lemma run_fresh (alpha : Q) ops t :
  run ops (HashTable_new alpha) = Ret tt t →
  Inv t ∧ Ht.abs t = foldl Ht.abs_op ∅ ops ∧ resizeAlpha_ t = alpha.
Proof.
  intros Hrun.
  destruct (HashTable_new_Inv (V:=V) hash_ kequal_ prober_ alpha) as [HInv0 Habs0].
  destruct (run_Inv _ _ _ kequal_spec _ _ _ HInv0 Hrun) as (HInv & Habs & Halpha).
  by rewrite Habs0 in Habs.
Qed.

(** X1 (find follows the operations): [find] after any run of inserts and
    removes on a fresh table: it returns the pair of the last [insert] of
    [k] that no [remove] of [k] follows, and [nullptr] when there is none;
    the object is left as it was but for [totalProbes_]. *)
Theorem find_follows_operations (alpha : Q) (ops : list (Ht.Op (K:=K) (V:=V))) k t :
  prober_ ≠ BaseProber →
  run ops (HashTable_new alpha) = Ret tt t →
  ∃ n, find k t = Ret ((λ v, (k, v)) <$> foldl Ht.abs_op ∅ ops !! k) (set_totalProbes n t).
Proof.
  intros HP Hrun. destruct (run_fresh _ _ _ Hrun) as (HInv & Habs & _).
  rewrite <- Habs. by apply find_total.
Qed.

(** [at] on a table that satisfies the invariant. *)
Lemma at_total k t :
  Inv t → prober_ ≠ BaseProber →
  ∃ n, at_ k t =
       match Ht.abs t !! k with
       | Some v => Ret v (set_totalProbes n t)
       | None => Throw KeyNotFound (set_totalProbes n t)
       end.
Proof.
  intros HInv HP. destruct (Ht.inv_sized _ _ _ _ HInv) as [Hidx Hlen].
  pose proof HInv as [Hsized Hreach _ _].
  destruct (probe_loc_total hash_ kequal_ prober_ k t HP Hidx Hlen) as [loc Hloc].
  destruct (probe_of_loc hash_ kequal_ prober_ _ _ _ Hloc) as [n Hprobe]. exists n.
  unfold Ht.at_, Ht.internalFind. rewrite Hprobe.
  destruct (Z.eqb_spec loc npos) as [Hnpos|Hne].
  { by rewrite (abs_lookup_None hash_ kequal_ prober_ _ _ _ Hsized Hreach Hloc) by eauto. }
  destruct (probe_loc_stops hash_ kequal_ prober_ _ _ _ Hloc Hne) as (slot & Hslot & _).
  cbn [table_ set_totalProbes]. rewrite Hslot. destruct slot as [hi|].
  - cbn [table_ set_totalProbes]. rewrite Hslot.
    by destruct (abs_lookup_found hash_ kequal_ prober_ kequal_spec _ _ _ _ Hreach Hloc Hne Hslot)
      as (_ & _ & ->).
  - by rewrite (abs_lookup_None hash_ kequal_ prober_ _ _ _ Hsized Hreach Hloc) by eauto.
Qed.

(** X2 (at follows the operations): [at] and [operator[]] after any run of
    inserts and removes on a fresh table: the value of the last [insert]
    of [k] that no [remove] of [k] follows, and [std::out_of_range] when
    there is none; either way the object is left as it was but for
    [totalProbes_]. *)
Theorem at_follows_operations (alpha : Q) (ops : list (Ht.Op (K:=K) (V:=V))) k t :
  prober_ ≠ BaseProber →
  run ops (HashTable_new alpha) = Ret tt t →
  ∃ n, at_ k t =
       match foldl Ht.abs_op ∅ ops !! k with
       | Some v => Ret v (set_totalProbes n t)
       | None => Throw KeyNotFound (set_totalProbes n t)
       end.
Proof.
  intros HP Hrun. destruct (run_fresh _ _ _ Hrun) as (HInv & Habs & _).
  rewrite <- Habs. by apply at_total.
Qed.

(** X3 (size and empty): [size] and [empty] after any run of inserts and
    removes on a fresh table: [size()] is the number of keys bound,
    [empty()] holds exactly when none is, and the counters stay ordered:
    [0 ≤ count_ ≤ used_ ≤ table_.size()]. *)
Theorem size_counts_keys (alpha : Q) (ops : list (Ht.Op (K:=K) (V:=V))) t :
  run ops (HashTable_new alpha) = Ret tt t →
  Ht.size t = Z.of_nat (base.size (foldl Ht.abs_op ∅ ops)) ∧
  (Ht.empty t = true ↔ foldl Ht.abs_op ∅ ops = ∅) ∧
  0 ≤ Ht.size t ≤ used_ t ∧ used_ t ≤ Z.of_nat (length (table_ t)).
Proof.
  intros Hrun. destruct (run_fresh _ _ _ Hrun) as (HInv & Habs & _).
  pose proof HInv as [Hsized Hreach Hcount Hused].
  unfold Ht.size, Ht.empty. rewrite Hcount, Habs. split_and!.
  - done.
  - rewrite Z.eqb_eq, <- map_size_empty_iff. lia.
  - lia.
  - rewrite <- Habs, Hused, (size_abs hash_ kequal_ prober_ _ Hreach).
    pose proof (live_items_le_occupied (table_ t)). lia.
  - rewrite Hused. pose proof (occupied_le (table_ t)). lia.
Qed.

(** What [find] returns is determined by the map alone. *)
Lemma find_same_map k t t' o t1 :
  Inv t → Inv t' → Ht.abs t' !! k = Ht.abs t !! k →
  find k t = Ret o t1 → ∃ n, find k t' = Ret o (set_totalProbes n t').
Proof.
  intros HInv HInv' Hsame Hfind.
  pose proof (find_concrete hash_ kequal_ prober_ _ _ _ _ Hfind) as HP.
  destruct (find_Ret _ _ _ kequal_spec _ _ _ _ HInv Hfind) as [-> _].
  rewrite <- Hsame. by apply find_total.
Qed.

(** X4 (insert and the other keys): [insert(k, v)] and the other keys:
    whatever [find] returned for a key other than [k] before the call, it
    returns after it, growth or not; and [size()] goes up by one when [k]
    was absent and stays when [k] was present. *)
Theorem insert_frame k v t t' :
  reachable t → insert (k, v) t = Ret tt t' →
  (∀ k' o t1, k' ≠ k → find k' t = Ret o t1 → ∃ t2, find k' t' = Ret o t2) ∧
  (∀ t1, find k t = Ret None t1 → Ht.size t' = Ht.size t + 1) ∧
  (∀ p t1, find k t = Ret (Some p) t1 → Ht.size t' = Ht.size t).
Proof.
  intros Hreach Hins. pose proof (reachable_Inv _ _ _ kequal_spec _ Hreach) as HInv.
  destruct (insert_fuel_Inv _ _ _ kequal_spec _ _ _ _ HInv Hins) as (HInv' & Habs & _).
  cbn [fst snd] in Habs. unfold Ht.size.
  rewrite (Ht.inv_count _ _ _ _ HInv'), (Ht.inv_count _ _ _ _ HInv), Habs.
  split_and!.
  - intros k' o t1 Hne Hfind.
    destruct (find_same_map k' t t' o t1 HInv HInv') as [n Hn]; [|done|eauto].
    by rewrite Habs, lookup_insert_ne.
  - intros t1 Hfind. destruct (find_Ret _ _ _ kequal_spec _ _ _ _ HInv Hfind) as [Ho _].
    destruct (Ht.abs t !! k) eqn:Hk; [done|].
    rewrite map_size_insert_None by done. lia.
  - intros p t1 Hfind. destruct (find_Ret _ _ _ kequal_spec _ _ _ _ HInv Hfind) as [Ho _].
    destruct (Ht.abs t !! k) eqn:Hk; [|done].
    by rewrite map_size_insert_Some.
Qed.

(** X5 (remove and the other keys): [remove(k)] and the other keys: it
    returns whenever [find] does, whatever [find] returned for a key other
    than [k] before the call it returns after it, and the vector keeps its
    length and its rung. *)
Theorem remove_frame k t :
  reachable t → prober_ ≠ BaseProber →
  ∃ t', remove k t = Ret tt t' ∧
    (∀ k' o t1, k' ≠ k → find k' t = Ret o t1 → ∃ t2, find k' t' = Ret o t2) ∧
    length (table_ t') = length (table_ t) ∧ mIndex_ t' = mIndex_ t.
Proof.
  intros Hreach HP. pose proof (reachable_Inv _ _ _ kequal_spec _ Hreach) as HInv.
  assert (Hret : ∃ t', remove k t = Ret tt t').
  { destruct (Ht.abs t !! k) as [v|] eqn:Hk.
    - destruct (remove_present hash_ kequal_ prober_ _ _ _ HInv Hk) as (t' & Hrm & _). eauto.
    - destruct (Ht.inv_sized _ _ _ _ HInv) as [Hidx Hlen].
      destruct (probe_loc_total hash_ kequal_ prober_ k t HP Hidx Hlen) as [loc Hloc].
      destruct (probe_of_loc hash_ kequal_ prober_ _ _ _ Hloc) as [n Hprobe].
      unfold Ht.remove, Ht.internalFind. rewrite Hprobe.
      destruct (Z.eqb_spec loc npos) as [Hnpos|Hne]; [eauto|].
      destruct (probe_loc_stops hash_ kequal_ prober_ _ _ _ Hloc Hne) as (slot & Hslot & _).
      cbn [table_ set_totalProbes]. rewrite Hslot. destruct slot as [hi|]; [|eauto].
      cbn [table_ set_totalProbes]. rewrite Hslot. eauto. }
  destruct Hret as [t' Hrm]. exists t'. split; [done|].
  destruct (remove_Inv _ _ _ kequal_spec _ _ _ HInv Hrm)
    as (HInv' & Habs & _ & Hidx & _ & Hlen).
  split_and!; [|done..].
  intros k' o t1 Hne Hfind.
  destruct (find_same_map k' t t' o t1 HInv HInv') as [n Hn]; [|done|eauto].
  by rewrite Habs, lookup_delete_ne.
Qed.


(** ** The probe counter *)

(** Every turn of the loop of [probe] adds one to the counter, and the
    prober allows [m_ - numProbes_] turns and the one that meets [npos]. *)
Lemma probe_loop_count fuel (tbl : list (option (HashItem K V))) key st loc total r total' :
  prober_ ≠ BaseProber → 0 < m_ st < 2 ^ 31 → 0 ≤ numProbes_ st ≤ m_ st →
  0 ≤ total < 2 ^ 32 - (m_ st - numProbes_ st) →
  Ht.probe_loop kequal_ prober_ fuel tbl key st loc total = (r, total') →
  total ≤ total' ≤ total + (m_ st - numProbes_ st) + 1.
Proof.
  intros HP. revert st loc total.
  induction fuel as [|fuel IH]; intros st loc total Hm Hn Htotal Hrun; simpl in Hrun.
  { injection Hrun as _ <-. lia. }
  destruct (Z.eqb_spec loc npos) as [->|Hne].
  { injection Hrun as _ <-. lia. }
  destruct (tbl !! Z.to_nat loc) as [slot|]; [|injection Hrun as _ <-; lia].
  destruct (Ht.stops kequal_ key slot); [injection Hrun as _ <-; lia|].
  destruct (next_lawful prober_ st HP ltac:(lia) ltac:(lia))
    as (loc' & st' & Hnext & Hm' & Hstep).
  rewrite Hnext in Hrun.
  assert (Hadd : add64 total 1 = total + 1).
  { unfold add64. apply to_size_t_small. unfold SIZE_T_MODULUS. lia. }
  rewrite Hadd in Hrun.
  destruct Hstep as [(Hlt & _ & Hnum)|(Hge & -> & ->)].
  - apply IH in Hrun; lia.
  - destruct fuel as [|fuel]; simpl in Hrun; injection Hrun as _ <-; lia.
Qed.

(** X7 (probe count): [totalProbes] after [clearTotalProbes] and one
    [find]: the lookup has cost at least one probe and at most one more
    than the table has slots. *)
Theorem find_probe_count k t o t' :
  reachable t → find k (Ht.clearTotalProbes t) = Ret o t' →
  1 ≤ Ht.totalProbes t' ≤ Z.of_nat (length (table_ t)) + 1.
Proof.
  intros Hreach Hfind. pose proof (reachable_Inv _ _ _ kequal_spec _ Hreach) as HInv.
  destruct (Inv_bounds _ _ _ _ HInv) as (_ & Hlen & Hcap).
  pose proof (find_concrete hash_ kequal_ prober_ _ _ _ _ Hfind) as HP.
  assert (Hprobe : ∃ loc, probe k (Ht.clearTotalProbes t) = Ret loc t').
  { unfold Ht.find in Hfind.
    destruct (probe k (Ht.clearTotalProbes t)) as [loc t2|e t2]; [|done].
    exists loc. destruct (loc =? npos); [by injection Hfind as _ ->|].
    destruct (table_ t2 !! Z.to_nat loc) as [[hi|]|]; [|by injection Hfind as _ ->|done].
    by injection Hfind as _ ->. }
  destruct Hprobe as [loc Hprobe]. unfold Ht.probe in Hprobe.
  cbn [mIndex_ table_ totalProbes_ Ht.clearTotalProbes set_totalProbes] in Hprobe.
  set (st := init _ _ _ _ _) in Hprobe.
  destruct (init_fields prober_ Ht.DOUBLE_HASH_MOD_VALUES
              (to_size_t (hash_ k) mod Ht.capacity_at (mIndex_ t))
              (Ht.capacity_at (mIndex_ t)) k) as [Hm Hn].
  fold st in Hm, Hn.
  destruct (next_lawful prober_ st HP ltac:(lia) ltac:(lia))
    as (loc' & st' & Hnext & Hm' & Hstep).
  rewrite Hnext in Hprobe.
  destruct (Ht.probe_loop _ _ _ _ _ _ _ _) as [r total] eqn:Hrun.
  change (add64 0 1) with 1 in Hrun.
  assert (Htotal : 1 ≤ total ≤ Ht.capacity_at (mIndex_ t) + 1).
  { destruct Hstep as [(Hlt & _ & Hnum)|(Hge & _ & _)]; [|lia].
    apply probe_loop_count in Hrun; [|done|lia..]. lia. }
  assert (Ht' : t' = set_totalProbes total (Ht.clearTotalProbes t)).
  { destruct r; [by injection Hprobe as _ <- | done]. }
  rewrite Ht'. unfold Ht.totalProbes. cbn [totalProbes_ set_totalProbes]. lia.
Qed.

End TableProperties.


(** * Probe sequences and the capacity ladder *)

(** ** Trial division *)

Lemma no_odd_divisor_sound (fuel : nat) (d n : Z) :
  no_odd_divisor fuel d n = true → 0 < d →
  ∀ j : Z, 0 ≤ j → (d + 2 * j) * (d + 2 * j) ≤ n → n mod (d + 2 * j) ≠ 0.
Proof.
  revert d. induction fuel as [|fuel IH]; intros d Hrun Hd j Hj Hsq; simpl in Hrun; [done|].
  destruct (Z.ltb_spec n (d * d)) as [Hlt|Hge]; [nia|].
  destruct (Z.eqb_spec (n mod d) 0) as [|Hne]; [done|].
  destruct (decide (j = 0)) as [->|Hj0]; [by rewrite Z.mul_0_r, Z.add_0_r|].
  replace (d + 2 * j) with (d + 2 + 2 * (j - 1)) in * by lia.
  apply IH; [done | lia..| done].
Qed.

(** A number that passes the test has no divisor strictly between 1 and
    itself. *)
Lemma is_prime_sound (n a : Z) :
  is_prime n = true → 1 < a < n → ¬ (a | n).
Proof.
  unfold is_prime. rewrite !andb_true_iff, negb_true_iff, Z.eqb_neq, Z.ltb_lt.
  intros [[Hn Hodd] Hrun] Ha [b Hb].
  assert (Hsmall : ∀ c e : Z, 1 < c → n = e * c → c * c ≤ n → False).
  { intros c e Hc He Hsq.
    destruct (Z.eq_dec (c mod 2) 0) as [Heven|Hoddc].
    - apply Hodd. apply Z.mod_divide; [lia|]. apply Z.mod_divide in Heven as [h Hh]; [|lia].
      exists (e * h). lia.
    - assert (Hc3 : 3 ≤ c).
      { destruct (Z.eq_dec c 2) as [->|]; [done | lia]. }
      apply (no_odd_divisor_sound _ _ _ Hrun ltac:(lia) ((c - 3) / 2)).
      + apply Z.div_pos; lia.
      + replace (3 + 2 * ((c - 3) / 2)) with c; [done|].
        pose proof (Z.div_mod (c - 3) 2 ltac:(lia)) as Hdm.
        assert ((c - 3) mod 2 = 0); [|lia].
        replace (c - 3) with (c + (-2) * 2 + 1) by lia.
        rewrite <- Zplus_mod_idemp_l, Z.mod_add by lia.
        pose proof (Z.mod_pos_bound c 2 ltac:(lia)).
        assert (Hc1 : c mod 2 = 1) by lia. by rewrite Hc1.
      + replace (3 + 2 * ((c - 3) / 2)) with c.
        * rewrite He. by apply Z.mod_mul; lia.
        * pose proof (Z.div_mod (c - 3) 2 ltac:(lia)) as Hdm.
          assert ((c - 3) mod 2 = 0); [|lia].
          replace (c - 3) with (c + (-2) * 2 + 1) by lia.
          rewrite <- Zplus_mod_idemp_l, Z.mod_add by lia.
          pose proof (Z.mod_pos_bound c 2 ltac:(lia)).
          assert (Hc1 : c mod 2 = 1) by lia. by rewrite Hc1. }
  assert (Hb1 : 1 < b) by nia.
  destruct (Z.le_gt_cases a b) as [Hle|Hgt].
  - apply (Hsmall a b); [lia | done | nia].
  - apply (Hsmall b a); [lia | lia | nia].
Qed.

(** Below a number that passes the test everything positive is coprime to
    it. *)
Lemma is_prime_coprime (n s : Z) :
  is_prime n = true → 1 ≤ s < n → Z.gcd s n = 1.
Proof.
  intros Hn Hs.
  pose proof (Z.gcd_nonneg s n) as Hg0.
  pose proof (Z.gcd_divide_l s n) as Hgs.
  pose proof (Z.gcd_divide_r s n) as Hgn.
  assert (Hgpos : Z.gcd s n ≠ 0).
  { intros Hz. apply Z.gcd_eq_0_l in Hz. lia. }
  assert (Hle : Z.gcd s n ≤ s) by (apply Z.divide_pos_le; [lia | done]).
  destruct (Z.eq_dec (Z.gcd s n) 1) as [|Hne]; [done|].
  exfalso. apply (is_prime_sound n (Z.gcd s n) Hn); [lia | done].
Qed.

(** Every rung of the ladder but [composite_rung] is a prime. *)
Lemma capacities_prime (i : Z) :
  0 ≤ i < Ht.capCount → i ≠ composite_rung → is_prime (Ht.capacity_at i) = true.
Proof.
  intros Hi Hne. rewrite capCount_value in Hi. unfold composite_rung in Hne.
  assert (Hall : Forall (λ n : nat, Z.of_nat n = 23 ∨ is_prime (Ht.capacity_at (Z.of_nat n)) = true)
                   (seq 0 28)).
  { repeat (constructor; [first [right; vm_compute; reflexivity | left; reflexivity]|]).
    constructor. }
  rewrite Forall_forall in Hall.
  destruct (Hall (Z.to_nat i)) as [H23|Hp].
  - apply elem_of_seq. lia.
  - lia.
  - by rewrite Z2Nat.id in Hp by lia.
Qed.

(** The rung left out is indeed composite. *)
Lemma composite_rung_factors :
  Ht.capacity_at composite_rung = 11 * 13 * 739 * 997.
Proof. reflexivity. Qed.

(** ** The sequence of slots a prober returns *)

Section SequenceFacts.
Context {K : Type}.
Implicit Types (P : ProberKind K) (st : ProberState).

Lemma stride_bump P st : stride P (bump st) = stride P st.
Proof. by destruct P. Qed.

Lemma site_bump P st j : site P (bump st) j = site P st j.
Proof. unfold site. by rewrite stride_bump. Qed.

(** While probes are left, [next] returns the site of its call number. *)
Lemma next_site P st :
  P ≠ BaseProber → 0 ≤ start_ st < m_ st → m_ st < 2 ^ 31 →
  0 ≤ stride P st < 2 ^ 31 → 0 ≤ numProbes_ st < m_ st →
  next P st = Returns (site P st (numProbes_ st), bump st).
Proof.
  intros HP Hstart Hm Hstride Hn. unfold site.
  destruct P as [| |h2]; [done| |]; simpl in *;
    unfold LinearProber_next, DoubleHashProber_next;
    destruct (Z.leb_spec (m_ st) (numProbes_ st)) as [|_]; try lia;
    do 3 f_equal; unfold add64, mul64.
  - rewrite Z.mul_1_r. apply to_size_t_small. unfold SIZE_T_MODULUS. lia.
  - rewrite (to_size_t_small (_ * _)) by (unfold SIZE_T_MODULUS; nia).
    apply to_size_t_small. unfold SIZE_T_MODULUS. nia.
Qed.

Lemma next_exhausted P st :
  P ≠ BaseProber → m_ st ≤ numProbes_ st → next P st = Returns (npos, st).
Proof.
  intros HP Hex.
  destruct P as [| |h2]; [done| |]; simpl;
    unfold LinearProber_next, DoubleHashProber_next;
    by rewrite (proj2 (Z.leb_le _ _) Hex).
Qed.

Lemma next_n_exhausted P st (n : nat) :
  P ≠ BaseProber → m_ st ≤ numProbes_ st →
  next_n P n st = replicate n (Returns npos).
Proof.
  intros HP Hex. induction n as [|n IH]; simpl; [done|].
  by rewrite (next_exhausted _ _ HP Hex), IH.
Qed.

Lemma numProbes_bump st :
  0 ≤ numProbes_ st < 2 ^ 31 → numProbes_ (bump st) = numProbes_ st + 1.
Proof.
  intros Hn. simpl. unfold add64. apply to_size_t_small. unfold SIZE_T_MODULUS. lia.
Qed.

Lemma next_n_sites P st (n extra : nat) :
  P ≠ BaseProber → 0 ≤ start_ st < m_ st → m_ st < 2 ^ 31 →
  0 ≤ stride P st < 2 ^ 31 → 0 ≤ numProbes_ st →
  numProbes_ st + Z.of_nat n = m_ st →
  next_n P (n + extra) st =
  ((λ j, Returns (site P st j)) <$> seqZ (numProbes_ st) (Z.of_nat n))
  ++ replicate extra (Returns npos).
Proof.
  intros HP. revert st. induction n as [|n IH]; intros st Hstart Hm Hstride Hn Hsum.
  - simpl. apply next_n_exhausted; [done | lia].
  - cbn [Nat.add next_n]. rewrite next_site by (done || lia).
    rewrite Nat2Z.inj_succ, seqZ_cons by lia. csimpl. f_equal.
    rewrite IH.
    all: rewrite ?stride_bump, ?numProbes_bump by lia; cbn [m_ start_ bump]; try lia.
    replace (Z.pred (Z.succ (Z.of_nat n))) with (Z.of_nat n) by lia.
    replace (Z.succ (numProbes_ st)) with (numProbes_ st + 1) by lia.
    reflexivity.
Qed.

(** A stride coprime to the table size makes the sites of the first [m_]
    calls a permutation of the slots. *)
Lemma coprime_stride_permutes P st :
  0 < m_ st → Z.gcd (stride P st) (m_ st) = 1 →
  site P st <$> seqZ 0 (m_ st) ≡ₚ seqZ 0 (m_ st).
Proof.
  intros Hm Hgcd.
  assert (Hinj : ∀ i j, 0 ≤ i < m_ st → 0 ≤ j < m_ st →
                        site P st i = site P st j → i = j).
  { intros i j Hi Hj Heq. unfold site in Heq.
    assert (Hdiv : (m_ st | (i - j) * stride P st)).
    { apply Z.mod_divide; [lia|].
      replace ((i - j) * stride P st)
        with ((start_ st + i * stride P st) - (start_ st + j * stride P st)) by lia.
      by rewrite Zminus_mod, Heq, Z.sub_diag, Z.mod_0_l by lia. }
    rewrite Z.mul_comm in Hdiv. apply Z.gauss in Hdiv; [|by rewrite Z.gcd_comm].
    destruct Hdiv as [q Hq].
    assert (Hq0 : q = 0); [|subst q; lia].
    destruct (Z.lt_trichotomy q 0) as [Hneg|[->|Hpos]]; [|done|].
    + assert (q * m_ st ≤ - m_ st) by nia. lia.
    + assert (m_ st ≤ q * m_ st) by nia. lia. }
  assert (Hcover : ∀ L, 0 ≤ L < m_ st → ∃ j, 0 ≤ j < m_ st ∧ site P st j = L).
  { intros L HL.
    destruct (Z.gcd_bezout (stride P st) (m_ st) 1 Hgcd) as (u & v & Huv).
    exists (((L - start_ st) * u) mod m_ st). split; [apply Z.mod_pos_bound; lia|].
    unfold site. rewrite <- Zplus_mod_idemp_r, Zmult_mod_idemp_l, Zplus_mod_idemp_r.
    assert (Hus : u * stride P st = 1 - v * m_ st) by lia.
    replace (start_ st + (L - start_ st) * u * stride P st)
      with (L + (- ((L - start_ st) * v)) * m_ st)
      by (rewrite <- (Z.mul_assoc _ u), Hus; ring).
    rewrite Z.mod_add by lia. apply Z.mod_small. lia. }
  apply NoDup_Permutation.
  - apply NoDup_fmap_2_strong; [|apply NoDup_seqZ].
    intros i j Hi Hj. apply elem_of_seqZ in Hi, Hj. apply Hinj; lia.
  - apply NoDup_seqZ.
  - intros L. rewrite list_elem_of_fmap, elem_of_seqZ. split.
    + intros (j & -> & Hj). apply elem_of_seqZ in Hj.
      unfold site. pose proof (Z.mod_pos_bound (start_ st + j * stride P st) (m_ st) Hm). lia.
    + intros HL. destruct (Hcover L) as (j & Hj & <-); [lia|].
      exists j. split; [done|]. apply elem_of_seqZ. lia.
Qed.

Lemma permutes_covers P st :
  site P st <$> seqZ 0 (m_ st) ≡ₚ seqZ 0 (m_ st) → covers P st.
Proof.
  intros Hperm L HL.
  assert (Hin : L ∈ site P st <$> seqZ 0 (m_ st)).
  { rewrite Hperm. apply elem_of_seqZ. lia. }
  apply list_elem_of_fmap in Hin as (j & -> & Hj). apply elem_of_seqZ in Hj.
  exists j. split; [lia | done].
Qed.

(** The step [DoubleHashProber::init] computes on a rung of the ladder
    lies strictly between 0 and the capacity. *)
Lemma double_hash_stride_range (h2 : K → Z) (start i : Z) (key : K) :
  0 ≤ i < Ht.capCount →
  1 ≤ dhstep_ (init Ht.DOUBLE_HASH_MOD_VALUES (DoubleHashProber h2) start
                 (Ht.capacity_at i) key) < Ht.capacity_at i.
Proof.
  intros Hi. pose proof (capacity_at_range i Hi) as Hcap.
  destruct (pick_mod_spec Ht.DOUBLE_HASH_MOD_VALUES (Ht.capacity_at i) 7)
    as (Hr1 & Hr2 & _).
  { apply mod_values_sorted. }
  { eapply Forall_impl; [apply mod_values_range|]. simpl. lia. }
  { lia. }
  unfold init, DoubleHashProber_init. cbn [dhstep_].
  change (nth 0 Ht.DOUBLE_HASH_MOD_VALUES 0) with 7.
  set (m := pick_mod Ht.DOUBLE_HASH_MOD_VALUES (Ht.capacity_at i) 7) in *.
  assert (Hrem : 0 ≤ to_size_t (h2 key) mod m < m) by (apply Z.mod_pos_bound; lia).
  unfold sub64. rewrite to_size_t_small; [lia|]. unfold SIZE_T_MODULUS. lia.
Qed.

(** The prober a table on rung [i] initialises for [key]: its fields. *)
Lemma init_regular P (start i : Z) (key : K) :
  0 ≤ i < Ht.capCount →
  let st := init Ht.DOUBLE_HASH_MOD_VALUES P start (Ht.capacity_at i) key in
  start_ st = start ∧ m_ st = Ht.capacity_at i ∧ numProbes_ st = 0 ∧
  1 ≤ stride P st < Ht.capacity_at i.
Proof.
  intros Hi st. pose proof (capacity_at_range i Hi) as Hcap.
  destruct P as [| |h2]; simpl; split_and!; try done; try lia.
  - apply (double_hash_stride_range h2 start i key Hi).
  - apply (double_hash_stride_range h2 start i key Hi).
Qed.

(** On a rung of prime capacity, and for [LinearProber] on every rung, the
    sites of the first [m_] calls are a permutation of the slots. *)
Lemma init_permutes P (start i : Z) (key : K) :
  0 ≤ i < Ht.capCount →
  P = LinearProber ∨ i ≠ composite_rung →
  let st := init Ht.DOUBLE_HASH_MOD_VALUES P start (Ht.capacity_at i) key in
  site P st <$> seqZ 0 (m_ st) ≡ₚ seqZ 0 (m_ st).
Proof.
  intros Hi Hcase st. pose proof (capacity_at_range i Hi) as Hcap.
  destruct (init_regular P start i key Hi) as (Hstart & Hm & Hn & Hstride).
  fold st in Hstart, Hm, Hn, Hstride.
  apply coprime_stride_permutes; [lia|].
  destruct Hcase as [->|Hne].
  - simpl. apply Z.gcd_1_l.
  - rewrite Hm. apply is_prime_coprime; [by apply capacities_prime | done].
Qed.

(** X8 (linear probe sequence): [LinearProber]: on a table of [m] slots
    the first [m] calls of [next] return [(start + j) % m] for [j = 0 .. m
    - 1], which is every slot exactly once, and every call after them
    returns [npos]. *)
Theorem linear_probe_sequence (vals : list Z) (start m : Z) (key : K) (extra : nat) :
  0 ≤ start < m → m < 2 ^ 31 →
  next_n (KeyType:=K) LinearProber (Z.to_nat m + extra)
         (init vals LinearProber start m key) =
    ((λ j, Returns ((start + j) mod m)) <$> seqZ 0 m) ++ replicate extra (Returns npos) ∧
  (λ j, (start + j) mod m) <$> seqZ 0 m ≡ₚ seqZ 0 m.
Proof.
  intros Hstart Hm. set (st := init (KeyType:=K) vals LinearProber start m key). split.
  - rewrite (next_n_sites (LinearProber : ProberKind K) st); simpl; try done; try lia.
    rewrite Z2Nat.id by lia. f_equal.
    apply list_fmap_ext. intros _ j _. unfold site. simpl. by rewrite Z.mul_1_r.
  - assert (Heq : (λ j, (start + j) mod m) <$> seqZ 0 m
                  = site (K:=K) LinearProber st <$> seqZ 0 m).
    { apply list_fmap_ext. intros _ j _. unfold site. simpl. by rewrite Z.mul_1_r. }
    rewrite Heq.
    apply (coprime_stride_permutes (LinearProber : ProberKind K) st); simpl;
      [lia | apply Z.gcd_1_l].
Qed.

(** X9 (double-hash probe sequence): [DoubleHashProber] on a rung of the
    ladder other than [composite_rung]: the first [c] calls of [next]
    return [(start + j * dhstep_) % c] for [j = 0 .. c - 1], which is
    every slot exactly once, whatever the key; every call after them
    returns [npos]. *)
Theorem double_hash_probe_sequence (h2 : K → Z) (start i : Z) (key : K) (extra : nat) :
  0 ≤ i < Ht.capCount → i ≠ composite_rung → 0 ≤ start < Ht.capacity_at i →
  let c := Ht.capacity_at i in
  let st := init Ht.DOUBLE_HASH_MOD_VALUES (DoubleHashProber h2) start c key in
  next_n (DoubleHashProber h2) (Z.to_nat c + extra) st =
    ((λ j, Returns ((start + j * dhstep_ st) mod c)) <$> seqZ 0 c)
    ++ replicate extra (Returns npos) ∧
  (λ j, (start + j * dhstep_ st) mod c) <$> seqZ 0 c ≡ₚ seqZ 0 c.
Proof.
  intros Hi Hne Hstart c st. pose proof (capacity_at_range i Hi) as Hcap.
  destruct (init_regular (DoubleHashProber h2) start i key Hi)
    as (Hst & Hm & Hn & Hstride).
  fold c st in Hst, Hm, Hn, Hstride. split.
  - rewrite (next_n_sites (DoubleHashProber h2) st); try done; try lia.
    by rewrite Hn, Z2Nat.id by lia.
  - pose proof (init_permutes (DoubleHashProber h2) start i key Hi (or_intror Hne))
      as Hperm.
    exact Hperm.
Qed.

(** Fewer calls return a prefix of what more calls return. *)
Lemma next_n_take P st (n k : nat) :
  next_n P n st = take n (next_n P (n + k) st).
Proof.
  revert st. induction n as [|n IH]; intros st; [done|].
  cbn [Nat.add next_n]. destruct (next P st) as [[loc st']|e].
  - by rewrite firstn_cons, <- IH.
  - by rewrite firstn_cons, take_nil.
Qed.

(** What call number [j] of [next], counted from 0, returns on a freshly
    initialised prober: the site [j] while [j] is below the table size,
    [npos] from then on. *)
Lemma next_n_lookup P st (n j : nat) r :
  P ≠ BaseProber → 0 ≤ start_ st < m_ st → m_ st < 2 ^ 31 →
  0 ≤ stride P st < 2 ^ 31 → numProbes_ st = 0 →
  next_n P n st !! j = Some r →
  (Z.of_nat j < m_ st ∧ r = Returns (site P st (Z.of_nat j))) ∨
  (m_ st ≤ Z.of_nat j ∧ r = Returns npos).
Proof.
  intros HP Hstart Hm Hstride Hnum.
  rewrite (next_n_take P st n (Z.to_nat (m_ st))), Nat.add_comm.
  rewrite (next_n_sites P st (Z.to_nat (m_ st)) n) by (done || lia).
  rewrite Hnum. intros Hj. apply lookup_take_Some in Hj as [Hj _].
  apply lookup_app_Some in Hj as [Hj|[Hlen Hj]].
  - left. apply list_lookup_fmap_Some in Hj as (i & -> & Hi).
    apply lookup_seqZ in Hi as [-> Hi]. split; [lia|]. by rewrite Z.add_0_l.
  - right. apply lookup_replicate in Hj as [-> _].
    rewrite length_fmap, length_seqZ in Hlen. split; [lia|done].
Qed.

(** X10 (composite capacity): on the rung of capacity 105359969 = 11 * 13
    * 739 * 997, the calls of [next] of a [DoubleHashProber] whose step is
    a multiple of 997 return a slot again 105677 calls after they
    returned it, and never a slot outside the residue class of [start]
    modulo 997: of the 105359969 slots at most 105677 are probed, however
    many calls are made. *)
Theorem composite_rung_short_cycle (h2 : K → Z) (start : Z) (key : K) (n : nat) :
  let c := Ht.capacity_at composite_rung in
  let st := init Ht.DOUBLE_HASH_MOD_VALUES (DoubleHashProber h2) start c key in
  let calls := next_n (DoubleHashProber h2) n st in
  0 ≤ start < c → (997 | dhstep_ st) →
  (∀ (j : nat) r, calls !! (j + 105677)%nat = Some r → r ≠ Returns npos →
                  calls !! j = Some r) ∧
  (∀ L, Returns L ∈ calls → L = npos ∨ (0 ≤ L < c ∧ L mod 997 = start mod 997)).
Proof.
  intros c st calls Hstart [q Hq].
  destruct (init_regular (DoubleHashProber h2) start composite_rung key)
    as (Hs & Hm & Hnum & Hstride); [done|].
  fold c st in Hs, Hm, Hnum, Hstride.
  assert (Hc : c = 105359969) by reflexivity.
  assert (Hlookup : ∀ (j : nat) r, calls !! j = Some r →
            (Z.of_nat j < c ∧ r = Returns (site (DoubleHashProber h2) st (Z.of_nat j))) ∨
            (c ≤ Z.of_nat j ∧ r = Returns npos)).
  { intros j r Hj. rewrite <- Hm.
    apply (next_n_lookup _ _ n); [done | lia | lia | lia | done | done]. }
  assert (Hperiod : ∀ j, site (DoubleHashProber h2) st (j + 105677)
                         = site (DoubleHashProber h2) st j).
  { intros j. unfold site. cbn [stride]. rewrite Hq, Hm, Hc.
    replace (start_ st + (j + 105677) * (q * 997))
      with (start_ st + j * (q * 997) + q * 105359969) by lia.
    apply Z.mod_add. lia. }
  split.
  - intros j r Hj Hr.
    destruct (Hlookup _ _ Hj) as [[Hlt ->]|[_ ->]]; [|done].
    destruct (lookup_lt_is_Some_2 calls j) as [r' Hj'].
    { apply lookup_lt_Some in Hj. lia. }
    destruct (Hlookup _ _ Hj') as [[_ ->]|[Hge _]]; [|lia].
    rewrite Hj'. f_equal. f_equal.
    rewrite Nat2Z.inj_add. change (Z.of_nat 105677) with 105677. by rewrite Hperiod.
  - intros L HL. apply list_elem_of_lookup in HL as [j Hj].
    destruct (Hlookup _ _ Hj) as [[Hlt [= ->]]|[_ [= ->]]]; [right | by left].
    unfold site. cbn [stride]. rewrite Hm, Hs, Hq, Hc. split.
    + apply Z.mod_pos_bound. lia.
    + rewrite Z.mod_mod_divide by (exists 105677; reflexivity).
      rewrite Z.mul_assoc. apply Z.mod_add. lia.
Qed.
End SequenceFacts.

(** ** When [insert] reports a full table *)

Section FullTable.
Context {K V : Type} `{Countable K}.
Variable hash_ : K → Z.
Variable kequal_ : K → K → bool.
Variable prober_ : ProberKind K.
Hypothesis kequal_spec : ∀ a b : K, kequal_ a b = true ↔ a = b.
Implicit Types (t : HashTable K V) (k key : K) (v : V) (st : ProberState).
Implicit Types (tbl : list (option (HashItem K V))).

Local Abbreviation stops := (Ht.stops kequal_).
Local Abbreviation probe_loop := (Ht.probe_loop kequal_ prober_).
Local Abbreviation probe_loc := (Ht.probe_loc hash_ kequal_ prober_).
Local Abbreviation probe := (Ht.probe hash_ kequal_ prober_).
Local Abbreviation Inv := (Ht.Inv hash_ kequal_ prober_).
Local Abbreviation insert_fuel := (Ht.insert_fuel hash_ kequal_ prober_).
Local Abbreviation insert := (Ht.insert hash_ kequal_ prober_).
Local Abbreviation find := (Ht.find hash_ kequal_ prober_).
Local Abbreviation needs_resize := (Ht.needs_resize (K:=K) (V:=V)).
Local Abbreviation reachable := (Ht.reachable hash_ kequal_ prober_).

(** A loop that ends in [npos] has seen a slot it does not stop at in
    every site from the pending one on. *)
Lemma probe_loop_npos fuel tbl key st loc total total' :
  prober_ ≠ BaseProber → 0 ≤ start_ st < m_ st → m_ st < 2 ^ 31 →
  0 ≤ stride prober_ st < 2 ^ 31 → 1 ≤ numProbes_ st ≤ m_ st →
  loc = site prober_ st (numProbes_ st - 1) →
  probe_loop fuel tbl key st loc total = (Returns npos, total') →
  ∀ j, numProbes_ st - 1 ≤ j < m_ st →
    ∃ slot, tbl !! Z.to_nat (site prober_ st j) = Some slot ∧ stops key slot = false.
Proof.
  intros HP. revert st loc total.
  induction fuel as [|fuel IH]; intros st loc total Hstart Hm Hstride Hn Hloc Hrun j Hj;
    simpl in Hrun; [done|].
  assert (Hrange : 0 ≤ loc < m_ st).
  { rewrite Hloc. unfold site. apply Z.mod_pos_bound. lia. }
  destruct (Z.eqb_spec loc npos) as [Hnpos|Hne]; [rewrite npos_value in Hnpos; lia|].
  destruct (tbl !! Z.to_nat loc) as [slot|] eqn:Hslot; [|done].
  destruct (stops key slot) eqn:Hstops; [by injection Hrun as ->|].
  destruct (decide (j = numProbes_ st - 1)) as [->|Hjne].
  { rewrite <- Hloc. eauto. }
  destruct (decide (numProbes_ st = m_ st)) as [Hlast|Hmore]; [lia|].
  rewrite next_site in Hrun by (done || lia).
  rewrite <- (site_bump prober_ st j).
  eapply (IH (bump st)); [done| done| | | | exact Hrun |].
  - by rewrite stride_bump.
  - rewrite numProbes_bump by lia. cbn [m_ bump]. lia.
  - rewrite numProbes_bump by lia. rewrite site_bump. f_equal. lia.
  - rewrite numProbes_bump by lia. cbn [m_ bump]. lia.
Qed.

(** A vector with fewer occupied slots than slots has a null slot. *)
Lemma free_slot (tbl : list (option (HashItem K V))) :
  (Ht.occupied tbl < length tbl)%nat → ∃ L : nat, tbl !! L = Some None.
Proof.
  unfold Ht.occupied. induction tbl as [|[hi|] tbl IH]; csimpl; intros Hlt; [lia| |].
  - destruct IH as [L HL]; [lia|]. by exists (S L).
  - by exists 0%nat.
Qed.

(** With a prober that covers the table, [probe] finds a null slot if there
    is one, or stops before. *)
Lemma probe_loc_finds key t r :
  Ht.well_sized t → prober_ ≠ BaseProber →
  covers prober_ (init Ht.DOUBLE_HASH_MOD_VALUES prober_
                    (to_size_t (hash_ key) mod Ht.capacity_at (mIndex_ t))
                    (Ht.capacity_at (mIndex_ t)) key) →
  (∃ L : nat, table_ t !! L = Some None) →
  probe_loc key t = Returns r → r ≠ npos.
Proof.
  intros [Hidx Hlen] HP Hcov [L HL] Hloc ->. unfold Ht.probe_loc in Hloc.
  pose proof (capacity_at_range _ Hidx) as Hcap.
  set (start := to_size_t (hash_ key) mod Ht.capacity_at (mIndex_ t)) in *.
  assert (Hstart : 0 ≤ start < Ht.capacity_at (mIndex_ t)).
  { apply Z.mod_pos_bound. lia. }
  destruct (init_regular prober_ start (mIndex_ t) key Hidx) as (Hst & Hm & Hn & Hstride).
  set (st := init Ht.DOUBLE_HASH_MOD_VALUES prober_ start (Ht.capacity_at (mIndex_ t)) key) in *.
  rewrite next_site in Hloc by (done || lia).
  destruct (probe_loop _ _ _ _ _ _) as [res total] eqn:Hrun. simpl in Hloc. subst res.
  destruct (Hcov (Z.of_nat L)) as (j & Hj & Hsite).
  { apply lookup_lt_Some in HL. lia. }
  assert (Hall : ∀ j, numProbes_ (bump st) - 1 ≤ j < m_ (bump st) →
            ∃ slot, table_ t !! Z.to_nat (site prober_ (bump st) j) = Some slot
                    ∧ stops key slot = false).
  { eapply (probe_loop_npos _ _ _ (bump st)); [done| | | | | |exact Hrun].
    - cbn [start_ m_ bump]. lia.
    - cbn [m_ bump]. lia.
    - rewrite stride_bump. lia.
    - rewrite numProbes_bump by lia. cbn [m_ bump]. lia.
    - rewrite numProbes_bump by lia. rewrite site_bump, Hn. f_equal. }
  destruct (Hall j) as (slot & Hslot & Hstops).
  { rewrite numProbes_bump by lia. cbn [m_ bump]. lia. }
  rewrite site_bump, Hsite, Nat2Z.id, HL in Hslot. by injection Hslot as <-.
Qed.

(** The errors [insert] can end in, for a threshold of at most 1. *)
Lemma insert_fuel_errors fuel p t e t' :
  Inv t → (resizeAlpha_ t <= 1)%Q → prober_ ≠ BaseProber →
  insert_fuel fuel p t = Throw e t' →
  e = CapacityExhausted ∨ e = OutOfFuel ∨
  (e = TableFull ∧ prober_ ≠ LinearProber ∧ mIndex_ t' = composite_rung).
Proof.
  intros HInv Halpha HP. revert p t e t' HInv Halpha.
  induction fuel as [|fuel IH]; intros p t e t' HInv Halpha Hrun.
  { injection Hrun as <- _. auto. }
  rewrite insert_fuel_S in Hrun.
  assert (Hplace : ∀ t1, Inv t1 → (∃ L : nat, table_ t1 !! L = Some None) →
    match probe (fst p) t1 with
    | Throw e t2 => Throw e t2
    | Ret loc t2 => Ht.place loc p t2
    end = Throw e t' →
    e = TableFull ∧ prober_ ≠ LinearProber ∧ mIndex_ t' = composite_rung).
  { intros t1 HInv1 Hfree Hthrow.
    destruct (Ht.inv_sized _ _ _ _ HInv1) as [Hidx Hlen].
    destruct (probe_loc_total hash_ kequal_ prober_ (fst p) t1 HP Hidx Hlen) as [loc Hloc].
    destruct (probe_of_loc hash_ kequal_ prober_ _ _ _ Hloc) as [n Hprobe].
    rewrite Hprobe in Hthrow. unfold Ht.place in Hthrow.
    destruct (Z.eqb_spec loc npos) as [->|Hne].
    - injection Hthrow as <- <-. cbn [mIndex_ set_totalProbes].
      split; [done|].
      destruct (decide (mIndex_ t1 = composite_rung)) as [Hrung|Hrung];
        [split; [|done]; intros HL|];
        exfalso; apply (probe_loc_finds (fst p) t1 npos (conj Hidx Hlen) HP); try done;
        apply permutes_covers, init_permutes; auto.
    - destruct (probe_loc_stops hash_ kequal_ prober_ _ _ _ Hloc Hne) as (slot & Hslot & _).
      cbn [table_ set_totalProbes] in Hthrow. rewrite Hslot in Hthrow.
      by destruct slot. }
  destruct (needs_resize t) eqn:Hneed.
  - destruct (Ht.resize_with _ t) as [[] t1|e1 t1] eqn:Hres.
    + destruct (resize_with_Inv _ _ _ _ _ _ (insert_fuel_Inv _ _ _ kequal_spec fuel) HInv Hres)
        as (HInv1 & _ & _ & Hidx1 & Hused1 & _).
      right. right. apply (Hplace t1 HInv1); [|done].
      apply free_slot.
      destruct (Inv_bounds _ _ _ _ HInv) as (Hu & _ & Hcap).
      destruct (Inv_bounds _ _ _ _ HInv1) as (_ & _ & Hcap1).
      destruct (Ht.inv_sized _ _ _ _ HInv) as [Hidx _].
      destruct (Ht.inv_sized _ _ _ _ HInv1) as [Hidx1' _].
      pose proof (capacity_at_step (mIndex_ t) ltac:(lia) ltac:(lia)) as Hstep.
      pose proof (capacity_at_mono (mIndex_ t + 1) (mIndex_ t1) ltac:(lia) ltac:(lia)).
      pose proof (Ht.inv_used _ _ _ _ HInv1). lia.
    + injection Hrun as <- <-. unfold Ht.resize_with in Hres.
      destruct (Z.leb_spec Ht.capCount (add64 (mIndex_ t) 1)) as [|Hlt].
      { injection Hres as <- _. auto. }
      destruct (Ht.inv_sized _ _ _ _ HInv) as [Hidx _].
      assert (Hlt' : mIndex_ t + 1 < Ht.capCount).
      { unfold add64 in Hlt. rewrite to_size_t_small in Hlt; [done|].
        rewrite capCount_value in Hidx. unfold SIZE_T_MODULUS. lia. }
      destruct (fresh_table_Inv hash_ kequal_ prober_ t (proj1 Hidx) Hlt')
        as (HInv0 & _ & _ & _).
      revert Hres.
      apply (rehash_Throw _
               (λ e t', e = CapacityExhausted ∨ e = OutOfFuel ∨
                        (e = TableFull ∧ prober_ ≠ LinearProber ∧
                         mIndex_ t' = composite_rung))
               (λ s, Inv s ∧ (resizeAlpha_ s <= 1)%Q)).
      * intros q s s1 [HInvs Hs] Hq.
        destruct (insert_fuel_Inv _ _ _ kequal_spec _ _ _ _ HInvs Hq) as (? & _ & Heq & _).
        split; [done|]. by rewrite Heq.
      * intros q s e2 s1 [HInvs Hs] Hq. by apply (IH q s).
      * done.
  - right. right. apply (Hplace t HInv); [|done].
    apply free_slot.
    destruct (Inv_bounds _ _ _ _ HInv) as (Hu & Hlen & _).
    rewrite (needs_resize_spec _ _ _ _ HInv) in Hneed.
    pose proof (Ht.inv_used _ _ _ _ HInv) as Hused.
    assert (used_ t + 1 < Z.of_nat (length (table_ t))); [|lia].
    destruct (Z_lt_le_dec (used_ t + 1) (Z.of_nat (length (table_ t)))) as [|Hge]; [done|].
    exfalso.
    assert (H1 : load_reached 1 1 (resizeAlpha_ t) = true).
    { apply load_reached_spec; [lia..|]. eapply Qle_trans; [exact Halpha|].
      apply Qle_bool_imp_le. vm_compute. reflexivity. }
    apply (load_reached_mono 1 1 (used_ t + 1) (Z.of_nat (length (table_ t)))) in H1;
      [congruence | lia..].
Qed.

(** X6 (outcomes of insert): how [insert] can end on a table that
    satisfies the invariant, for a threshold of at most 1 and a concrete
    prober: it returns, or [resize] finds no further capacity, or the
    probe finds no slot; the last only with [DoubleHashProber] and only on
    the rung whose capacity, 105359969, is not a prime. In particular
    [insert] with [LinearProber] never reports a full table, and no call
    reads outside the vector. *)
Theorem insert_outcomes p t :
  reachable t → (resizeAlpha_ t <= 1)%Q → prober_ ≠ BaseProber →
  (∃ t', insert p t = Ret tt t') ∨
  (∃ t', insert p t = Throw CapacityExhausted t') ∨
  (∃ t', insert p t = Throw TableFull t' ∧
         prober_ ≠ LinearProber ∧ mIndex_ t' = composite_rung).
Proof.
  intros Hreach Halpha HP.
  pose proof (reachable_Inv _ _ _ kequal_spec _ Hreach) as HInv.
  destruct (insert p t) as [[] t'|e t'] eqn:Hins; [eauto|].
  destruct (insert_fuel_errors _ _ _ _ _ HInv Halpha HP Hins) as [->|[->|(-> & ? & ?)]].
  - eauto.
  - by apply (insert_no_OutOfFuel _ _ _ kequal_spec) in Hins.
  - eauto 6.
Qed.
End FullTable.


(** * The string hash of hash.h *)

Section StringHash.
Import MyStringHash.
Implicit Types (k : list ascii) (c : ascii) (ds : list Z) (rValues : list Z).

(** ** Characters *)

Lemma letterDigitToNumber_range c : 0 ≤ letterDigitToNumber c < 36.
Proof.
  destruct c as [[] [] [] [] [] [] [] []]; vm_compute; split; congruence.
Qed.

Lemma letterDigitToNumber_lower c :
  letterDigitToNumber (lower c) = letterDigitToNumber c.
Proof. destruct c as [[] [] [] [] [] [] [] []]; vm_compute; reflexivity. Qed.

Lemma digits_lower k : digits (lower_string k) = digits k.
Proof.
  unfold digits, lower_string. rewrite <- list_fmap_compose.
  apply list_fmap_ext. intros _ c _. simpl. apply letterDigitToNumber_lower.
Qed.

(** ** The chunks are windows of the digit string *)

Lemma char_at_digit k (i : nat) (d : Z) :
  digits k !! i = Some d → letterDigitToNumber (char_at k (Z.of_nat i)) = d.
Proof.
  unfold digits, char_at. rewrite list_lookup_fmap, Nat2Z.id.
  destruct (k !! i); simpl; congruence.
Qed.

Lemma window_fold k (s n : nat) (acc : Z) :
  (s + n ≤ length k)%nat →
  fold_left (λ val i, add64 (mul64 val 36) (letterDigitToNumber (char_at k i)))
            (seqZ (Z.of_nat s) (Z.of_nat n)) acc
  = fold_left (λ val d, add64 (mul64 val 36) d) (take n (drop s (digits k))) acc.
Proof.
  revert s acc. induction n as [|n IH]; intros s acc Hle; [done|].
  rewrite Nat2Z.inj_succ, seqZ_cons by lia.
  destruct (lookup_lt_is_Some_2 (digits k) s) as [d Hd].
  { unfold digits. rewrite length_fmap. lia. }
  rewrite (drop_S _ _ _ Hd). cbn [take fold_left].
  rewrite (char_at_digit _ _ _ Hd).
  replace (Z.succ (Z.of_nat s)) with (Z.of_nat (S s)) by lia.
  replace (Z.pred (Z.succ (Z.of_nat n))) with (Z.of_nat n) by lia.
  apply IH. lia.
Qed.

(** The value [w[4 - group]]: the base-36 value of the last six digits of
    the string with its last [6 * group] characters taken off. *)
Lemma chunk_digits k (g : nat) :
  chunk k (Z.of_nat g) = horner (last_n 6 (take (length k - 6 * g) (digits k))).
Proof.
  unfold chunk, horner, last_n, window.
  assert (Hlen : length (digits k) = length k) by (unfold digits; by rewrite length_fmap).
  rewrite length_take, Hlen.
  destruct (Z.ltb_spec 0 (Z.of_nat (length k) - Z.of_nat g * 6)) as [Hpos|Hneg].
  - destruct (Z.ltb_spec (Z.of_nat (length k) - Z.of_nat g * 6 - 6) 0) as [Hshort|Hlong].
    + replace ((length k - 6 * g) `min` length k - 6)%nat with 0%nat by lia.
      rewrite drop_0. change 0 with (Z.of_nat 0).
      replace (Z.of_nat (length k) - Z.of_nat g * 6 - Z.of_nat 0)
        with (Z.of_nat (length k - 6 * g)) by lia.
      rewrite window_fold by lia. by rewrite drop_0.
    + replace (Z.of_nat (length k) - Z.of_nat g * 6 - 6)
        with (Z.of_nat (length k - 6 * g - 6)) by lia.
      replace (Z.of_nat (length k) - Z.of_nat g * 6 - Z.of_nat (length k - 6 * g - 6))
        with (Z.of_nat 6) by lia.
      rewrite window_fold by lia.
      replace ((length k - 6 * g) `min` length k - 6)%nat with (length k - 6 * g - 6)%nat by lia.
      f_equal. rewrite take_drop_commute. do 2 f_equal. lia.
  - replace (length k - 6 * g)%nat with 0%nat by lia. by rewrite take_0.
Qed.
Lemma length_digits k : length (digits k) = length k.
Proof. unfold digits. by rewrite length_fmap. Qed.

(** The five words as a function of the digit string. *)
Lemma words_digits k :
  words k = (λ g : nat, horner (last_n 6 (take (length (digits k) - 6 * g) (digits k))))
            <$> [4; 3; 2; 1; 0]%nat.
Proof.
  unfold words. cbn [fmap list_fmap]. rewrite length_digits.
  by rewrite <- !chunk_digits.
Qed.

Lemma call_digits rValues k k' : digits k = digits k' → call rValues k = call rValues k'.
Proof. intros Heq. unfold call. by rewrite !words_digits, Heq. Qed.

(** ** Collisions the code has by construction *)

(** X13 (hash and case): the hash does not see the case of letters. *)
Theorem call_case_insensitive rValues k :
  call rValues (lower_string k) = call rValues k.
Proof. apply call_digits, digits_lower. Qed.

Lemma horner_cons_zero ds : horner (0 :: ds) = horner ds.
Proof. reflexivity. Qed.

Lemma window_cons_zero ds (g : nat) :
  horner (last_n 6 (take (length (0 :: ds) - 6 * g) (0 :: ds)))
  = horner (last_n 6 (take (length ds - 6 * g) ds)).
Proof.
  cbn [length]. destruct (decide (S (length ds) ≤ 6 * g)%nat) as [Hle|Hgt].
  - replace (S (length ds) - 6 * g)%nat with 0%nat by lia.
    replace (length ds - 6 * g)%nat with 0%nat by lia. by rewrite !take_0.
  - replace (S (length ds) - 6 * g)%nat with (S (length ds - 6 * g)) by lia.
    cbn [take]. set (l := take (length ds - 6 * g) ds).
    assert (Hl : length l = (length ds - 6 * g)%nat) by (subst l; rewrite length_take; lia).
    unfold last_n. cbn [length]. rewrite Hl.
    destruct (decide (length ds - 6 * g < 6)%nat) as [Hshort|Hlong].
    + replace (S (length ds - 6 * g) - 6)%nat with 0%nat by lia.
      replace (length ds - 6 * g - 6)%nat with 0%nat by lia.
      by rewrite !drop_0, horner_cons_zero.
    + by replace (S (length ds - 6 * g) - 6)%nat with (S (length ds - 6 * g - 6)) by lia.
Qed.

(** X14 (leading zero digit): a character in front of the string that
    [letterDigitToNumber] maps to 0 (an 'a', an 'A', or anything that is
    neither letter nor digit) leaves the hash as it is: "abc" and "aabc"
    collide, whatever [rValues] holds. *)
Theorem call_leading_zero rValues c k :
  letterDigitToNumber c = 0 → call rValues (c :: k) = call rValues k.
Proof.
  intros Hc. unfold call. rewrite !words_digits.
  assert (Hd : digits (c :: k) = 0 :: digits k).
  { unfold digits. by rewrite fmap_cons, Hc. }
  rewrite Hd. cbn [fmap list_fmap]. by rewrite !window_cons_zero.
Qed.

Lemma window_app ds1 ds2 (g : nat) :
  (6 * g + 6 ≤ length ds2)%nat →
  last_n 6 (take (length (ds1 ++ ds2) - 6 * g) (ds1 ++ ds2))
  = last_n 6 (take (length ds2 - 6 * g) ds2).
Proof.
  intros Hlen. rewrite length_app.
  replace (length ds1 + length ds2 - 6 * g)%nat
    with (length ds1 + (length ds2 - 6 * g))%nat by lia.
  rewrite take_app_add'; [|done]. unfold last_n.
  rewrite length_app, !length_take.
  replace (length ds1 + (length ds2 - 6 * g) `min` length ds2 - 6)%nat
    with (length ds1 + ((length ds2 - 6 * g) `min` length ds2 - 6))%nat by lia.
  by rewrite drop_app_add'.
Qed.

(** X15 (last 30 characters): only the last 30 characters count: whatever
    precedes them does not reach the hash. *)
Theorem call_last_30 rValues k1 k2 :
  (30 ≤ length k2)%nat → call rValues (k1 ++ k2) = call rValues k2.
Proof.
  intros Hlen. unfold call. rewrite !words_digits.
  assert (Hd : digits (k1 ++ k2) = digits k1 ++ digits k2).
  { unfold digits. apply fmap_app. }
  pose proof (length_digits k2) as Hlen2.
  rewrite Hd. cbn [fmap list_fmap]. by rewrite !window_app by lia.
Qed.

(** ** Exact arithmetic *)

Lemma horner_snoc ds d : horner (ds ++ [d]) = add64 (mul64 (horner ds) 36) d.
Proof. unfold horner. by rewrite fold_left_app. Qed.

Lemma base36_snoc ds d : base36 (ds ++ [d]) = base36 ds * 36 + d.
Proof. unfold base36. by rewrite fold_left_app. Qed.

Lemma base36_bound ds :
  Forall (λ d, 0 ≤ d < 36) ds → 0 ≤ base36 ds < 36 ^ Z.of_nat (length ds).
Proof.
  induction ds as [|d ds IH] using rev_ind; intros Hall; [done|].
  apply Forall_app in Hall as [Hds Hd]. apply Forall_inv in Hd.
  specialize (IH Hds). rewrite base36_snoc, length_app. cbn [length].
  replace (Z.of_nat (length ds + 1)) with (Z.succ (Z.of_nat (length ds))) by lia.
  rewrite Z.pow_succ_r by lia.
  generalize dependent (36 ^ Z.of_nat (length ds)). intros. lia.
Qed.

(** Up to twelve digits the 64-bit loop is the exact one. *)
Lemma horner_exact ds :
  (length ds ≤ 12)%nat → Forall (λ d, 0 ≤ d < 36) ds → horner ds = base36 ds.
Proof.
  induction ds as [|d ds IH] using rev_ind; intros Hlen Hall; [done|].
  apply Forall_app in Hall as [Hds Hd]. apply Forall_inv in Hd.
  rewrite length_app in Hlen. cbn [length] in Hlen.
  rewrite horner_snoc, base36_snoc, IH by (done || lia).
  pose proof (base36_bound ds Hds) as Hb.
  assert (Hpow : 36 ^ Z.of_nat (length ds) ≤ 36 ^ 11).
  { apply Z.pow_le_mono_r; lia. }
  assert (H36 : 36 ^ 11 = 131621703842267136) by reflexivity.
  unfold add64, mul64.
  rewrite (to_size_t_small (_ * 36)) by (unfold SIZE_T_MODULUS; lia).
  apply to_size_t_small. unfold SIZE_T_MODULUS. lia.
Qed.

Lemma digits_range k : Forall (λ d, 0 ≤ d < 36) (digits k).
Proof.
  unfold digits. apply Forall_fmap, Forall_forall. intros c _.
  apply letterDigitToNumber_range.
Qed.

Lemma last_n_length {A : Type} (n : nat) (l : list A) : (length (last_n n l) ≤ n)%nat.
Proof. unfold last_n. rewrite length_drop. lia. Qed.

Lemma Forall_last_n_take {A : Type} (P : A → Prop) (n m : nat) (l : list A) :
  Forall P l → Forall P (last_n n (take m l)).
Proof. intros Hall. unfold last_n. by apply Forall_drop, Forall_take. Qed.

(** Every word [w[i]] is below 36^6. *)
Lemma chunk_range k (g : nat) : 0 ≤ chunk k (Z.of_nat g) < 36 ^ 6.
Proof.
  rewrite chunk_digits.
  set (l := last_n 6 (take (length k - 6 * g) (digits k))).
  assert (Hlen : (length l ≤ 6)%nat) by apply last_n_length.
  assert (Hall : Forall (λ d, 0 ≤ d < 36) l) by apply Forall_last_n_take, digits_range.
  rewrite horner_exact by (done || lia).
  pose proof (base36_bound l Hall) as Hb.
  assert (Hpow : 36 ^ Z.of_nat (length l) ≤ 36 ^ 6) by (apply Z.pow_le_mono_r; lia).
  lia.
Qed.

(** With the preset [rValues] the five products and their sum stay below
    2^64. *)
Lemma call_preset_sum k :
  call preset_rValues k =
    983132572 * chunk k 4 + 1468777056 * chunk k 3 + 552714139 * chunk k 2
    + 984953261 * chunk k 1 + 261934300 * chunk k 0.
Proof.
  pose proof (chunk_range k 4) as H4. pose proof (chunk_range k 3) as H3.
  pose proof (chunk_range k 2) as H2. pose proof (chunk_range k 1) as H1.
  pose proof (chunk_range k 0) as H0.
  change (Z.of_nat 4) with 4 in H4. change (Z.of_nat 3) with 3 in H3.
  change (Z.of_nat 2) with 2 in H2. change (Z.of_nat 1) with 1 in H1.
  change (Z.of_nat 0) with 0 in H0.
  assert (H36 : 36 ^ 6 = 2176782336) by reflexivity. rewrite H36 in *.
  unfold call, combine, words, preset_rValues.
  cbn [seq fold_left nth].
  set (w4 := chunk k 4) in *. set (w3 := chunk k 3) in *. set (w2 := chunk k 2) in *.
  set (w1 := chunk k 1) in *. set (w0 := chunk k 0) in *.
  unfold add64, mul64.
  rewrite !(to_size_t_small (_ * _)) by (unfold SIZE_T_MODULUS; lia).
  rewrite (to_size_t_small (0 + _)) by (unfold SIZE_T_MODULUS; lia).
  rewrite (to_size_t_small (0 + _ + _)) by (unfold SIZE_T_MODULUS; lia).
  rewrite (to_size_t_small (0 + _ + _ + _)) by (unfold SIZE_T_MODULUS; lia).
  rewrite (to_size_t_small (0 + _ + _ + _ + _)) by (unfold SIZE_T_MODULUS; lia).
  rewrite (to_size_t_small (0 + _ + _ + _ + _ + _)) by (unfold SIZE_T_MODULUS; lia).
  lia.
Qed.

(** X16 (no wrap with the preset values): with the preset [rValues] (the
    [debug] constructor) no sum or product of [operator()] wraps: every
    word is below 36^6, and the hash is the exact weighted sum of the five
    words, which is below 2^64. *)
Theorem call_preset_exact k :
  Forall (λ w, 0 ≤ w < 36 ^ 6) (words k) ∧
  call (MyStringHash_new true (λ _, 0)) k =
    983132572 * chunk k 4 + 1468777056 * chunk k 3 + 552714139 * chunk k 2
    + 984953261 * chunk k 1 + 261934300 * chunk k 0 ∧
  983132572 * chunk k 4 + 1468777056 * chunk k 3 + 552714139 * chunk k 2
    + 984953261 * chunk k 1 + 261934300 * chunk k 0 < 2 ^ 64.
Proof.
  pose proof (chunk_range k 4) as H4. pose proof (chunk_range k 3) as H3.
  pose proof (chunk_range k 2) as H2. pose proof (chunk_range k 1) as H1.
  pose proof (chunk_range k 0) as H0.
  change (Z.of_nat 4) with 4 in H4. change (Z.of_nat 3) with 3 in H3.
  change (Z.of_nat 2) with 2 in H2. change (Z.of_nat 1) with 1 in H1.
  change (Z.of_nat 0) with 0 in H0.
  split_and!.
  - unfold words. repeat (constructor; [done|]). constructor.
  - cbn [MyStringHash_new]. apply call_preset_sum.
  - assert (H36 : 36 ^ 6 = 2176782336) by reflexivity. rewrite H36 in *. lia.
Qed.

Lemma base36_inj ds ds' :
  length ds = length ds' →
  Forall (λ d, 0 ≤ d < 36) ds → Forall (λ d, 0 ≤ d < 36) ds' →
  base36 ds = base36 ds' → ds = ds'.
Proof.
  revert ds'. induction ds as [|d ds IH] using rev_ind; intros ds' Hlen Hall Hall' Heq.
  { destruct ds'; [done | discriminate Hlen]. }
  destruct ds' as [|d' ds' _] using rev_ind.
  { rewrite length_app in Hlen. cbn [length] in Hlen. lia. }
  apply Forall_app in Hall as [Hds Hd]. apply Forall_inv in Hd.
  apply Forall_app in Hall' as [Hds' Hd']. apply Forall_inv in Hd'.
  rewrite !length_app in Hlen. cbn [length] in Hlen.
  rewrite !base36_snoc in Heq.
  assert (Hsame : base36 ds = base36 ds' ∧ d = d') by lia.
  destruct Hsame as [Hb ->]. f_equal. apply IH; [lia | done..].
Qed.

(** X17 (short strings): with the preset [rValues], two strings of the
    same length of at most six characters that hash alike have the same
    digits: among such strings the only collisions are those of case and
    of characters outside a-z, 0-9. *)
Theorem call_short_injective k1 k2 :
  length k1 = length k2 → (length k1 ≤ 6)%nat →
  call preset_rValues k1 = call preset_rValues k2 →
  digits k1 = digits k2.
Proof.
  intros Hlen Hshort Heq.
  rewrite !call_preset_sum in Heq.
  assert (Hhigh : ∀ k, (length k ≤ 6)%nat →
                    chunk k 4 = 0 ∧ chunk k 3 = 0 ∧ chunk k 2 = 0 ∧ chunk k 1 = 0).
  { intros k Hk.
    assert (Hg : ∀ g : nat, (1 ≤ g)%nat → chunk k (Z.of_nat g) = 0).
    { intros g Hg. rewrite chunk_digits.
      replace (length k - 6 * g)%nat with 0%nat by lia. by rewrite take_0. }
    split_and!; [apply (Hg 4%nat) | apply (Hg 3%nat) | apply (Hg 2%nat) | apply (Hg 1%nat)];
      lia. }
  assert (Hlow : ∀ k, (length k ≤ 6)%nat → chunk k 0 = base36 (digits k)).
  { intros k Hk. change 0 with (Z.of_nat 0). rewrite chunk_digits.
    rewrite Nat.mul_0_r, Nat.sub_0_r, <- (length_digits k), firstn_all.
    unfold last_n. rewrite length_digits.
    replace (length k - 6)%nat with 0%nat by lia. rewrite drop_0.
    apply horner_exact; [rewrite length_digits; lia | apply digits_range]. }
  destruct (Hhigh k1 Hshort) as (Ha4 & Ha3 & Ha2 & Ha1).
  destruct (Hhigh k2 ltac:(lia)) as (Hb4 & Hb3 & Hb2 & Hb1).
  rewrite Ha4, Ha3, Ha2, Ha1, Hb4, Hb3, Hb2, Hb1, (Hlow k1), (Hlow k2) in Heq by lia.
  apply base36_inj; [by rewrite !length_digits | apply digits_range.. | lia].
Qed.
End StringHash.


(** * The word search of boggle.cpp *)

Section BoggleFacts.
Import Boggle.
Variables (dict prefix : gset str) (board : list (list ascii)).
Implicit Types (word tail w : str) (found : gset str) (r c dr dc i j : Z).

Local Abbreviation n := (Z.of_nat (length board)).

Lemma inside_spec r c : inside board r c = true ↔ 0 ≤ r < n ∧ 0 ≤ c < n.
Proof. unfold inside. rewrite !andb_true_iff, !Z.leb_le, !Z.ltb_lt. lia. Qed.

Lemma cell_inside r c :
  square board → inside board r c = true → ∃ ch, cell board r c = Some ch.
Proof.
  intros [_ Hrows] Hin. apply inside_spec in Hin as [Hr Hc]. unfold cell.
  destruct (lookup_lt_is_Some_2 board (Z.to_nat r)) as [row Hrow]; [lia|].
  rewrite Hrow. rewrite Forall_lookup in Hrows. specialize (Hrows _ _ Hrow). simpl in Hrows.
  apply lookup_lt_is_Some_2. lia.
Qed.

(** ** Words a walk can reach *)

Lemma reach_outside word r c dr dc tail :
  inside board r c = false → ¬ reach dict prefix board word r c dr dc tail.
Proof.
  intros Hout (Hne & Hray & _). destruct tail as [|x t]; [done|].
  simpl in Hray. by rewrite Hout in Hray.
Qed.

Lemma reach_step word r c dr dc ch tail :
  inside board r c = true → cell board r c = Some ch →
  reach dict prefix board word r c dr dc tail ↔
  ∃ t, tail = ch :: t ∧
       ((t = [] ∧ word ++ [ch] ∈ dict) ∨
        (t ≠ [] ∧ word ++ [ch] ∈ prefix ∧
         reach dict prefix board (word ++ [ch]) (r + dr) (c + dc) dr dc t)).
Proof.
  intros Hin Hcell. split.
  - intros (Hne & Hray & Hpre & Hdict). destruct tail as [|x t]; [done|].
    simpl in Hray. rewrite Hin, Hcell in Hray.
    destruct (ray board (r + dr) (c + dc) dr dc (length t)) as [rest|] eqn:Hrest; [|done].
    injection Hray as -> ->. exists t. split; [done|].
    destruct t as [|y t']; [by left|]. right. split_and!; [done| |].
    + apply (Hpre 1%nat). simpl. lia.
    + split_and!; [done | done | |].
      * intros l Hl. rewrite <- app_assoc. apply (Hpre (S l)). simpl in *. lia.
      * by rewrite <- app_assoc.
  - intros (t & -> & [[-> Hdict]|(Hne & Hpre1 & _ & Hray & Hpre & Hdict)]).
    + split_and!; [done | | | done].
      * simpl. by rewrite Hin, Hcell.
      * intros l Hl. simpl in Hl. lia.
    + split_and!; [done | | |].
      * simpl. by rewrite Hin, Hcell, Hray.
      * intros [|l] Hl; [lia|]. destruct l as [|l].
        { by destruct t. }
        specialize (Hpre (S l)). rewrite <- app_assoc in Hpre. apply Hpre.
        simpl in Hl. lia.
      * by rewrite <- app_assoc in Hdict.
Qed.

Local Abbreviation helper_post := (helper_post dict prefix board).

Lemma boggleHelper_spec (fuel : nat) word found r c dr dc :
  square board → (dr, dc) ∈ directions →
  0 ≤ r ≤ n → 0 ≤ c ≤ n →
  n - Z.max (dr * r) (dc * c) < Z.of_nat fuel →
  ∃ b found', boggleHelper fuel dict prefix board word found r c dr dc = Done (b, found') ∧
              helper_post word found r c dr dc b found'.
Proof.
  intros Hsq Hdir. revert word found r c.
  assert (Hn : to_unsigned n = n).
  { destruct Hsq as [Hlt _]. unfold to_unsigned. apply Z.mod_small. lia. }
  assert (Hd : (dr = 0 ∧ dc = 1) ∨ (dr = 1 ∧ dc = 0) ∨ (dr = 1 ∧ dc = 1)).
  { unfold directions in Hdir. rewrite !elem_of_cons in Hdir.
    destruct Hdir as [[= -> ->]|[[= -> ->]|[[= -> ->]|Hnil]]]; auto.
    by apply elem_of_nil in Hnil. }
  induction fuel as [|fuel IH]; intros word found r c Hr Hc Hfuel.
  { exfalso. destruct Hd as [[-> ->]|[[-> ->]|[-> ->]]]; lia. }
  cbn [boggleHelper]. rewrite Hn.
  destruct (Z.leb_spec n r) as [Hrout|Hrin].
  { exists false, found. split; [done|]. split; [done|]. intros tail.
    apply reach_outside. apply not_true_iff_false. rewrite inside_spec. lia. }
  destruct (Z.leb_spec n c) as [Hcout|Hcin].
  { exists false, found. split; [done|]. split; [done|]. intros tail.
    apply reach_outside. apply not_true_iff_false. rewrite inside_spec. lia. }
  cbn [orb].
  assert (Hin : inside board r c = true) by (apply inside_spec; lia).
  destruct (cell_inside r c Hsq Hin) as [ch Hcell]. rewrite Hcell.
  assert (Hr' : to_unsigned (r + dr) = r + dr).
  { destruct Hsq as [Hlt _]. unfold to_unsigned. apply Z.mod_small.
    destruct Hd as [[-> ->]|[[-> ->]|[-> ->]]]; lia. }
  assert (Hc' : to_unsigned (c + dc) = c + dc).
  { destruct Hsq as [Hlt _]. unfold to_unsigned. apply Z.mod_small.
    destruct Hd as [[-> ->]|[[-> ->]|[-> ->]]]; lia. }
  rewrite Hr', Hc'.
  assert (Hdeeper : ∃ b1 found1,
    (if bool_decide (word ++ [ch] ∈ prefix)
     then boggleHelper fuel dict prefix board (word ++ [ch]) found (r + dr) (c + dc) dr dc
     else Done (false, found)) = Done (b1, found1) ∧
    (if b1 then word ++ [ch] ∈ prefix ∧
                helper_post (word ++ [ch]) found (r + dr) (c + dc) dr dc true found1
     else found1 = found ∧
          (word ++ [ch] ∈ prefix →
           ∀ t, ¬ reach dict prefix board (word ++ [ch]) (r + dr) (c + dc) dr dc t))).
  { case_bool_decide as Hpre.
    - destruct (IH (word ++ [ch]) found (r + dr) (c + dc)) as (b1 & found1 & Hrun & Hpost).
      + destruct Hd as [[-> ->]|[[-> ->]|[-> ->]]]; lia.
      + destruct Hd as [[-> ->]|[[-> ->]|[-> ->]]]; lia.
      + destruct Hd as [[-> ->]|[[-> ->]|[-> ->]]]; lia.
      + exists b1, found1. split; [done|]. destruct b1; [by split|].
        destruct Hpost as [-> Hno]. by split.
    - exists false, found. done. }
  destruct Hdeeper as (b1 & found1 & -> & Hpost1).
  pose proof (λ tail, reach_step word r c dr dc ch tail Hin Hcell) as Hstep.
  destruct b1; cbn [negb andb].
  - destruct Hpost1 as (Hpre & t & Hreach & -> & Hmax).
    exists true, ({[(word ++ [ch]) ++ t]} ∪ found). split; [done|].
    exists (ch :: t). split_and!.
    + apply Hstep. exists t. split; [done|]. right.
      split_and!; [by destruct Hreach | done | done].
    + by rewrite <- app_assoc.
    + intros tail' Hreach'.
      apply Hstep in Hreach' as (t' & -> & [[-> _]|(_ & _ & Ht')]); [simpl; lia|].
      specialize (Hmax _ Ht'). simpl. lia.
  - destruct Hpost1 as [-> Hno]. case_bool_decide as Hdict.
    + exists true, ({[word ++ [ch]]} ∪ found). split; [done|].
      exists [ch]. split_and!; [|done|].
      * apply Hstep. exists []. split; [done|]. by left.
      * intros tail' Hreach'.
        apply Hstep in Hreach' as (t' & -> & [[-> _]|(_ & Hpre & Ht')]); [simpl; lia|].
        by apply Hno in Ht'.
    + exists false, found. split; [done|]. split; [done|]. intros tail Hreach.
      apply Hstep in Hreach as (t' & -> & [[-> Hd']|(_ & Hpre & Ht')]); [done|].
      by apply Hno in Ht'.
Qed.

(** More fuel does not change what a call returns. *)
Lemma boggleHelper_fuel_mono (fuel extra : nat) word found r c dr dc x :
  boggleHelper fuel dict prefix board word found r c dr dc = Done x →
  boggleHelper (fuel + extra) dict prefix board word found r c dr dc = Done x.
Proof.
  revert word found r c x. induction fuel as [|fuel IH]; intros word found r c x; [done|].
  cbn [Nat.add boggleHelper].
  destruct (_ || _); [done|]. destruct (cell board r c) as [ch|]; [|done].
  case_bool_decide; [|done].
  destruct (boggleHelper fuel _ _ _ _ _ _ _ _ _) as [y|e] eqn:Hrun; [|done].
  by rewrite (IH _ _ _ _ _ Hrun).
Qed.

(** X18 (boggleHelper): [boggleHelper] on a square board, in one of the
    three directions: whenever it returns, it has removed nothing; it
    returns [true] exactly when it has inserted a word, which then is the
    longest word of [dict] it can reach from [word], every string on the
    way to it being in [prefix]; and it returns [false] and leaves the set
    as it was exactly when it can reach none. *)
Theorem boggleHelper_return_flag (fuel : nat) word found r c dr dc b found' :
  square board → (dr, dc) ∈ directions →
  0 ≤ r ≤ n → 0 ≤ c ≤ n →
  boggleHelper fuel dict prefix board word found r c dr dc = Done (b, found') →
  found ⊆ found' ∧
  (b = true →
   ∃ tail, reach dict prefix board word r c dr dc tail ∧
           found' = {[word ++ tail]} ∪ found ∧
           ∀ tail', reach dict prefix board word r c dr dc tail' →
                    (length tail' ≤ length tail)%nat) ∧
  (b = false →
   found' = found ∧ ∀ tail, ¬ reach dict prefix board word r c dr dc tail).
Proof.
  intros Hsq Hdir Hr Hc Hrun.
  apply (boggleHelper_fuel_mono _ (S (Z.to_nat n))) in Hrun.
  destruct (boggleHelper_spec (fuel + S (Z.to_nat n)) word found r c dr dc Hsq Hdir Hr Hc)
    as (b' & f' & Hrun' & Hpost).
  { unfold directions in Hdir. rewrite !elem_of_cons in Hdir.
    destruct Hdir as [[= -> ->]|[[= -> ->]|[[= -> ->]|Hnil]]];
      [lia.. | by apply elem_of_nil in Hnil]. }
  rewrite Hrun in Hrun'. injection Hrun' as <- <-.
  destruct b; simpl in Hpost.
  - destruct Hpost as (tail & Hreach & -> & Hmax). split_and!; [set_solver | eauto | done].
  - destruct Hpost as [-> Hno]. split_and!; [done | done | eauto].
Qed.

(** A call from a cell of the board with the empty word adds the longest
    word it can reach, and nothing when it can reach none. *)
Lemma boggleHelper_longest found i j dr dc :
  square board → (dr, dc) ∈ directions → inside board i j = true →
  ∃ b found',
    boggleHelper (S (Z.to_nat n)) dict prefix board [] found i j dr dc
      = Done (b, found') ∧
    ∀ w, w ∈ found' ↔ w ∈ found ∨ longest_read dict prefix board i j dr dc w.
Proof.
  intros Hsq Hdir Hin. apply inside_spec in Hin as [Hi Hj].
  assert (Hn : to_unsigned n = n).
  { destruct Hsq as [Hlt _]. unfold to_unsigned. apply Z.mod_small. lia. }
  destruct (boggleHelper_spec (S (Z.to_nat n)) [] found i j dr dc Hsq Hdir)
    as (b & found' & Hrun & Hpost); [lia | lia | |].
  { unfold directions in Hdir. rewrite !elem_of_cons in Hdir.
    destruct Hdir as [[= -> ->]|[[= -> ->]|[[= -> ->]|Hnil]]];
      [lia.. | by apply elem_of_nil in Hnil]. }
  exists b, found'. split; [done|]. intros w. destruct b.
  - destruct Hpost as (tail & Hreach & -> & Hmax). cbn [app].
    rewrite elem_of_union, elem_of_singleton. split.
    + intros [->|Hw]; [right | by left]. by split.
    + intros [Hw|[Hreach' Hmax']]; [by right | left].
      pose proof (Hmax _ Hreach') as Hle. pose proof (Hmax' _ Hreach) as Hge.
      destruct Hreach as (_ & Hray & _), Hreach' as (_ & Hray' & _).
      assert (Hlen : length w = length tail) by lia.
      rewrite Hlen in Hray'. congruence.
  - destruct Hpost as [-> Hno]. split; [by left|].
    intros [Hw|[Hreach _]]; [done|]. by apply Hno in Hreach.
Qed.

Lemma boggle_cell_spec found i j :
  square board → inside board i j = true →
  ∃ found',
    boggle_cell (S (Z.to_nat n)) dict prefix board i j found = Done found' ∧
    ∀ w, w ∈ found' ↔
         w ∈ found ∨ ∃ dr dc, (dr, dc) ∈ directions ∧
                              longest_read dict prefix board i j dr dc w.
Proof.
  intros Hsq Hin. unfold boggle_cell.
  destruct (boggleHelper_longest found i j 0 1 Hsq) as (b1 & f1 & -> & H1);
    [unfold directions; set_solver | done |].
  destruct (boggleHelper_longest f1 i j 1 0 Hsq) as (b2 & f2 & -> & H2);
    [unfold directions; set_solver | done |].
  destruct (boggleHelper_longest f2 i j 1 1 Hsq) as (b3 & f3 & -> & H3);
    [unfold directions; set_solver | done |].
  exists f3. split; [done|]. intros w. rewrite H3, H2, H1. split.
  - intros [[[Hw|Hl]|Hl]|Hl]; [by left | right..].
    + exists 0, 1. split; [unfold directions; set_solver | done].
    + exists 1, 0. split; [unfold directions; set_solver | done].
    + exists 1, 1. split; [unfold directions; set_solver | done].
  - intros [Hw|(dr & dc & Hdir & Hl)]; [by repeat left|].
    unfold directions in Hdir. rewrite !elem_of_cons in Hdir.
    destruct Hdir as [[= -> ->]|[[= -> ->]|[[= -> ->]|Hnil]]]; [auto.. |].
    by apply elem_of_nil in Hnil.
Qed.

Lemma for_each_spec (xs : list Z) (body : Z → gset str → Outcome (gset str))
    (Q : Z → str → Prop) found :
  (∀ x f, x ∈ xs → ∃ f', body x f = Done f' ∧ ∀ w, w ∈ f' ↔ w ∈ f ∨ Q x w) →
  ∃ found', for_each xs body found = Done found' ∧
            ∀ w, w ∈ found' ↔ w ∈ found ∨ ∃ x, x ∈ xs ∧ Q x w.
Proof.
  revert found. induction xs as [|x xs IH]; intros found Hbody; simpl.
  - exists found. split; [done|]. intros w. split; [by left|].
    intros [?|(x & Hx & _)]; [done | by apply elem_of_nil in Hx].
  - destruct (Hbody x found) as (f1 & -> & H1); [by left|].
    destruct (IH f1) as (f2 & -> & H2).
    { intros y f Hy. apply Hbody. by right. }
    exists f2. split; [done|]. intros w. rewrite H2, H1. split.
    + intros [[Hw|Hq]|(y & Hy & Hq)]; [by left | right..].
      * exists x. split; [by left | done].
      * exists y. split; [by right | done].
    + intros [Hw|(y & Hy & Hq)]; [by repeat left|].
      apply elem_of_cons in Hy as [->|Hy]; [by left; right|]. right. eauto.
Qed.

(** The loops of [boggle] over the cells of a square board. *)
Lemma boggle_cells :
  square board →
  ∃ res, boggle dict prefix board = Done res ∧
    ∀ w, w ∈ res ↔
         ∃ i, i ∈ seqZ 0 n ∧ ∃ j, j ∈ seqZ 0 n ∧
           ∃ dr dc, (dr, dc) ∈ directions ∧ longest_read dict prefix board i j dr dc w.
Proof.
  intros Hsq. unfold boggle.
  assert (Hn : to_unsigned n = n).
  { destruct Hsq as [Hlt _]. unfold to_unsigned. apply Z.mod_small. lia. }
  rewrite Hn.
  destruct (for_each_spec (seqZ 0 n)
              (λ i, for_each (seqZ 0 n)
                      (λ j, boggle_cell (S (Z.to_nat n)) dict prefix board i j))
              (λ i w, ∃ j, j ∈ seqZ 0 n ∧
                           ∃ dr dc, (dr, dc) ∈ directions ∧
                                    longest_read dict prefix board i j dr dc w)
              ∅) as (res & Hrun & Hres).
  { intros i f Hi. apply for_each_spec. intros j f' Hj.
    apply boggle_cell_spec; [done|]. apply inside_spec.
    apply elem_of_seqZ in Hi, Hj. lia. }
  exists res. split; [done|]. intros w. rewrite Hres. split; [|by right].
  intros [Hw|Hx]; [by apply elem_of_empty in Hw | done].
Qed.

(** X19 (boggle): [boggle] on a square board returns, and what it returns
    is the set of the words that are, for some cell and one of the three
    directions, the longest word [boggleHelper] can reach: the longest
    word of [dict] spelled from that cell in that direction such that
    every shorter non-empty string on the way to it is in [prefix]. *)
Theorem boggle_longest_reads :
  square board →
  ∃ res, boggle dict prefix board = Done res ∧
    ∀ w, w ∈ res ↔
         ∃ i j dr dc, inside board i j = true ∧ (dr, dc) ∈ directions ∧
                      longest_read dict prefix board i j dr dc w.
Proof.
  intros Hsq. destruct (boggle_cells Hsq) as (res & Hrun & Hres).
  exists res. split; [done|]. intros w. rewrite Hres. split.
  - intros (i & Hi & j & Hj & dr & dc & Hdir & Hl).
    exists i, j, dr, dc. split_and!; [|done..]. apply inside_spec.
    apply elem_of_seqZ in Hi, Hj. lia.
  - intros (i & j & dr & dc & Hin & Hdir & Hl).
    apply inside_spec in Hin as [Hi Hj].
    exists i. split; [apply elem_of_seqZ; lia|].
    exists j. split; [apply elem_of_seqZ; lia|]. eauto.
Qed.

Lemma for_each_Done (xs : list Z) (body : Z → gset str → Outcome (gset str))
    found found' (x : Z) :
  for_each xs body found = Done found' → x ∈ xs → ∃ f f', body x f = Done f'.
Proof.
  revert found. induction xs as [|y xs IH]; intros found Hrun Hx; simpl in Hrun.
  { by apply elem_of_nil in Hx. }
  destruct (body y found) as [f1|e] eqn:Hy; [|done].
  apply elem_of_cons in Hx as [->|Hx]; [eauto | by eapply IH].
Qed.

(** X20 (boggle and ragged boards): [boggle] reads [board[i][j]] for all
    [i, j] below the number of rows: it returns only if every row has at
    least as many cells as the board has rows; on any other board a
    subscript leaves its vector. *)
Theorem boggle_needs_square res :
  n < UINT_MODULUS → boggle dict prefix board = Done res → square board.
Proof.
  intros Hlt Hrun. split; [done|]. apply Forall_lookup. intros i row Hrow.
  assert (Hn : to_unsigned n = n) by (unfold to_unsigned; apply Z.mod_small; lia).
  destruct (Nat.le_gt_cases (length board) (length row)) as [|Hshort]; [done|].
  exfalso. pose proof (lookup_lt_Some _ _ _ Hrow) as Hi.
  unfold boggle in Hrun. rewrite Hn in Hrun.
  destruct (for_each_Done _ _ _ _ (Z.of_nat i) Hrun) as (f1 & f2 & Hinner).
  { apply elem_of_seqZ. lia. }
  destruct (for_each_Done _ _ _ _ (Z.of_nat (length row)) Hinner) as (f3 & f4 & Hcell).
  { apply elem_of_seqZ. lia. }
  unfold boggle_cell in Hcell. cbn [boggleHelper] in Hcell. rewrite Hn in Hcell.
  destruct (Z.leb_spec n (Z.of_nat i)); [lia|].
  destruct (Z.leb_spec n (Z.of_nat (length row))); [lia|].
  cbn [orb] in Hcell. unfold cell in Hcell. rewrite !Nat2Z.id, Hrow in Hcell.
  by rewrite (lookup_ge_None_2 row (length row)) in Hcell by lia.
Qed.
End BoggleFacts.

(** * The dictionary of boggle.cpp *)

Section DictionaryFacts.
Import Boggle.
Implicit Types (word w p : str) (ws : list str) (dict prefix : gset str).

Lemma elem_of_proper_prefixes word p :
  p ∈ proper_prefixes word ↔ ∃ l : nat, (1 ≤ l < length word)%nat ∧ p = take l word.
Proof.
  unfold proper_prefixes. rewrite list_elem_of_fmap. split.
  - intros (l & -> & Hl). apply elem_of_reverse, elem_of_seq in Hl. exists l. split; [lia|done].
  - intros (l & Hl & ->). exists l. split; [done|]. apply elem_of_reverse, elem_of_seq. lia.
Qed.

Lemma elem_of_foldl_insert (l : list str) prefix p :
  p ∈ foldl (λ acc q, {[q]} ∪ acc) prefix l ↔ p ∈ prefix ∨ p ∈ l.
Proof.
  revert prefix. induction l as [|q l IH]; intros prefix; simpl.
  - split; [by left|]. intros [?|Hp]; [done | by apply elem_of_nil in Hp].
  - rewrite IH, elem_of_union, elem_of_singleton, elem_of_cons. tauto.
Qed.

Lemma read_words_spec ws dict prefix :
  (∀ w, w ∈ (read_words ws dict prefix).1 ↔ w ∈ dict ∨ w ∈ ws) ∧
  (∀ p, p ∈ (read_words ws dict prefix).2 ↔
        p ∈ prefix ∨ ∃ w (l : nat), w ∈ ws ∧ (1 ≤ l < length w)%nat ∧ p = take l w).
Proof.
  revert dict prefix. induction ws as [|word ws IH]; intros dict prefix; simpl.
  - split; intros x; (split; [by left|]).
    + intros [?|Hx]; [done | by apply elem_of_nil in Hx].
    + intros [?|(w & l & Hw & _)]; [done | by apply elem_of_nil in Hw].
  - destruct (IH ({[word]} ∪ dict)
                 (foldl (λ acc q, {[q]} ∪ acc) prefix (proper_prefixes word))) as [Hd Hp].
    split.
    + intros w. rewrite Hd, elem_of_union, elem_of_singleton, elem_of_cons. tauto.
    + intros p. rewrite Hp, elem_of_foldl_insert, elem_of_proper_prefixes. split.
      * intros [[Hin|(l & Hl & ->)]|(w & l & Hw & Hl & ->)]; [by left | right..].
        -- exists word, l. split; [by left | done].
        -- exists w, l. split; [by right | done].
      * intros [Hin|(w & l & Hw & Hl & ->)]; [by repeat left|].
        apply elem_of_cons in Hw as [->|Hw]; [left; right; eauto | right; eauto].
Qed.

(** X21 (parseDict): [parseDict]: a stream that fails to open gives
    [std::invalid_argument]; otherwise [dict] is the set of the words
    read, and [prefix] holds the empty string and the proper non-empty
    prefixes of the words read, and nothing else. A word itself is in
    [prefix] only as a proper prefix of another word. *)
Theorem parseDict_sets ws :
  parseDict None = Fails InvalidArgument ∧
  ∃ dict prefix,
    parseDict (Some ws) = Done (dict, prefix) ∧
    (∀ w, w ∈ dict ↔ w ∈ ws) ∧
    (∀ p, p ∈ prefix ↔
          p = [] ∨ ∃ w (l : nat), w ∈ ws ∧ (1 ≤ l < length w)%nat ∧ p = take l w).
Proof.
  split; [done|]. unfold parseDict.
  destruct (read_words_spec ws ∅ ∅) as [Hd Hp].
  destruct (read_words ws ∅ ∅) as [dict prefix]. simpl in Hd, Hp.
  exists dict, ({[ [] ]} ∪ prefix). split; [done|]. split.
  - intros w. rewrite Hd. set_solver.
  - intros p. rewrite elem_of_union, elem_of_singleton, Hp. set_solver.
Qed.

(** X22 (parseDict then boggle): [parseDict] followed by [boggle] on a
    square board: the result is the set of the words that are, for some
    cell and one of the three directions, the longest word of the
    dictionary spelled from that cell in that direction. *)
Theorem boggle_finds_longest_words ws (board : list (list ascii)) :
  square board →
  ∃ dict prefix res,
    parseDict (Some ws) = Done (dict, prefix) ∧
    boggle dict prefix board = Done res ∧
    ∀ w, w ∈ res ↔
         ∃ i j dr dc, inside board i j = true ∧ (dr, dc) ∈ directions ∧
                      longest_word ws board i j dr dc w.
Proof.
  intros Hsq. unfold parseDict.
  destruct (read_words_spec ws ∅ ∅) as [Hd Hp].
  destruct (read_words ws ∅ ∅) as [dict prefix0]. simpl in Hd, Hp.
  set (prefix := {[ [] ]} ∪ prefix0).
  destruct (boggle_cells dict prefix board Hsq) as (res & Hrun & Hres).
  exists dict, prefix, res. split; [done|]. split; [done|].
  assert (Hin : ∀ i j, inside board i j = true ↔
                       i ∈ seqZ 0 (Z.of_nat (length board)) ∧
                       j ∈ seqZ 0 (Z.of_nat (length board))).
  { intros i j. rewrite inside_spec, !elem_of_seqZ. lia. }
  assert (Hreach : ∀ i j dr dc w,
            reach dict prefix board [] i j dr dc w ↔
            w ≠ [] ∧ w ∈ ws ∧ ray board i j dr dc (length w) = Some w).
  { intros i j dr dc w. unfold reach. cbn [app]. rewrite Hd. split.
    - intros (? & ? & _ & [Hw|Hw]); [set_solver | done].
    - intros (Hne & Hw & Hray). split_and!; [done.. | | by right].
      intros l Hl. subst prefix. rewrite elem_of_union, Hp. right. right. eauto. }
  intros w. rewrite Hres. unfold longest_read, longest_word. split.
  - intros (i & Hi & j & Hj & dr & dc & Hdir & Hw & Hmax).
    exists i, j, dr, dc. split; [by apply Hin|]. split; [done|].
    apply Hreach in Hw as (? & ? & ?).
    split_and!; [done..|]. intros w' ? ? ?. apply Hmax, Hreach. done.
  - intros (i & j & dr & dc & Hij & Hdir & ? & ? & ? & Hmax).
    apply Hin in Hij as [Hi Hj].
    exists i. split; [done|]. exists j. split; [done|]. exists dr, dc.
    split; [done|]. split; [by apply Hreach|].
    intros w' Hw'. apply Hreach in Hw' as (? & ? & ?). by apply Hmax.
Qed.

(** ** The generated board *)

Lemma letters_length : length letters = 98%nat.
Proof. reflexivity. Qed.

Lemma letters_upper : Forall (λ ch, (65 ≤ nat_of_ascii ch ≤ 90)%nat) letters.
Proof.
  apply Forall_forall. intros ch Hch.
  assert (Hb : forallb (λ ch, (65 <=? nat_of_ascii ch)%nat && (nat_of_ascii ch <=? 90)%nat)
                 letters = true) by reflexivity.
  rewrite forallb_forall in Hb. specialize (Hb ch). rewrite <- list_elem_of_In in Hb.
  apply Hb in Hch. apply andb_true_iff in Hch as [H1 H2].
  apply Nat.leb_le in H1, H2. lia.
Qed.

(** X23 (genBoard): [genBoard], whatever the generator draws: [n] rows of
    [n] cells, each an upper-case letter; the board is one [boggle] runs
    on. *)
Theorem genBoard_shape (draws : nat → Z) (size : nat) :
  Z.of_nat size < UINT_MODULUS →
  length (genBoard draws size) = size ∧
  Forall (λ row, length row = size ∧
                 Forall (λ ch, (65 ≤ nat_of_ascii ch ≤ 90)%nat) row)
         (genBoard draws size) ∧
  square (genBoard draws size).
Proof.
  intros Hsize.
  assert (Hlen : length (genBoard draws size) = size).
  { unfold genBoard. by rewrite length_fmap, length_seq. }
  assert (Hrows : Forall (λ row, length row = size ∧
                    Forall (λ ch, (65 ≤ nat_of_ascii ch ≤ 90)%nat) row)
                    (genBoard draws size)).
  { unfold genBoard. apply Forall_fmap, Forall_forall. intros i _. cbv beta. split.
    - by rewrite length_fmap, length_seq.
    - apply Forall_fmap, Forall_forall. intros j _. unfold compose. cbv beta.
      set (idx := Z.to_nat (draws (i * size + j)%nat mod Z.of_nat (length letters))).
      assert (Hidx : (idx < length letters)%nat).
      { subst idx. rewrite letters_length.
        pose proof (Z.mod_pos_bound (draws (i * size + j)%nat) (Z.of_nat 98) ltac:(lia)).
        lia. }
      destruct (lookup_lt_is_Some_2 letters idx Hidx) as [ch Hch].
      rewrite Hch. cbn [default from_option]. pose proof letters_upper as Hup.
      rewrite Forall_lookup in Hup. by apply (Hup _ _ Hch). }
  split_and!; [done | done |]. split; [by rewrite Hlen|].
  rewrite Hlen. eapply Forall_impl; [exact Hrows|]. simpl. intros row [-> _]. done.
Qed.
End DictionaryFacts.


(** * Where the two headers agree *)

Section Siblings.
Context {K V : Type}.
Variable hash_ : K → Z.
Variable eq_ : K → K → bool.
Variable prober_ : ProberKind K.
Implicit Types (t : HashTable K V) (k key : K) (st : ProberState).
Implicit Types (tbl : list (option (HashItem K V))).

Local Abbreviation turn := (turn eq_ prober_).

Lemma probe_loop_turn (fuel : nat) tbl key st loc total :
  Ht.probe_loop eq_ prober_ (S fuel) tbl key st loc total =
  if loc =? npos then (Returns npos, total)
  else match tbl !! Z.to_nat loc with
       | None => (Throws OutOfRange, total)
       | Some slot =>
         if Ht.stops eq_ key slot then (Returns loc, total)
         else turn fuel tbl key st total
       end.
Proof. reflexivity. Qed.

(** Whatever the for-loop of part_000 ends in, short of running out of
    turns, the while-loop of ht.h ends in, with the same count. *)
Lemma for_loop_while_loop (n fuel : nat) tbl key st total r total' :
  Part000.probe_loop eq_ prober_ n tbl key st total = (r, total') →
  r ≠ Returns npos → (n ≤ fuel)%nat →
  turn fuel tbl key st total = (r, total').
Proof.
  revert fuel st total. induction n as [|n IH]; intros fuel st total Hrun Hr Hfuel;
    simpl in Hrun.
  { injection Hrun as <- _. done. }
  destruct fuel as [|fuel]; [lia|].
  unfold turn. destruct (next prober_ st) as [[loc st']|e]; [|done].
  rewrite probe_loop_turn.
  destruct (loc =? npos); [by injection Hrun as <- _|].
  destruct (tbl !! Z.to_nat loc) as [[pi|]|]; [|done..].
  unfold Ht.stops. destruct (negb (deleted pi) && eq_ (item pi).1 key); [done|].
  apply IH; [done | done | lia].
Qed.

Lemma while_loop_for_loop (n fuel : nat) tbl key st total r total' :
  prober_ ≠ BaseProber → 0 < m_ st < 2 ^ 63 → 0 ≤ numProbes_ st →
  m_ st - numProbes_ st ≤ Z.of_nat n →
  turn fuel tbl key st total = (r, total') →
  r ≠ Returns npos → r ≠ Throws OutOfFuel →
  Part000.probe_loop eq_ prober_ n tbl key st total = (r, total').
Proof.
  intros HP. revert n st total.
  induction fuel as [|fuel IH]; intros n st total Hm Hn Hleft Hrun Hr Hfuel;
    unfold turn in Hrun;
    destruct (next_lawful prober_ st HP Hm Hn) as (loc & st' & Hnext & Hm' & Hstep);
    rewrite Hnext in Hrun.
  { simpl in Hrun. by injection Hrun as <- _. }
  rewrite probe_loop_turn in Hrun.
  destruct Hstep as [(Hlt & Hloc & Hnum)|(Hge & -> & ->)].
  2:{ simpl in Hrun. by injection Hrun as <- _. }
  destruct n as [|n]; [lia|]. simpl. rewrite Hnext.
  destruct (loc =? npos); [by injection Hrun as <- _|].
  destruct (tbl !! Z.to_nat loc) as [[pi|]|]; [|done..].
  unfold Ht.stops in Hrun. destruct (negb (deleted pi) && eq_ (item pi).1 key); [done|].
  apply (IH n st'); [lia | lia | lia | done..].
Qed.

(** The two [init] agree: always for [LinearProber], and for
    [DoubleHashProber] on every rung but [diverging_rung]. *)
Lemma inits_agree (start i : Z) key :
  0 ≤ i < Ht.capCount →
  (∀ h2, prober_ = DoubleHashProber h2 → i ≠ diverging_rung) →
  init Part000.modVals prober_ start (Part000.sizes_at i) key =
  init Ht.DOUBLE_HASH_MOD_VALUES prober_ start (Ht.capacity_at i) key.
Proof.
  intros Hi Hrung. destruct prober_ as [| |h2]; [done..|].
  specialize (Hrung h2 eq_refl). rewrite capCount_value in Hi.
  unfold init, DoubleHashProber_init, diverging_rung in *.
  assert (Hall : Forall (λ j : nat, Z.of_nat j = 25 ∨
                    pick_mod Part000.modVals (Part000.sizes_at (Z.of_nat j))
                             (nth 0 Part000.modVals 0)
                    = pick_mod Ht.DOUBLE_HASH_MOD_VALUES (Ht.capacity_at (Z.of_nat j))
                               (nth 0 Ht.DOUBLE_HASH_MOD_VALUES 0))
                   (seq 0 28)).
  { repeat (constructor; [first [right; reflexivity | left; reflexivity]|]). constructor. }
  rewrite Forall_forall in Hall. destruct (Hall (Z.to_nat i)) as [H26|Hpick].
  - apply elem_of_seq. lia.
  - lia.
  - rewrite Z2Nat.id in Hpick by lia. by rewrite Hpick.
Qed.

(** [probe] of the two headers on one and the same object. *)
Lemma probes_agree key t :
  Ht.well_sized t →
  (∀ h2, prober_ = DoubleHashProber h2 → mIndex_ t ≠ diverging_rung) →
  agree (Part000.probe hash_ eq_ prober_ key t) (Ht.probe hash_ eq_ prober_ key t).
Proof.
  intros Hsized Hrung. pose proof Hsized as [Hidx Hlen].
  pose proof (capacity_at_range _ Hidx) as Hcap.
  pose proof (probe_no_OutOfFuel hash_ eq_ prober_ key t) as Hfuel.
  unfold Part000.probe, Ht.probe in *.
  rewrite (inits_agree _ _ _ Hidx Hrung).
  change (Part000.sizes_at (mIndex_ t)) with (Ht.capacity_at (mIndex_ t)).
  remember (init Ht.DOUBLE_HASH_MOD_VALUES prober_
              (to_size_t (hash_ key) mod Ht.capacity_at (mIndex_ t))
              (Ht.capacity_at (mIndex_ t)) key) as st eqn:Hst.
  destruct (init_fields prober_ Ht.DOUBLE_HASH_MOD_VALUES
              (to_size_t (hash_ key) mod Ht.capacity_at (mIndex_ t))
              (Ht.capacity_at (mIndex_ t)) key) as [Hm Hn].
  rewrite <- Hst in Hm, Hn.
  destruct (BaseProber_or_not prober_) as [HP|HP].
  { replace (Z.to_nat (Ht.capacity_at (mIndex_ t)))
      with (S (Z.to_nat (Ht.capacity_at (mIndex_ t) - 1))) by lia.
    rewrite HP. simpl. done. }
  destruct (next_lawful prober_ st HP ltac:(lia) ltac:(lia))
    as (loc & st' & Hnext & Hm' & Hstep).
  rewrite Hnext in *.
  assert (Hturn : Ht.probe_loop eq_ prober_ (Ht.probe_fuel (Ht.capacity_at (mIndex_ t)))
                    (table_ t) key st' loc (add64 (totalProbes_ t) 1)
                  = turn (Ht.probe_fuel (Ht.capacity_at (mIndex_ t))) (table_ t) key st
                         (totalProbes_ t)).
  { unfold turn. by rewrite Hnext. }
  rewrite Hturn in *.
  destruct (Part000.probe_loop _ _ _ _ _ _ _) as [r1 c1] eqn:Hfor.
  destruct (turn _ _ _ _ _) as [r2 c2] eqn:Hwhile.
  assert (Hcase : (r1 = r2 ∧ c1 = c2) ∨ (r1 = Returns npos ∧ r2 = Returns npos)).
  { assert (Hdec : ∀ r : result Z, r = Returns npos ∨ r ≠ Returns npos).
    { intros [l|e]; [|by right].
      destruct (decide (l = npos)) as [->|Hl]; [by left | right; congruence]. }
    destruct (Hdec r1) as [Hr1|Hr1].
    - destruct (Hdec r2) as [Hr2|Hr2]; [by right|].
      left. apply (while_loop_for_loop (Z.to_nat (Ht.capacity_at (mIndex_ t)))) in Hwhile;
        [split; congruence | done | lia | lia | lia | done |].
      intros ->. by apply (Hfuel (set_totalProbes c2 t)).
    - left. apply (for_loop_while_loop _ (Ht.probe_fuel (Ht.capacity_at (mIndex_ t))))
        in Hfor; [split; congruence | done | unfold Ht.probe_fuel; lia]. }
  destruct Hcase as [[<- <-]|[-> ->]]; [by destruct r1 | done].
Qed.
Lemma same_but_probes_table t1 t2 : same_but_probes t1 t2 → table_ t1 = table_ t2.
Proof. intros H. by apply (f_equal table_) in H. Qed.

Lemma same_but_probes_mark loc p t1 t2 :
  same_but_probes t1 t2 → same_but_probes (mark_deleted loc p t1) (mark_deleted loc p t2).
Proof.
  destruct t1, t2. unfold same_but_probes, set_totalProbes, mark_deleted. simpl.
  intros H. by simplify_eq.
Qed.

(** What the two [probe] hand to their callers: the same exception, or the
    same index, which is [npos] or that of a slot on which the loop stops. *)
Lemma probes_hand_over key t :
  Ht.well_sized t →
  (∀ h2, prober_ = DoubleHashProber h2 → mIndex_ t ≠ diverging_rung) →
  (∃ e t1 t2, Part000.probe hash_ eq_ prober_ key t = Throw e t1 ∧
              Ht.probe hash_ eq_ prober_ key t = Throw e t2 ∧ same_but_probes t1 t2) ∨
  (∃ loc t1 t2, Part000.probe hash_ eq_ prober_ key t = Ret loc t1 ∧
                Ht.probe hash_ eq_ prober_ key t = Ret loc t2 ∧ same_but_probes t1 t2 ∧
                (loc = npos ∨
                 ∃ slot, table_ t1 !! Z.to_nat loc = Some slot ∧
                         table_ t2 !! Z.to_nat loc = Some slot ∧
                         Ht.stops eq_ key slot = true)).
Proof.
  intros Hsized Hrung. pose proof (probes_agree key t Hsized Hrung) as Hagree.
  destruct (Part000.probe hash_ eq_ prober_ key t) as [l1 t1|e1 t1],
           (Ht.probe hash_ eq_ prober_ key t) as [l2 t2|e2 t2] eqn:Hht;
    simpl in Hagree; try done; destruct Hagree as [<- Hsame]; [|left; eauto 10].
  right. exists l1, t1, t2. split_and!; [done..|].
  destruct (decide (l1 = npos)) as [|Hl]; [by left | right].
  apply probe_Ret in Hht as [Hloc [n ->]].
  apply probe_loc_stops in Hloc as (slot & Hslot & Hstop); [|done].
  exists slot. rewrite (same_but_probes_table _ _ Hsame). done.
Qed.

(** X24 (find of part_000 and of ht.h): on an object whose array has the
    length of its rung, [find] of the two headers returns the same pointee
    or raises the same exception, and leaves objects that differ at most in
    [totalProbes_]; with [DoubleHashProber] this needs a rung other than
    [diverging_rung]. *)
Theorem find_agrees key t :
  Ht.well_sized t →
  (∀ h2, prober_ = DoubleHashProber h2 → mIndex_ t ≠ diverging_rung) →
  agree (Part000.find hash_ eq_ prober_ key t) (Ht.find hash_ eq_ prober_ key t).
Proof.
  intros Hsized Hrung. unfold Part000.find, Part000.internalFind, Part000.deref, Ht.find.
  destruct (probes_hand_over key t Hsized Hrung)
    as [(e & t1 & t2 & -> & -> & Hsame)|(loc & t1 & t2 & -> & -> & Hsame & Hloc)]; [done|].
  destruct Hloc as [->|(slot & Hs1 & Hs2 & Hstop)]; [done|].
  destruct (loc =? npos); [done|]. rewrite Hs1, Hs2.
  destruct slot as [hi|]; [|done]. simpl in Hstop.
  apply andb_true_iff in Hstop as [-> _]. by rewrite Hs1.
Qed.

(** X25 (at of part_000 and of ht.h): under the same conditions [at] of the
    two headers returns the same value or raises the same exception, in
    particular [std::out_of_range] for the same keys. *)
Theorem at_agrees key t :
  Ht.well_sized t →
  (∀ h2, prober_ = DoubleHashProber h2 → mIndex_ t ≠ diverging_rung) →
  agree (Part000.at_ hash_ eq_ prober_ key t) (Ht.at_ hash_ eq_ prober_ key t).
Proof.
  intros Hsized Hrung.
  unfold Part000.at_, Part000.internalFind, Part000.deref, Ht.at_, Ht.internalFind.
  destruct (probes_hand_over key t Hsized Hrung)
    as [(e & t1 & t2 & -> & -> & Hsame)|(loc & t1 & t2 & -> & -> & Hsame & Hloc)]; [done|].
  destruct Hloc as [->|(slot & Hs1 & Hs2 & Hstop)]; [done|].
  destruct (loc =? npos); [done|]. rewrite Hs1, Hs2.
  destruct slot as [hi|]; [|done]. simpl in Hstop.
  apply andb_true_iff in Hstop as [-> _]. simpl. by rewrite Hs1, Hs2.
Qed.

(** X26 (remove of part_000 and of ht.h): under the same conditions [remove]
    of the two headers marks the same slot, or none, and raises the same
    exception if any. *)
Theorem remove_agrees key t :
  Ht.well_sized t →
  (∀ h2, prober_ = DoubleHashProber h2 → mIndex_ t ≠ diverging_rung) →
  agree (Part000.remove hash_ eq_ prober_ key t) (Ht.remove hash_ eq_ prober_ key t).
Proof.
  intros Hsized Hrung.
  unfold Part000.remove, Part000.internalFind, Part000.deref, Ht.remove, Ht.internalFind.
  destruct (probes_hand_over key t Hsized Hrung)
    as [(e & t1 & t2 & -> & -> & Hsame)|(loc & t1 & t2 & -> & -> & Hsame & Hloc)]; [done|].
  destruct Hloc as [->|(slot & Hs1 & Hs2 & Hstop)]; [done|].
  destruct (loc =? npos); [done|]. rewrite Hs1, Hs2.
  destruct slot as [hi|]; [|done]. simpl in Hstop.
  apply andb_true_iff in Hstop as [Hlive _]. rewrite Hlive. simpl. rewrite Hs1, Hs2, Hlive.
  split; [done|]. by apply same_but_probes_mark.
Qed.

End Siblings.


(** * The further properties at concrete inputs *)

Section MoreInstances.
Import Examples WordExamples.

Lemma find_follows_operations_witness :
  ∃ n, ht_find 11 tombstone_table =
       Ret ((λ v, (11, v)) <$> foldl Ht.abs_op ∅ colliding_ops !! 11)
           (set_totalProbes n tombstone_table).
Proof.
  apply (find_follows_operations hash_id Z.eqb LinearProber Z.eqb_eq (2 # 5)
           colliding_ops 11 tombstone_table); [done | reflexivity].
Defined.

Lemma at_follows_operations_witness :
  ∃ n, Ht.at_ hash_id Z.eqb LinearProber 11 tombstone_table =
       match foldl Ht.abs_op ∅ colliding_ops !! 11 with
       | Some v => Ret v (set_totalProbes n tombstone_table)
       | None => Throw KeyNotFound (set_totalProbes n tombstone_table)
       end.
Proof.
  apply (at_follows_operations hash_id Z.eqb LinearProber Z.eqb_eq (2 # 5)
           colliding_ops 11 tombstone_table); [done | reflexivity].
Defined.

Lemma size_counts_keys_witness :
  Ht.size tombstone_table = Z.of_nat (base.size (foldl Ht.abs_op ∅ colliding_ops)) ∧
  (Ht.empty tombstone_table = true ↔ foldl Ht.abs_op ∅ colliding_ops = ∅) ∧
  0 ≤ Ht.size tombstone_table ≤ used_ tombstone_table ∧
  used_ tombstone_table ≤ Z.of_nat (length (table_ tombstone_table)).
Proof.
  apply (size_counts_keys hash_id Z.eqb LinearProber Z.eqb_eq (2 # 5)
           colliding_ops tombstone_table). reflexivity.
Defined.

Lemma insert_frame_witness :
  (∀ k' o t1, k' ≠ 11 → ht_find k' tombstone_table = Ret o t1 →
     ∃ t2, ht_find k' reinserted_table = Ret o t2) ∧
  (∀ t1, ht_find 11 tombstone_table = Ret None t1 →
     Ht.size reinserted_table = Ht.size tombstone_table + 1) ∧
  (∀ p t1, ht_find 11 tombstone_table = Ret (Some p) t1 →
     Ht.size reinserted_table = Ht.size tombstone_table).
Proof.
  apply (insert_frame hash_id Z.eqb LinearProber Z.eqb_eq 11 7
           tombstone_table reinserted_table);
    [exact tombstone_table_reachable | reflexivity].
Defined.

Lemma remove_frame_witness :
  ∃ t', ht_remove 22 tombstone_table = Ret tt t' ∧
    (∀ k' o t1, k' ≠ 22 → ht_find k' tombstone_table = Ret o t1 →
       ∃ t2, ht_find k' t' = Ret o t2) ∧
    length (table_ t') = length (table_ tombstone_table) ∧
    mIndex_ t' = mIndex_ tombstone_table.
Proof.
  apply (remove_frame hash_id Z.eqb LinearProber Z.eqb_eq 22 tombstone_table);
    [exact tombstone_table_reachable | done].
Defined.

Lemma find_probe_count_witness :
  1 ≤ Ht.totalProbes (state_of (ht_find 22 (Ht.clearTotalProbes tombstone_table)))
    ≤ Z.of_nat (length (table_ tombstone_table)) + 1.
Proof.
  apply (find_probe_count hash_id Z.eqb LinearProber Z.eqb_eq 22 tombstone_table
           (Some (22, 3)));
    [exact tombstone_table_reachable | reflexivity].
Defined.

Lemma linear_probe_sequence_witness :
  next_n (KeyType:=Z) LinearProber (Z.to_nat 5 + 2)
         (init Ht.DOUBLE_HASH_MOD_VALUES LinearProber 3 5 0) =
    ((λ j, Returns ((3 + j) mod 5)) <$> seqZ 0 5) ++ replicate 2 (Returns npos) ∧
  (λ j, (3 + j) mod 5) <$> seqZ 0 5 ≡ₚ seqZ 0 5.
Proof.
  apply (linear_probe_sequence (K:=Z) Ht.DOUBLE_HASH_MOD_VALUES 3 5 0 2); lia.
Defined.

Lemma double_hash_probe_sequence_witness :
  next_n (DoubleHashProber (λ x : Z, x)) (Z.to_nat (Ht.capacity_at 0) + 2)
         (init Ht.DOUBLE_HASH_MOD_VALUES (DoubleHashProber (λ x : Z, x)) 3
               (Ht.capacity_at 0) 40) =
    ((λ j, Returns ((3 + j * dhstep_ (init Ht.DOUBLE_HASH_MOD_VALUES
                                         (DoubleHashProber (λ x : Z, x)) 3
                                         (Ht.capacity_at 0) 40))
                    mod Ht.capacity_at 0)) <$> seqZ 0 (Ht.capacity_at 0))
    ++ replicate 2 (Returns npos) ∧
  (λ j, (3 + j * dhstep_ (init Ht.DOUBLE_HASH_MOD_VALUES
                            (DoubleHashProber (λ x : Z, x)) 3 (Ht.capacity_at 0) 40))
        mod Ht.capacity_at 0) <$> seqZ 0 (Ht.capacity_at 0)
  ≡ₚ seqZ 0 (Ht.capacity_at 0).
Proof.
  apply (double_hash_probe_sequence (λ x : Z, x) 3 0 40 2);
    [rewrite capCount_value; lia | discriminate | change (Ht.capacity_at 0) with 11; lia].
Defined.

Lemma composite_rung_short_cycle_witness :
  (∀ (j : nat) r,
     next_n (DoubleHashProber (λ x : Z, x)) 3
            (init Ht.DOUBLE_HASH_MOD_VALUES (DoubleHashProber (λ x : Z, x)) 5
                  (Ht.capacity_at composite_rung) key997) !! (j + 105677)%nat = Some r →
     r ≠ Returns npos →
     next_n (DoubleHashProber (λ x : Z, x)) 3
            (init Ht.DOUBLE_HASH_MOD_VALUES (DoubleHashProber (λ x : Z, x)) 5
                  (Ht.capacity_at composite_rung) key997) !! j = Some r) ∧
  (∀ L, Returns L ∈ next_n (DoubleHashProber (λ x : Z, x)) 3
                      (init Ht.DOUBLE_HASH_MOD_VALUES (DoubleHashProber (λ x : Z, x)) 5
                            (Ht.capacity_at composite_rung) key997) →
        L = npos ∨ (0 ≤ L < Ht.capacity_at composite_rung ∧ L mod 997 = 5 mod 997)).
Proof.
  apply (composite_rung_short_cycle (λ x : Z, x) 5 key997 3).
  - change (Ht.capacity_at composite_rung) with 105359969. lia.
  - exists 1. reflexivity.
Defined.

Lemma insert_outcomes_witness :
  (∃ t', ht_insert (11, 7) tombstone_table = Ret tt t') ∨
  (∃ t', ht_insert (11, 7) tombstone_table = Throw CapacityExhausted t') ∨
  (∃ t', ht_insert (11, 7) tombstone_table = Throw TableFull t' ∧
         (LinearProber : ProberKind Z) ≠ LinearProber ∧ mIndex_ t' = composite_rung).
Proof.
  apply (insert_outcomes hash_id Z.eqb LinearProber Z.eqb_eq (11, 7) tombstone_table);
    [exact tombstone_table_reachable | done | done].
Defined.

Lemma call_leading_zero_witness :
  MyStringHash.call MyStringHash.preset_rValues ["a"; "b"; "c"]%char
  = MyStringHash.call MyStringHash.preset_rValues ["b"; "c"]%char.
Proof.
  apply (call_leading_zero MyStringHash.preset_rValues "a"%char ["b"; "c"]%char).
  reflexivity.
Defined.

Lemma call_last_30_witness :
  MyStringHash.call MyStringHash.preset_rValues (["x"; "y"]%char ++ replicate 30 "b"%char)
  = MyStringHash.call MyStringHash.preset_rValues (replicate 30 "b"%char).
Proof.
  apply (call_last_30 MyStringHash.preset_rValues ["x"; "y"]%char (replicate 30 "b"%char)).
  rewrite length_replicate. lia.
Defined.

Lemma call_short_injective_witness :
  MyStringHash.digits ["C"; "a"; "t"; "!"]%char = MyStringHash.digits ["c"; "A"; "T"; "a"]%char.
Proof.
  apply (call_short_injective ["C"; "a"; "t"; "!"]%char ["c"; "A"; "T"; "a"]%char);
    [reflexivity | simpl; lia | vm_compute; reflexivity].
Defined.

Lemma board3_square : Boggle.square board3.
Proof. split; [unfold Boggle.UINT_MODULUS; simpl; lia | repeat constructor]. Qed.

Lemma boggleHelper_return_flag_witness :
  (∅ : gset (list ascii)) ⊆ {[ ["c"; "a"; "t"]%char ]} ∧
  (true = true →
   ∃ tail, Boggle.reach dict3 prefix3 board3 [] 0 0 0 1 tail ∧
           ({[ ["c"; "a"; "t"]%char ]} : gset (list ascii)) = {[ [] ++ tail ]} ∪ ∅ ∧
           ∀ tail', Boggle.reach dict3 prefix3 board3 [] 0 0 0 1 tail' →
                    (length tail' ≤ length tail)%nat) ∧
  (true = false →
   ({[ ["c"; "a"; "t"]%char ]} : gset (list ascii)) = ∅ ∧
   ∀ tail, ¬ Boggle.reach dict3 prefix3 board3 [] 0 0 0 1 tail).
Proof.
  apply (boggleHelper_return_flag dict3 prefix3 board3 4 [] ∅ 0 0 0 1 true
           {[ ["c"; "a"; "t"]%char ]});
    [exact board3_square | unfold Boggle.directions; set_solver | simpl; lia..
    | vm_compute; reflexivity].
Defined.

Lemma boggle_longest_reads_witness :
  ∃ res, Boggle.boggle dict3 prefix3 board3 = Boggle.Done res ∧
    ∀ w, w ∈ res ↔
         ∃ i j dr dc, Boggle.inside board3 i j = true ∧ (dr, dc) ∈ Boggle.directions ∧
                      Boggle.longest_read dict3 prefix3 board3 i j dr dc w.
Proof. exact (boggle_longest_reads dict3 prefix3 board3 board3_square). Defined.

Lemma boggle_needs_square_witness : Boggle.square board3.
Proof.
  apply (boggle_needs_square dict3 prefix3 board3 found3);
    [unfold Boggle.UINT_MODULUS; simpl; lia | vm_compute; reflexivity].
Defined.

Lemma boggle_finds_longest_words_witness :
  ∃ dict prefix res,
    Boggle.parseDict (Some words3) = Boggle.Done (dict, prefix) ∧
    Boggle.boggle dict prefix board3 = Boggle.Done res ∧
    ∀ w, w ∈ res ↔
         ∃ i j dr dc, Boggle.inside board3 i j = true ∧ (dr, dc) ∈ Boggle.directions ∧
                      Boggle.longest_word words3 board3 i j dr dc w.
Proof. exact (boggle_finds_longest_words words3 board3 board3_square). Defined.

Lemma genBoard_shape_witness :
  length (Boggle.genBoard draws7 3) = 3%nat ∧
  Forall (λ row, length row = 3%nat ∧
                 Forall (λ ch, (65 ≤ nat_of_ascii ch ≤ 90)%nat) row)
         (Boggle.genBoard draws7 3) ∧
  Boggle.square (Boggle.genBoard draws7 3).
Proof.
  apply (genBoard_shape draws7 3). unfold Boggle.UINT_MODULUS. simpl. lia.
Defined.

Lemma tombstone_table_sized : Ht.well_sized tombstone_table.
Proof. split; [split; [done | reflexivity] | reflexivity]. Qed.

Lemma find_agrees_witness :
  agree (Part000.find hash_id Z.eqb (DoubleHashProber hash_id) 22 tombstone_table)
        (Ht.find hash_id Z.eqb (DoubleHashProber hash_id) 22 tombstone_table).
Proof.
  apply (find_agrees hash_id Z.eqb (DoubleHashProber hash_id) 22 tombstone_table);
    [exact tombstone_table_sized | intros h2 _; discriminate].
Defined.

Lemma at_agrees_witness :
  agree (Part000.at_ hash_id Z.eqb (DoubleHashProber hash_id) 11 tombstone_table)
        (Ht.at_ hash_id Z.eqb (DoubleHashProber hash_id) 11 tombstone_table).
Proof.
  apply (at_agrees hash_id Z.eqb (DoubleHashProber hash_id) 11 tombstone_table);
    [exact tombstone_table_sized | intros h2 _; discriminate].
Defined.

Lemma remove_agrees_witness :
  agree (Part000.remove hash_id Z.eqb (DoubleHashProber hash_id) 22 tombstone_table)
        (Ht.remove hash_id Z.eqb (DoubleHashProber hash_id) 22 tombstone_table).
Proof.
  apply (remove_agrees hash_id Z.eqb (DoubleHashProber hash_id) 22 tombstone_table);
    [exact tombstone_table_sized | intros h2 _; discriminate].
Defined.

End MoreInstances.


